(** * who.cares (iffy.app): the [/calculate-weight] pipeline of [server.js]

    A shallow embedding of the request handler of [server.js] and of the
    helpers it calls ([fetchRealSources], [calculateWeightsAndHours], the
    citation pass), followed by the properties the specification states
    about them.

    Conventions of the model.
    - A JavaScript number is the rational value of a binary64 number, an
      infinity or NaN. Addition, multiplication and division round their
      exact result to the nearest binary64 number, a tie going to the even
      significand and a result past the range to an infinity, as IEEE 754
      has it; the sign of zero is not modelled.
    - A JavaScript string is a [string] with one character per code unit, so
      texts are limited to code units below 256.
    - A template literal that interpolates a number is kept as a [text]: a
      list of literal pieces and of numbers, since the digits printed for a
      number depend on its binary64 value.
    - The two external providers (the structured generation call and the
      search call) are oracles of a [World]; the order in which the
      concurrent search calls settle is a [Schedule]. *)

From Stdlib Require Import QArith Qround Qpower Qreduction Lqa ZArith Lia Ascii String List.
From stdpp Require Import base option list strings pretty sorting.

Local Open Scope string_scope.
Local Open Scope list_scope.
Local Open Scope Z_scope.

(** ** Numbers *)

Inductive number :=
  | Finite (q : Q)
  | Infinite (negative : bool)
  | NaN.

Definition Q_is_zero (q : Q) : bool := (Qnum q =? 0)%Z.
Definition Q_is_negative (q : Q) : bool := (Qnum q <? 0)%Z.

Definition of_Z (z : Z) : number := Finite (inject_Z z).
Definition of_nat (n : nat) : number := of_Z (Z.of_nat n).

(** *** binary64 *)

(** The binade of a positive rational: the [e] with 2^e <= q < 2^(e+1). *)
Definition binade (q : Q) : Z :=
  let k := Z.log2 (Qnum q) - Z.log2 (Zpos (Qden q)) in
  if Qle_bool (2 ^ k) q then k else k - 1.

(** The nearest integer, a tie going to the even one. *)
Definition round_half_even (q : Q) : Z :=
  let f := Qfloor q in
  match (q - inject_Z f ?= 1 # 2)%Q with
  | Lt => f
  | Gt => f + 1
  | Eq => if Z.even f then f else f + 1
  end.

(** The exponent of the unit in the last place of a positive [q]: 53
    significant bits, the least exponent that of the subnormal numbers. *)
Definition exponent (q : Q) : Z := Z.max (binade q - 52) (-1074).

(** The multiple of the unit in the last place nearest to a positive [q]. *)
Definition nearest (q : Q) : Q :=
  let ulp := (2 ^ exponent q)%Q in
  (inject_Z (round_half_even (q / ulp)) * ulp)%Q.

(** The binary64 number nearest to a rational, an infinity when the
    rounded value is past the largest binary64 number. *)
Definition binary64 (q : Q) : number :=
  match (q ?= 0)%Q with
  | Eq => Finite 0
  | Gt => let r := nearest q in
          if Qle_bool (2 ^ 1024) r then Infinite false else Finite (Qred r)
  | Lt => let r := nearest (- q) in
          if Qle_bool (2 ^ 1024) r then Infinite true else Finite (Qred (- r))
  end.

(** *** The operators *)

(** [x + y] *)
Definition Number_add (x y : number) : number :=
  match x, y with
  | NaN, _ | _, NaN => NaN
  | Infinite s, Infinite s' => if Bool.eqb s s' then Infinite s else NaN
  | Infinite s, Finite _ | Finite _, Infinite s => Infinite s
  | Finite a, Finite b => binary64 (a + b)
  end.

(** [x * y] *)
Definition Number_mul (x y : number) : number :=
  match x, y with
  | NaN, _ | _, NaN => NaN
  | Infinite s, Infinite s' => Infinite (xorb s s')
  | Infinite s, Finite q | Finite q, Infinite s =>
      if Q_is_zero q then NaN else Infinite (xorb s (Q_is_negative q))
  | Finite a, Finite b => binary64 (a * b)
  end.

(** [x / y]; a zero divisor is the positive zero. *)
Definition Number_div (x y : number) : number :=
  match x, y with
  | NaN, _ | _, NaN => NaN
  | Infinite _, Infinite _ => NaN
  | Infinite s, Finite q => Infinite (xorb s (Q_is_negative q))
  | Finite _, Infinite _ => Finite 0%Q
  | Finite a, Finite b =>
      if Q_is_zero b then
        if Q_is_zero a then NaN else Infinite (Q_is_negative a)
      else binary64 (a / b)
  end.

(** [x > y] *)
Definition Number_gt (x y : number) : bool :=
  match x, y with
  | NaN, _ | _, NaN => false
  | Infinite s, Infinite s' => negb s && s'
  | Infinite s, Finite _ => negb s
  | Finite _, Infinite s => s
  | Finite a, Finite b => if Qlt_le_dec b a then true else false
  end.

(** [x <= y] *)
Definition Number_le (x y : number) : bool :=
  match x, y with
  | NaN, _ | _, NaN => false
  | Infinite s, Infinite s' => s || negb s'
  | Infinite s, Finite _ => s
  | Finite _, Infinite s => negb s
  | Finite a, Finite b => if Qlt_le_dec b a then false else true
  end.

(** [Math.round]: the nearest integer, a tie going up; the result is exact,
    a binary64 number of magnitude 2^52 or more being an integer. *)
Definition round_half_up (q : Q) : Z := Qfloor (q + (1 # 2))%Q.

Definition Math_round (x : number) : number :=
  match x with
  | Finite q => of_Z (round_half_up q)
  | _ => x
  end.

Declare Scope number_scope.
Delimit Scope number_scope with num.
Bind Scope number_scope with number.
Infix "+" := Number_add : number_scope.
Infix "*" := Number_mul : number_scope.
Infix "/" := Number_div : number_scope.

(** ** Strings *)

Definition code (a : ascii) : Z := Z.of_N (N_of_ascii a).

(** White space and line terminators of ECMAScript below 256: TAB, LF, VT,
    FF, CR, SP and NBSP. *)
Definition is_white_space (a : ascii) : bool :=
  let n := code a in
  ((9 <=? n) && (n <=? 13)) || (n =? 32) || (n =? 160).

Fixpoint trimStart (s : string) : string :=
  match s with
  | EmptyString => EmptyString
  | String a s' => if is_white_space a then trimStart s' else s
  end.

Fixpoint trimEnd (s : string) : string :=
  match s with
  | EmptyString => EmptyString
  | String a s' =>
      match trimEnd s' with
      | EmptyString => if is_white_space a then EmptyString else String a EmptyString
      | t => String a t
      end
  end.

(** [String.prototype.trim] *)
Definition trim (s : string) : string := trimEnd (trimStart s).

Definition all_white_space (s : string) : Prop :=
  Forall (fun a => is_white_space a = true) (list_ascii_of_string s).

(** The digit a character stands for, in a base up to 36. *)
Definition digit_of (a : ascii) : option Z :=
  let n := code a in
  if (48 <=? n) && (n <=? 57) then Some (n - 48)
  else if (97 <=? n) && (n <=? 122) then Some (n - 87)
  else if (65 <=? n) && (n <=? 90) then Some (n - 55)
  else None.

(** The value of a string of digits of [base]; [None] when a character is
    not such a digit. *)
Fixpoint digits_value (base acc : Z) (s : string) : option Z :=
  match s with
  | EmptyString => Some acc
  | String a s' =>
      match digit_of a with
      | Some d => if d <? base then digits_value base (acc * base + d) s' else None
      | None => None
      end
  end.

(** The longest prefix of decimal digits, and the rest. *)
Fixpoint span_digits (s : string) : string * string :=
  match s with
  | EmptyString => (EmptyString, EmptyString)
  | String a s' =>
      match digit_of a with
      | Some d =>
          if d <? 10 then let '(ds, rest) := span_digits s' in (String a ds, rest)
          else (EmptyString, s)
      | None => (EmptyString, s)
      end
  end.

(** [ExponentPart]: [e] or [E], an optional sign, one digit or more. *)
Definition exponent_part (s : string) : option Z :=
  match s with
  | EmptyString => Some 0
  | String a s' =>
      if (code a =? 101) || (code a =? 69) then
        let '(negative, ds) :=
          match s' with
          | String b s'' =>
              if code b =? 45 then (true, s'')
              else if code b =? 43 then (false, s'') else (false, s')
          | EmptyString => (false, s')
          end in
        match ds with
        | EmptyString => None
        | _ => (fun e => if negative : bool then - e else e) <$> digits_value 10 0 ds
        end
      else None
  end.

(** [StrUnsignedDecimalLiteral] *)
Definition unsigned_decimal (s : string) : number :=
  if String.eqb s "Infinity" then Infinite false
  else
    let '(int_part, rest) := span_digits s in
    let '(frac_part, rest) :=
      match rest with
      | String a rest' => if code a =? 46 then span_digits rest' else (EmptyString, rest)
      | EmptyString => (EmptyString, rest)
      end in
    match int_part, frac_part with
    | EmptyString, EmptyString => NaN
    | _, _ =>
        match digits_value 10 0 (int_part +:+ frac_part), exponent_part rest with
        | Some m, Some e =>
            binary64 (inject_Z m * Qpower 10%Q (e - Z.of_nat (String.length frac_part)))
        | _, _ => NaN
        end
    end.

Definition Number_negate (x : number) : number :=
  match x with
  | Finite q => Finite (- q)%Q
  | Infinite s => Infinite (negb s)
  | NaN => NaN
  end.

(** [0x], [0o] and [0b] literals: no sign, one digit or more. *)
Definition non_decimal (s : string) : option number :=
  match s with
  | String z (String p ds) =>
      if code z =? 48 then
        let base :=
          if (code p =? 120) || (code p =? 88) then Some 16
          else if (code p =? 111) || (code p =? 79) then Some 8
          else if (code p =? 98) || (code p =? 66) then Some 2
          else None in
        match base, ds with
        | Some b, String _ _ =>
            Some (match digits_value b 0 ds with
                  | Some m => binary64 (inject_Z m)
                  | None => NaN
                  end)
        | Some _, EmptyString => Some NaN
        | None, _ => None
        end
      else None
  | _ => None
  end.

(** [StringToNumber]: the numeric value of a string, NaN when it is not a
    numeric literal; the empty and the blank string give 0. *)
Definition StringToNumber (s : string) : number :=
  match trim s with
  | EmptyString => Finite 0%Q
  | String a s' as t =>
      match non_decimal t with
      | Some n => n
      | None =>
          if code a =? 45 then Number_negate (unsigned_decimal s')
          else if code a =? 43 then unsigned_decimal s'
          else unsigned_decimal t
      end
  end.

(** ** Values *)

(** A value of a request body or of a provider's answer. An object or an
    array carries the string its conversion to a primitive gives. *)
Inductive value :=
  | VUndefined
  | VNull
  | VBool (b : bool)
  | VNum (n : number)
  | VStr (s : string)
  | VObj (primitive : string).

Definition ToBoolean (v : value) : bool :=
  match v with
  | VUndefined | VNull => false
  | VBool b => b
  | VNum (Finite q) => negb (Q_is_zero q)
  | VNum (Infinite _) => true
  | VNum NaN => false
  | VStr s => negb (String.eqb s "")
  | VObj _ => true
  end.

Definition ToNumber (v : value) : number :=
  match v with
  | VUndefined => NaN
  | VNull => Finite 0%Q
  | VBool b => if b then Finite 1%Q else Finite 0%Q
  | VNum n => n
  | VStr s | VObj s => StringToNumber s
  end.

(** ** Texts *)

Inductive piece :=
  | Lit (s : string)
  | Interp (n : number)
  | Fixed (n : number) (fractionDigits : nat).

Definition text := list piece.

Definition ToString (v : value) : text :=
  match v with
  | VUndefined => [Lit "undefined"]
  | VNull => [Lit "null"]
  | VBool b => [Lit (if b then "true" else "false")]
  | VNum n => [Interp n]
  | VStr s | VObj s => [Lit s]
  end.

(** The string a text stands for, when no number is interpolated in it. *)
Fixpoint literal (t : text) : option string :=
  match t with
  | [] => Some EmptyString
  | Lit s :: t' => (fun r => s +:+ r) <$> literal t'
  | _ :: _ => None
  end.

(** [Array.prototype.join] *)
Fixpoint join (sep : text) (l : list text) : text :=
  match l with
  | [] => []
  | [t] => t
  | t :: l' => t ++ sep ++ join sep l'
  end.

Definition dquote : string := String "034"%char EmptyString.
Definition newline : string := String "010"%char EmptyString.

(** ** Data *)

(** One entry of [data] in the structured answer ([WeightSchema]); [F] is
    the type of a fact: a string as generated, an [EnhancedFact] once the
    sources are attached. *)
Record Category (F : Type) := {
  category : string;
  weight : number;
  facts : list F;
  reasoning : string;
}.
Arguments category {F} _.
Arguments weight {F} _.
Arguments facts {F} _.
Arguments reasoning {F} _.

(** A search result as [fetchRealSources] returns it, and the [citation]
    the citation pass may set on it. *)
Record Source := {
  title : value;
  link : value;
  snippet : value;
  citation : option string;
}.

Record EnhancedFact := {
  fact : string;
  sources : list Source;
}.

(** [{ ...category, facts }] *)
Definition with_facts {F G} (c : Category F) (fs : list G) : Category G :=
  {| category := category c; weight := weight c; facts := fs; reasoning := reasoning c |}.

(** [{ ...category, weight }] *)
Definition with_weight {F} (c : Category F) (w : number) : Category F :=
  {| category := category c; weight := w; facts := facts c; reasoning := reasoning c |}.

(** [{ ...sourceObj, citation }], for [sourceObj.citation = citation] *)
Definition with_citation (s : Source) (c : string) : Source :=
  {| title := title s; link := link s; snippet := snippet s; citation := Some c |}.

(** A callback run over a list from left to right while it updates the
    variables of its closure. *)
Fixpoint map_accum {S A B} (f : S -> A -> S * B) (s : S) (l : list A) : S * list B :=
  match l with
  | [] => (s, [])
  | a :: l' =>
      let '(s1, b) := f s a in
      let '(s2, bs) := map_accum f s1 l' in
      (s2, b :: bs)
  end.

(** ** The aggregator *)

Record Hours (F : Type) := {
  enrichedCategories : list (Category F);
  totalHours : number;
  totalHoursDescription : text;
}.
Arguments enrichedCategories {F} _.
Arguments totalHours {F} _.
Arguments totalHoursDescription {F} _.

(** The callback of [categories.map] in [calculateWeightsAndHours]; the
    state is [(totalWeight, relevanceModifier)]. *)
Definition accumulate_category {F} (st : number * number) (c : Category F)
  : (number * number) * Category F :=
  let '(totalWeight, relevanceModifier) := st in
  let relevanceModifier :=
    if String.eqb (category c) "Personal Relevance"
    then (Finite 1 + weight c / Finite 10)%num
    else relevanceModifier in
  let weight := weight c in
  let totalWeight := (totalWeight + weight)%num in
  ((totalWeight, relevanceModifier), with_weight c weight).

Definition calculateWeightsAndHours {F} (categories : list (Category F)) (daysPerYear : value)
  : Hours F :=
  let totalAvailableHours := (ToNumber daysPerYear * Finite 24)%num in
  let '((totalWeight, relevanceModifier), enrichedCategories) :=
    map_accum accumulate_category (Finite 0, Finite 1) categories in
  let averageWeight := (totalWeight / of_nat (length categories))%num in
  let totalHours :=
    Math_round ((averageWeight / Finite 10) * (totalAvailableHours / Finite 5)
                * relevanceModifier)%num in
  let modifiedDescription :=
    if Number_gt relevanceModifier (Finite 1)
    then [Lit " times personal relevance modifier "; Interp relevanceModifier; Lit " "]
    else [Lit ""] in
  let totalHoursDescription :=
    [Lit "Calculated total hours ("; Interp totalHours;
     Lit ") based on an average AI-generated weight of "; Fixed averageWeight 1]
    ++ modifiedDescription
    ++ [Lit " across "; Interp (of_nat (length categories)); Lit " categories and ";
        Interp totalAvailableHours; Lit " total available hours."] in
  {| enrichedCategories := enrichedCategories;
     totalHours := totalHours;
     totalHoursDescription := totalHoursDescription |}.

(** ** Promises and the handler's effects *)

(** The state of a promise; [Rejected] is also a thrown exception. *)
Inductive outcome (A : Type) :=
  | Fulfilled (a : A)
  | Rejected
  | Pending.
Arguments Fulfilled {A} _.
Arguments Rejected {A}.
Arguments Pending {A}.

Global Instance outcome_ret : MRet outcome := fun A a => Fulfilled a.
Global Instance outcome_bind : MBind outcome := fun A B f o =>
  match o with
  | Fulfilled a => f a
  | Rejected => Rejected
  | Pending => Pending
  end.

(** [try { o } catch { h }] *)
Definition catch {A} (o : outcome A) (h : outcome A) : outcome A :=
  match o with
  | Rejected => h
  | _ => o
  end.

(** A promise that rejects when the provider fails. *)
Definition settled {A} (r : option A) : outcome A :=
  match r with
  | Some a => Fulfilled a
  | None => Rejected
  end.

(** [Promise.all]: rejected as soon as one promise is, fulfilled with the
    values in the order of the promises once all are. *)
Fixpoint Promise_all {A} (ps : list (outcome A)) : outcome (list A) :=
  match ps with
  | [] => Fulfilled []
  | p :: ps' =>
      match p, Promise_all ps' with
      | Rejected, _ | _, Rejected => Rejected
      | Pending, _ | _, Pending => Pending
      | Fulfilled a, Fulfilled l => Fulfilled (a :: l)
      end
  end.

(** ** The providers *)

(** The messages of the generation request: the fixed instructions are
    constant, [system_categories] and [user_content] are what the handler
    interpolates. *)
Record Prompt := {
  system_categories : string;
  user_content : text;
}.

Record Message := { parsed : option (list (Category string)) }.
Record Choice := { message : option Message }.
Record ChatCompletion := { choices : option (list Choice) }.

Record Item := {
  item_title : value;
  item_link : value;
  item_snippet : value;
}.
Record SearchData := { items : option (list Item) }.
Record SearchResponse := { data : option SearchData }.

(** The [params] of the search request; [key] and [cx] are constants of the
    deployment. *)
Record SearchParams := {
  q : text;
  num : nat;
}.

(** What the outside answers: [None] is a request that fails. *)
Record World := {
  openai_parse : Prompt -> option ChatCompletion;
  axios_get : SearchParams -> option SearchResponse;
}.

Inductive Call :=
  | CallOpenAI (p : Prompt)
  | CallSearch (p : SearchParams).

(** A step of the handler: it may issue external calls, and it ends with a
    value, an exception or a wait that never ends. *)
Definition Async (A : Type) : Type := list Call -> list Call * outcome A.

Global Instance Async_ret : MRet Async := fun A a log => (log, Fulfilled a).
Global Instance Async_bind : MBind Async := fun A B f m log =>
  match m log with
  | (log', Fulfilled a) => f a log'
  | (log', Rejected) => (log', Rejected)
  | (log', Pending) => (log', Pending)
  end.

Definition throw {A} : Async A := fun log => (log, Rejected).
Definition issue (cs : list Call) : Async unit := fun log => (log ++ cs, Fulfilled tt).
Definition await {A} (p : outcome A) : Async A := fun log => (log, p).
Definition try_catch {A} (m h : Async A) : Async A := fun log =>
  match m log with
  | (log', Rejected) => h log'
  | r => r
  end.

(** ** [fetchRealSources] *)

Definition fetchRealSources_params (fact : text) : SearchParams :=
  {| q := fact; num := 3 |}.

Definition source_of_item (item : Item) : Source :=
  {| title := item_title item; link := item_link item; snippet := item_snippet item;
     citation := None |}.

(** The body of [fetchRealSources] from the answer of [axios.get] on. *)
Definition fetchRealSources_result (answer : option SearchResponse) : outcome (list Source) :=
  catch
    (searchResponse ← settled answer;
     searchData ← settled (data searchResponse);
     mret (match items searchData with
           | Some l => map source_of_item l
           | None => []
           end))
    (mret []).

Definition fetchRealSources (w : World) (fact : text) : outcome (list Source) :=
  fetchRealSources_result (axios_get w (fetchRealSources_params fact)).

(** ** The fan-out over the facts *)

(** [fact + ` ${year}`] *)
Definition search_query (year : value) (fact : string) : text :=
  Lit fact :: Lit " " :: ToString year.

(** The callback of [enhanceFacts], once its lookup has settled. *)
Definition enhanceFact (w : World) (year : value) (fact : string) : outcome EnhancedFact :=
  sources ← fetchRealSources w (search_query year fact);
  mret {| fact := fact; sources := sources |}.

(** A lookup is named by the index of its category and of its fact; a
    schedule lists the lookups in the order they settle. *)
Abbreviation Position := (nat * nat)%type.
Abbreviation Schedule := (list (nat * nat)).

(** The promises of the callbacks of [enhanceFacts], per category. *)
Abbreviation Slots := (list (list (outcome EnhancedFact))).

Definition dispatch (categories : list (Category string)) : Slots :=
  map (fun c => map (fun _ => Pending) (facts c)) categories.

Definition settle (w : World) (year : value) (categories : list (Category string))
    (st : Slots) (p : Position) : Slots :=
  match categories !! p.1 ≫= (fun c => facts c !! p.2) with
  | Some fact => alter (fun row => <[p.2 := enhanceFact w year fact]> row) p.1 st
  | None => st
  end.

(** The promise of the callback of [response.data.map]. *)
Definition enhanceCategory (c : Category string) (row : list (outcome EnhancedFact))
  : outcome (Category EnhancedFact) :=
  enhancedFacts ← Promise_all row;
  mret (with_facts c enhancedFacts).

Definition search_calls (year : value) (categories : list (Category string)) : list Call :=
  map (fun fact => CallSearch (fetchRealSources_params (search_query year fact)))
      (concat (map facts categories)).

(** [await Promise.all(response.data.map(...))]: every lookup is requested
    at once, in the order of the categories and of their facts; the
    lookups settle in the order of the schedule. *)
Definition enhanceData (w : World) (year : value) (sched : Schedule)
    (categories : list (Category string)) : Async (list (Category EnhancedFact)) :=
  _ ← issue (search_calls year categories);
  await (Promise_all
           (zip_with enhanceCategory categories
              (fold_left (settle w year categories) sched (dispatch categories)))).

(** ** The citation pass *)

(** [citationMap] and [citationCounter]; a [Map] lists its entries in the
    order the keys were first set. *)
Record Registry := {
  citationMap : list (nat * Source);
  citationCounter : nat;
}.

Definition new_registry : Registry := {| citationMap := []; citationCounter := 1 |}.

(** [Map.prototype.set] *)
Fixpoint Map_set {V} (key : nat) (v : V) (m : list (nat * V)) : list (nat * V) :=
  match m with
  | [] => [(key, v)]
  | (k, v') :: m' => if Nat.eqb k key then (k, v) :: m' else (k, v') :: Map_set key v m'
  end.

(** [`[${n}]`] for a counter *)
Definition bracket (n : nat) : string := "[" +:+ pretty n +:+ "]".

(** The callback of [forEach]: the source object is updated in place, and
    the map holds that same object. *)
Definition assign (r : Registry) (sourceObj : Source) : Registry * Source :=
  if ToBoolean (link sourceObj) then
    let citation := bracket (citationCounter r) in
    let sourceObj := with_citation sourceObj citation in
    ({| citationMap := Map_set (citationCounter r) sourceObj (citationMap r);
        citationCounter := S (citationCounter r) |},
     sourceObj)
  else (r, sourceObj).

Definition assign_fact (r : Registry) (f : EnhancedFact) : Registry * EnhancedFact :=
  let '(r', ss) := map_accum assign r (sources f) in
  (r', {| fact := fact f; sources := ss |}).

Definition assign_category (r : Registry) (c : Category EnhancedFact)
  : Registry * Category EnhancedFact :=
  let '(r', fs) := map_accum assign_fact r (facts c) in
  (r', with_facts c fs).

(** [enhancedData.flatMap(data => data.facts).flatMap(fact => fact.sources)] *)
Definition flat_sources (enhancedData : list (Category EnhancedFact)) : list Source :=
  concat (map sources (concat (map facts enhancedData))).

(** [flat_sources(enhancedData).forEach(assign)]: the objects of the flat
    list are the ones the facts hold, so the pass is the walk over the
    categories, their facts and their sources in that order. *)
Definition assign_citations (r : Registry) (enhancedData : list (Category EnhancedFact))
  : Registry * list (Category EnhancedFact) :=
  map_accum assign_category r enhancedData.

(** A property of a source object read by name. *)
Definition Source_get (s : Source) (property : string) : value :=
  if String.eqb property "title" then title s
  else if String.eqb property "link" then link s
  else if String.eqb property "snippet" then snippet s
  else if String.eqb property "citation" then
    match citation s with Some c => VStr c | None => VUndefined end
  else VUndefined.

Record CombinedSource := {
  combined_citation : string;
  combined_source : value;
  combined_ground_news_link : value;
}.

Definition combinedSources (r : Registry) : list CombinedSource :=
  map (fun '(key, v) =>
         {| combined_citation := bracket key;
            combined_source := Source_get v "source";
            combined_ground_news_link := Source_get v "ground_news_link" |})
      (citationMap r).

(** ** The display order *)

Definition sortOrder : list string :=
  ["Statistical Impact"; "Social Relevance"; "Policy Impact Potential"; "Personal Relevance"].

Fixpoint indexOf_from (l : list string) (x : string) (i : Z) : Z :=
  match l with
  | [] => -1
  | y :: l' => if String.eqb y x then i else indexOf_from l' x (i + 1)
  end.

(** [Array.prototype.indexOf] *)
Definition indexOf (l : list string) (x : string) : Z := indexOf_from l x 0.

(** [Array.prototype.sort] with a comparator: stable, an element staying
    before the ones it does not compare greater than. *)
Fixpoint sort_insert {A} (compare : A -> A -> Z) (x : A) (l : list A) : list A :=
  match l with
  | [] => [x]
  | y :: l' => if compare x y <=? 0 then x :: l else y :: sort_insert compare x l'
  end.

Fixpoint Array_sort {A} (compare : A -> A -> Z) (l : list A) : list A :=
  match l with
  | [] => []
  | x :: l' => sort_insert compare x (Array_sort compare l')
  end.

Definition compare_categories {F} (a b : Category F) : Z :=
  indexOf sortOrder (category a) - indexOf sortOrder (category b).

(** ** The handler of [POST /calculate-weight] *)

Record Body := {
  topic : value;
  personalImpact : value;
  biasPreference : value;
  year : value;
  daysPerYear : value;
}.

Inductive field :=
  | FText (t : text)
  | FNumber (n : number)
  | FWeights (l : list (Category EnhancedFact)).

(** The status and the object given to [res.json]. *)
Record Reply := {
  status : nat;
  body : list (string * field);
}.

Fixpoint get (key : string) (o : list (string * field)) : option field :=
  match o with
  | [] => None
  | (k, v) :: o' => if String.eqb k key then Some v else get key o'
  end.

(** [v.trim()]: a type error unless [v] is a string. *)
Definition method_trim (v : value) : outcome string :=
  match v with
  | VStr s => Fulfilled (trim s)
  | _ => Rejected
  end.

Definition first_parsed (completion : ChatCompletion) : outcome (list (Category string)) :=
  match choices completion with
  | Some (choice :: _) =>
      m ← settled (message choice);
      settled (parsed m)
  | _ => Rejected
  end.

Definition analysisSummary (totalHoursDescription : text) (response_data : list (Category string))
  : text :=
  [Lit (newline +:+ "      ")] ++ totalHoursDescription
  ++ [Lit (newline +:+ "      Key Insights: ")]
  ++ join [Lit ", "]
       (map (fun w => [Lit (category w); Lit ": "; Interp (weight w); Lit "/10"]) response_data)
  ++ [Lit ("." +:+ newline +:+ "    ")].

(** [!topic || topic.trim().length === 0] *)
Definition topic_missing (req : Body) : outcome bool :=
  if negb (ToBoolean (topic req)) then mret true
  else t ← method_trim (topic req); mret (String.length t =? 0)%nat.

(** [personalImpact && personalImpact.trim()], as a condition *)
Definition personally_relevant (req : Body) : outcome bool :=
  if ToBoolean (personalImpact req)
  then t ← method_trim (personalImpact req); mret (ToBoolean (VStr t))
  else mret false.

(** The messages of the generation request (lines 100 to 143). *)
Definition prompt_of (req : Body) (relevant : bool) : Prompt :=
  let personalImpactContent :=
    if relevant
    then Some ([Lit ("The user provided personal relevance: " +:+ dquote)]
               ++ ToString (personalImpact req) ++ [Lit ("." +:+ dquote)])
    else None in
  let biasPreferenceContent :=
    if ToBoolean (biasPreference req)
    then [Lit "The user prefers a "] ++ ToString (biasPreference req)
         ++ [Lit " perspective for this analysis."]
    else [Lit "The user prefers a neutral perspective for this analysis."] in
  let yearContent :=
    if ToBoolean (year req)
    then [Lit "Focus the analysis on data and context from around the year "]
         ++ ToString (year req) ++ [Lit "."]
    else [Lit "Focus the analysis on recent and relevant data."] in
  let daysContent :=
    [Lit "The user is willing to spend "] ++ ToString (daysPerYear req)
    ++ [Lit " days per year ("; Interp (ToNumber (daysPerYear req) * Finite 24)%num;
        Lit " full hours) on political reasoning, research, and discussion."] in
  let categories :=
    match personalImpactContent with
    | Some _ =>
        "Statistical Impact, Social Relevance, Policy Impact Potential, and Personal Relevance"
    | None => "Statistical Impact, Social Relevance, and Policy Impact Potential"
    end in
  {| system_categories := categories;
     user_content :=
       [Lit ("Analyze the topic: " +:+ dquote)] ++ ToString (topic req)
       ++ [Lit (dquote +:+ " with the following considerations:" +:+ newline +:+ newline)]
       ++ default [Lit ""] personalImpactContent
       ++ [Lit newline] ++ biasPreferenceContent
       ++ [Lit newline] ++ yearContent
       ++ [Lit newline] ++ daysContent
       ++ [Lit (newline +:+ newline +:+ "Return structured output for each category.")] |}.

(** From the citation pass to [res.json] (lines 224 to 254);
    [response_data] is the sorted [response.data]. *)
Definition respond (req : Body) (response_data : list (Category string))
    (enhancedData : list (Category EnhancedFact)) : Reply :=
  let '(registry, enhancedData) := assign_citations new_registry enhancedData in
  let hours := calculateWeightsAndHours enhancedData (daysPerYear req) in
  let combinedSources := combinedSources registry in
  let analysisSummary := analysisSummary (totalHoursDescription hours) response_data in
  {| status := 200;
     body := [("weights", FWeights enhancedData);
              ("totalHours", FNumber (totalHours hours));
              ("totalHoursDescription", FText (totalHoursDescription hours));
              ("analysisContext", FText analysisSummary)] |}.

Definition bad_request : Reply :=
  {| status := 400; body := [("error", FText [Lit "Topic input is required."])] |}.

Definition server_error : Reply :=
  {| status := 500; body := [("error", FText [Lit "Failed to calculate topic weight."])] |}.

Definition calculate_weight (w : World) (sched : Schedule) (req : Body) : Async Reply :=
  try_catch
    (invalid ← await (topic_missing req);
     if invalid : bool then mret bad_request
     else
       relevant ← await (personally_relevant req);
       let prompt := prompt_of req relevant in
       _ ← issue [CallOpenAI prompt];
       completion ← await (settled (openai_parse w prompt));
       response_data ← await (first_parsed completion);
       let response_data := Array_sort compare_categories response_data in
       enhancedData ← enhanceData w (year req) sched response_data;
       mret (respond req response_data enhancedData))
    (mret server_error).

(** One request: the external calls it makes, in order, and its reply, if
    it ever replies. *)
Record Run := {
  calls : list Call;
  reply : option Reply;
}.

Definition handle (w : World) (sched : Schedule) (req : Body) : Run :=
  let '(log, o) := calculate_weight w sched req [] in
  {| calls := log;
     reply := match o with Fulfilled r => Some r | _ => None end |}.

(** The lookups of a fan-out, in the order they are requested. *)
Definition positions {F} (categories : list (Category F)) : Schedule :=
  concat (imap (fun ci c => imap (fun fi _ => (ci, fi)) (facts c)) categories).

(** Every lookup of the fan-out settles. *)
Definition complete {F} (sched : Schedule) (categories : list (Category F)) : Prop :=
  forall ci fi c f, categories !! ci = Some c -> facts c !! fi = Some f -> (ci, fi) ∈ sched.

(** ** The aggregator in the words of the specification (section 4.5) *)

Definition is_personal_relevance {F} (c : Category F) : bool :=
  String.eqb (category c) "Personal Relevance".

(** The weight of a category as a rational. *)
Definition weight_value {F} (c : Category F) : Q :=
  match weight c with
  | Finite q => q
  | _ => 0%Q
  end.

(** Weight: a number in [1,10]. *)
Definition weight_in_range {F} (c : Category F) : Prop :=
  exists q, weight c = Finite q /\ (1 <= q <= 10)%Q.

(** averageWeight = sum(category.weight for all categories) / count(categories) *)
Definition spec_averageWeight {F} (categories : list (Category F)) : Q :=
  (fold_right Qplus 0 (map weight_value categories)
   / inject_Z (Z.of_nat (length categories)))%Q.

(** relevanceModifier = 1 + (Personal Relevance weight / 10) if a Personal
    Relevance category is present with weight w, else 1; the last one in the
    sequence counts. *)
Definition spec_relevanceModifier {F} (categories : list (Category F)) : Q :=
  match last (filter (fun c => is_personal_relevance c = true) categories) with
  | Some c => (1 + weight_value c / 10)%Q
  | None => 1%Q
  end.

(** totalHours = round((averageWeight / 10) × (totalAvailableHours / 5) ×
    relevanceModifier), with totalAvailableHours = daysPerYear × 24: the
    formula over the rationals, no operation rounding. *)
Definition spec_totalHours {F} (categories : list (Category F)) (daysPerYear : Q) : Z :=
  round_half_up (spec_averageWeight categories / 10 * (daysPerYear * 24 / 5)
                 * spec_relevanceModifier categories).

(** The same formula with the operators of the language, each sum, product
    and quotient rounded to binary64: the sum of the weights is taken from 0
    in the order of the sequence. *)
Definition sum_of_weights {F} (categories : list (Category F)) : number :=
  fold_left Number_add (map weight categories) (Finite 0).

Definition binary64_averageWeight {F} (categories : list (Category F)) : number :=
  (sum_of_weights categories / of_nat (length categories))%num.

Definition binary64_relevanceModifier {F} (categories : list (Category F)) : number :=
  match last (filter (fun c => is_personal_relevance c = true) categories) with
  | Some c => (Finite 1 + weight c / Finite 10)%num
  | None => Finite 1
  end.

Definition binary64_totalHours {F} (categories : list (Category F)) (daysPerYear : number)
  : number :=
  Math_round ((binary64_averageWeight categories / Finite 10)
              * ((daysPerYear * Finite 24) / Finite 5)
              * binary64_relevanceModifier categories)%num.

(** A binary64 number: an infinity, NaN, or a rational that rounding keeps. *)
Definition is_binary64 (x : number) : Prop :=
  match x with
  | Finite r => binary64 r = Finite r
  | _ => True
  end.

(** The unit roundoff of binary64: 2^-53. *)
Definition unit_roundoff : Q := 1 # 9007199254740992.

(** [x] is [y] up to the relative error [e]. *)
Definition close (e x y : Q) : Prop := (y * (1 - e) <= x <= y * (1 + e))%Q.

(** A non-negative integer, or the positive infinity. *)
Definition integer_or_infinity (x : number) : Prop :=
  x = Infinite false \/ exists h : Z, 0 <= h /\ x = of_Z h.

(** The worked examples of the specification. *)
Definition example_categories : list (Category EnhancedFact) :=
  [ {| category := "Statistical Impact"; weight := Finite 8; facts := []; reasoning := "" |};
    {| category := "Social Relevance"; weight := Finite 6; facts := []; reasoning := "" |};
    {| category := "Policy Impact Potential"; weight := Finite 4; facts := [];
       reasoning := "" |} ].

Definition example_personal : Category EnhancedFact :=
  {| category := "Personal Relevance"; weight := Finite 5; facts := []; reasoning := "" |}.

(** ** What the fan-out yields *)

(** The sources [fetchRealSources] resolves to for a query. *)
Definition resolved_sources (w : World) (query : text) : list Source :=
  match axios_get w (fetchRealSources_params query) with
  | Some {| data := Some {| items := Some l |} |} => map source_of_item l
  | _ => []
  end.

Definition enhanced_fact (w : World) (year : value) (f : string) : EnhancedFact :=
  {| fact := f; sources := resolved_sources w (search_query year f) |}.

(** A category with the sources of each of its facts, in the order of the
    facts. *)
Definition enhanced (w : World) (year : value) (c : Category string) : Category EnhancedFact :=
  with_facts c (map (enhanced_fact w year) (facts c)).

(** The promises of a fan-out once the lookups of [seen] have settled. *)
Definition slots_after (w : World) (year : value) (seen : Position -> bool)
    (categories : list (Category string)) : Slots :=
  imap (fun ci c =>
          imap (fun fi f => if seen (ci, fi) then enhanceFact w year f else Pending) (facts c))
       categories.

(** ** Requests *)

(** A topic that is missing (absent or null), empty or made of white space
    only. *)
Definition topic_blank (req : Body) : Prop :=
  topic req = VUndefined \/ topic req = VNull
  \/ exists s, topic req = VStr s /\ all_white_space s.

(** A topic that is a string, not empty once trimmed. *)
Definition topic_given (req : Body) : Prop :=
  exists s, topic req = VStr s /\ trim s <> EmptyString.

(** The categories the handler works on when the generation call gives
    [response_data]. *)
Definition sorted_data (response_data : list (Category string)) : list (Category string) :=
  Array_sort compare_categories response_data.

(** The generation call succeeds with [response_data]. *)
Definition generates (w : World) (req : Body) (response_data : list (Category string)) : Prop :=
  exists relevant completion,
    personally_relevant req = Fulfilled relevant
    /\ openai_parse w (prompt_of req relevant) = Some completion
    /\ first_parsed completion = Fulfilled response_data.

(** ** Citations, as read off a reply *)

Definition linked (s : Source) : Prop := ToBoolean (link s) = true.

(** The number of sources with a link in a list. *)
Definition count_linked (l : list Source) : nat :=
  length (filter linked l).

(** The same search result, whatever the citation. *)
Definition same_result (s s' : Source) : Prop :=
  title s' = title s /\ link s' = link s /\ snippet s' = snippet s.

(** The same fact with the same results. *)
Definition same_fact (f f' : EnhancedFact) : Prop :=
  fact f' = fact f /\ Forall2 same_result (sources f) (sources f').

(** The same category with the same facts. *)
Definition same_category (c c' : Category EnhancedFact) : Prop :=
  category c' = category c /\ weight c' = weight c /\ reasoning c' = reasoning c
  /\ Forall2 same_fact (facts c) (facts c').

(** The [weights] of a reply. *)
Definition weights_of (r : Reply) : list (Category EnhancedFact) :=
  match get "weights" (body r) with
  | Some (FWeights l) => l
  | _ => []
  end.

(** Every lookup of the fan-out is in the schedule, as a test. *)
Definition covers {F} (sched : Schedule) (categories : list (Category F)) : bool :=
  forallb (fun p => bool_decide (p ∈ sched)) (positions categories).

(** The place of a name in the display order. *)
Definition display_index (name : string) : Z := indexOf sortOrder name.

(** Names in the display order. *)
Definition in_display_order (names : list string) : Prop :=
  StronglySorted (fun a b => display_index a <= display_index b) names.

(** ** A sample request and a sample outside *)

Definition sample_item (l : value) : Item :=
  {| item_title := VStr "t"; item_link := l; item_snippet := VStr "s" |}.

(** The categories of the sample answer, not in the display order. *)
Definition sample_data : list (Category string) :=
  [ {| category := "Policy Impact Potential"; weight := Finite 4; facts := ["p1"];
       reasoning := "rp" |};
    {| category := "Statistical Impact"; weight := Finite 8; facts := ["s1"; "s2"];
       reasoning := "rs" |};
    {| category := "Social Relevance"; weight := Finite 6; facts := ["r1"];
       reasoning := "rr" |} ].

(** The lookup of [s1] finds two pages, the one of [s2] fails, the one of
    [r1] finds a page with no link and the first page of [s1] again, and the
    answer for [p1] has no [items]. *)
Definition sample_world : World :=
  {| openai_parse := fun _ =>
       Some {| choices := Some [ {| message := Some {| parsed := Some sample_data |} |} ] |};
     axios_get := fun p =>
       match q p with
       | Lit f :: _ =>
           if String.eqb f "s1" then
             Some {| data := Some {| items := Some [sample_item (VStr "a");
                                                    sample_item (VStr "b")] |} |}
           else if String.eqb f "s2" then None
           else if String.eqb f "r1" then
             Some {| data := Some {| items := Some [sample_item VUndefined;
                                                    sample_item (VStr "a")] |} |}
           else Some {| data := Some {| items := None |} |}
       | _ => None
       end |}.

(** A request with a topic and ten days, and neither a year nor a personal
    impact. *)
Definition sample_request : Body :=
  {| topic := VStr " taxes "; personalImpact := VUndefined; biasPreference := VUndefined;
     year := VUndefined; daysPerYear := VNum (Finite 10) |}.

(** The same request without [daysPerYear]. *)
Definition sample_request_no_days : Body :=
  {| topic := VStr " taxes "; personalImpact := VUndefined; biasPreference := VUndefined;
     year := VUndefined; daysPerYear := VUndefined |}.

(** A request with a blank topic. *)
Definition blank_request : Body :=
  {| topic := VStr "   "; personalImpact := VUndefined; biasPreference := VUndefined;
     year := VUndefined; daysPerYear := VNum (Finite 10) |}.

(** Two orders in which the four lookups of the sample settle. *)
Definition sample_schedule : Schedule := [(0, 0); (0, 1); (1, 0); (2, 0)]%nat.
Definition sample_schedule' : Schedule := [(2, 0); (0, 1); (1, 0); (0, 0)]%nat.

(** ** The handler of [POST /chat] *)

(** An element of [conversation], by its [role] and its [content]. *)
Record ChatTurn := {
  role : value;
  content : value;
}.

(** [conversation] as the body has it: an array of turns, or a value that
    is not an array. *)
Inductive Conversation :=
  | NotArray (v : value)
  | TurnArray (turns : list ChatTurn).

Record ChatBody := {
  conversation : Conversation;
  analysisContext : value;
}.

(** A message of the chat request: the system message the handler writes,
    or a turn of the conversation as it came. *)
Inductive ChatMessage :=
  | SystemMessage (system_content : text)
  | Forwarded (turn : ChatTurn).

Record ChatReplyMessage := { reply_content : value }.
Record ChatChoice := { chat_message : option ChatReplyMessage }.
Record ChatAnswer := { chat_choices : option (list ChatChoice) }.

(** The status and the object given to [res.json] by the chat handler. *)
Record ChatResponse := {
  chat_status : nat;
  chat_body : list (string * value);
}.

(** One chat request: the messages of each completion call it makes, and
    its response. *)
Record ChatRun := {
  chat_calls : list (list ChatMessage);
  chat_response : ChatResponse;
}.

(** [!conversation] and [Array.isArray(conversation)] *)
Definition Conversation_truthy (c : Conversation) : bool :=
  match c with
  | NotArray v => ToBoolean v
  | TurnArray _ => true
  end.

Definition Array_isArray (c : Conversation) : bool :=
  match c with
  | NotArray _ => false
  | TurnArray _ => true
  end.

(** [...conversation]; only an array gets that far. *)
Definition spread (c : Conversation) : outcome (list ChatTurn) :=
  match c with
  | NotArray _ => Rejected
  | TurnArray turns => Fulfilled turns
  end.

(** The reply when the completion has no content: the literal of the source,
    byte for byte. Where an apostrophe is meant the file holds the three
    characters U+00E2, U+20AC and U+2122, kept here as their UTF-8 bytes
    c3 a2, e2 82 ac and e2 84 a2. *)
Definition apology : string := "Sorry, I couldnâ€™t process your question.".

(** [completion.choices[0]?.message?.content]; a completion without
    [choices] is a type error. *)
Definition first_content (completion : ChatAnswer) : outcome value :=
  choices ← settled (chat_choices completion);
  mret (match choices with
        | choice :: _ =>
            match chat_message choice with
            | Some m => reply_content m
            | None => VUndefined
            end
        | [] => VUndefined
        end).

Definition chat_messages (analysisContext : value) (turns : list ChatTurn) : list ChatMessage :=
  SystemMessage ([Lit "You are discussing the topic based on the following analysis: "]
                 ++ ToString analysisContext)
  :: map Forwarded turns.

(** [create] is the chat completion provider: [None] is a call that
    fails. *)
Definition chat (create : list ChatMessage -> option ChatAnswer) (req : ChatBody) : ChatRun :=
  if negb (Conversation_truthy (conversation req))
     || negb (Array_isArray (conversation req))
     || negb (ToBoolean (analysisContext req))
  then
    {| chat_calls := [];
       chat_response :=
         {| chat_status := 400;
            chat_body := [("error", VStr "Invalid conversation history or analysis context.")]
         |} |}
  else
    let messages : outcome (list ChatMessage) :=
      turns ← spread (conversation req);
      mret (chat_messages (analysisContext req) turns) in
    let failed :=
      {| chat_status := 500; chat_body := [("error", VStr "Failed to process the chat.")] |} in
    match messages with
    | Fulfilled messages =>
        {| chat_calls := [messages];
           chat_response :=
             match settled (create messages) ≫= first_content with
             | Fulfilled content =>
                 let reply := if ToBoolean content then content else VStr apology in
                 {| chat_status := 200; chat_body := [("reply", reply)] |}
             | _ => failed
             end |}
    | _ => {| chat_calls := []; chat_response := failed |}
    end.

(** ** More sample outsides *)

(** An outside whose generation call fails. *)
Definition silent_world : World :=
  {| openai_parse := fun _ => None; axios_get := axios_get sample_world |}.

(** The sample outside with a search provider that gives no more results
    than asked. *)
Definition bounded_world : World :=
  {| openai_parse := openai_parse sample_world;
     axios_get := fun p =>
       match axios_get sample_world p with
       | Some {| data := Some {| items := Some l |} |} =>
           Some {| data := Some {| items := Some (take (num p) l) |} |}
       | r => r
       end |}.

(** A request whose topic is a number. *)
Definition numeric_topic_request : Body :=
  {| topic := VNum (Finite 5); personalImpact := VUndefined; biasPreference := VUndefined;
     year := VUndefined; daysPerYear := VNum (Finite 10) |}.

(** A chat provider that answers with one choice of the given content. *)
Definition answering (v : value) : list ChatMessage -> option ChatAnswer :=
  fun _ => Some {| chat_choices := Some [ {| chat_message := Some {| reply_content := v |} |} ] |}.

Definition sample_chat : ChatBody :=
  {| conversation := TurnArray [ {| role := VStr "user"; content := VStr "why?" |} ];
     analysisContext := VStr "summary" |}.

(** A category whose weight has been raised, the name kept. *)
Definition raised {F} (c c' : Category F) : Prop :=
  category c = category c' /\ (weight_value c <= weight_value c')%Q.

(** Three categories whose weights are the binary64 numbers 1.1, 1.2 and
    9.2, in an order that is not the display order. *)
Definition unsorted_weights : list (Category string) :=
  [ {| category := "Social Relevance"; weight := binary64 (11 # 10); facts := [];
       reasoning := EmptyString |};
    {| category := "Policy Impact Potential"; weight := binary64 (12 # 10); facts := [];
       reasoning := EmptyString |};
    {| category := "Statistical Impact"; weight := binary64 (92 # 10); facts := [];
       reasoning := EmptyString |} ].
(** * Properties *)

(** ** Numbers *)

(** *** Powers of two *)

Lemma pow2_pos e : (0 < 2 ^ e)%Q.
Proof. by apply Qpower_0_lt. Qed.

Lemma pow2_plus a b : (2 ^ (a + b) == 2 ^ a * 2 ^ b)%Q.
Proof. by apply Qpower_plus. Qed.

Lemma pow2_succ a : (2 ^ (a + 1) == 2 * 2 ^ a)%Q.
Proof. rewrite pow2_plus. change (2 ^ 1)%Q with 2%Q. ring. Qed.

Lemma pow2_le a b : a <= b -> (2 ^ a <= 2 ^ b)%Q.
Proof. intros. by apply Qpower_le_compat_l. Qed.

Lemma pow2_lt a b : a < b -> (2 ^ a < 2 ^ b)%Q.
Proof. intros. by apply Qpower_lt_compat_l. Qed.

Lemma pow2_Z a : 0 <= a -> (2 ^ a == inject_Z (2 ^ a))%Q.
Proof. intros. by rewrite Zpower_Qpower. Qed.

(** *** The binade *)

Lemma binade_spec q : (0 < q)%Q -> (2 ^ binade q <= q < 2 ^ (binade q + 1))%Q.
Proof.
  intros Hq. destruct q as [n d].
  assert (0 < n) as Hn by (unfold Qlt in Hq; simpl in Hq; lia).
  pose proof (Z.log2_spec n Hn) as [Hn1 Hn2].
  pose proof (Z.log2_spec (Z.pos d) (Pos2Z.is_pos d)) as [Hd1 Hd2].
  pose proof (Z.log2_nonneg n) as Hln. pose proof (Z.log2_nonneg (Z.pos d)) as Hld.
  rewrite Zle_Qle in Hn1, Hd1. rewrite Zlt_Qlt in Hn2, Hd2.
  unfold Z.succ in *.
  rewrite <- !pow2_Z in Hn1, Hn2, Hd1, Hd2 by lia.
  rewrite pow2_succ in Hn2, Hd2.
  unfold binade. cbn [Qnum Qden].
  set (ln := Z.log2 n) in *. set (ld := Z.log2 (Z.pos d)) in *.
  assert (2 ^ (ln - ld) == 2 ^ ln / 2 ^ ld)%Q as Hk by by apply Qpower_minus.
  pose proof (pow2_pos ln) as HA. pose proof (pow2_pos ld) as HB.
  assert (n # d == inject_Z n / inject_Z (Z.pos d))%Q as Hq' by apply Qmake_Qdiv.
  assert (0 < inject_Z (Z.pos d))%Q as HD by (change 0%Q with (inject_Z 0); rewrite <- Zlt_Qlt; lia).
  set (N := inject_Z n) in *. set (D := inject_Z (Z.pos d)) in *.
  set (A := (2 ^ ln)%Q) in *. set (B := (2 ^ ld)%Q) in *.
  assert (A / B / 2 < N / D)%Q as Hlo.
  { assert (A * D < N * (2 * B))%Q by nra.
    apply Qlt_shift_div_l; [done|].
    assert (A / B / 2 * D == (A * D) / (2 * B))%Q as -> by (field; lra).
    apply Qlt_shift_div_r; [lra|done]. }
  assert (N / D < 2 * (A / B))%Q as Hhi.
  { assert (N * B < 2 * A * D)%Q by nra.
    apply Qlt_shift_div_r; [done|].
    assert (2 * (A / B) * D == (2 * A * D) / B)%Q as -> by (field; lra).
    apply Qlt_shift_div_l; [done|done]. }
  destruct (Qle_bool _ _) eqn:E.
  - apply Qle_bool_iff in E. split; [done|].
    rewrite pow2_succ, Hk, Hq'. done.
  - assert (~ (2 ^ (ln - ld) <= n # d)%Q) as E'
      by (rewrite <- Qle_bool_iff; congruence).
    apply Qnot_le_lt in E'.
    replace (ln - ld - 1 + 1) with (ln - ld) by lia. split; [|done].
    assert (2 ^ (ln - ld) == 2 * 2 ^ (ln - ld - 1))%Q as Hs.
    { rewrite <- pow2_succ. by replace (ln - ld - 1 + 1) with (ln - ld) by lia. }
    rewrite Hq'. rewrite Hk in Hs. set (X := (A / B)%Q) in *.
    unfold Qdiv in Hlo at 1. change (/ 2)%Q with (1 # 2)%Q in Hlo. lra.
Qed.

Lemma binade_unique q e : (2 ^ e <= q < 2 ^ (e + 1))%Q -> binade q = e.
Proof.
  intros [H1 H2].
  assert (0 < q)%Q as Hq by (pose proof (pow2_pos e); lra).
  destruct (binade_spec q Hq) as [H3 H4].
  destruct (Z.lt_trichotomy (binade q) e) as [Hlt|[Heq|Hgt]]; [|done|].
  - pose proof (pow2_le (binade q + 1) e ltac:(lia)). lra.
  - pose proof (pow2_le (e + 1) (binade q) ltac:(lia)). lra.
Qed.

Lemma binade_comp x y : (0 < x)%Q -> (x == y)%Q -> binade x = binade y.
Proof.
  intros Hx E. symmetry. apply binade_unique. rewrite <- E. by apply binade_spec.
Qed.

Lemma binade_le x y : (0 < x)%Q -> (x <= y)%Q -> binade x <= binade y.
Proof.
  intros Hx Hxy.
  destruct (binade_spec x Hx) as [H1 H2].
  destruct (binade_spec y ltac:(lra)) as [H3 H4].
  destruct (Z_le_gt_dec (binade x) (binade y)) as [|Hgt]; [done|].
  pose proof (pow2_le (binade y + 1) (binade x) ltac:(lia)). lra.
Qed.

(** *** Rounding to an integer *)

Lemma round_half_even_comp x y : (x == y)%Q -> round_half_even x = round_half_even y.
Proof.
  intros E. unfold round_half_even. rewrite (Qfloor_comp _ _ E).
  assert (x - inject_Z (Qfloor y) == y - inject_Z (Qfloor y))%Q as -> by by rewrite E.
  done.
Qed.

Lemma round_half_even_Z z : round_half_even (inject_Z z) = z.
Proof.
  unfold round_half_even. rewrite Qfloor_Z.
  destruct (Qcompare_spec (inject_Z z - inject_Z z) (1 # 2)); [lra|done|lra].
Qed.

Lemma round_half_even_bounds x :
  Qfloor x <= round_half_even x <= Qfloor x + 1.
Proof.
  unfold round_half_even. destruct (_ ?= _)%Q; [destruct (Z.even _)| |]; lia.
Qed.

Lemma round_half_even_le x y : (x <= y)%Q -> round_half_even x <= round_half_even y.
Proof.
  intros H. pose proof (Qfloor_resp_le x y H) as Hf.
  pose proof (round_half_even_bounds x). pose proof (round_half_even_bounds y).
  destruct (Z.eq_dec (Qfloor x) (Qfloor y)) as [E|E]; [|lia].
  unfold round_half_even. rewrite E.
  destruct (Qcompare_spec (x - inject_Z (Qfloor y)) (1 # 2)) as [Hx|Hx|Hx],
           (Qcompare_spec (y - inject_Z (Qfloor y)) (1 # 2)) as [Hy|Hy|Hy];
    try destruct (Z.even _); try lia; lra.
Qed.

(** *** Rounding to the grid *)

Lemma on_grid_le c x g :
  (x <= inject_Z g * 2 ^ c)%Q ->
  (inject_Z (round_half_even (x / 2 ^ c)) * 2 ^ c <= inject_Z g * 2 ^ c)%Q.
Proof.
  intros H. pose proof (pow2_pos c) as Hc.
  apply Qmult_le_compat_r; [|lra].
  rewrite <- Zle_Qle.
  assert (x / 2 ^ c <= inject_Z g)%Q as Hg by (apply Qle_shift_div_r; done).
  apply round_half_even_le in Hg. by rewrite round_half_even_Z in Hg.
Qed.

Lemma on_grid_ge c x g :
  (inject_Z g * 2 ^ c <= x)%Q ->
  (inject_Z g * 2 ^ c <= inject_Z (round_half_even (x / 2 ^ c)) * 2 ^ c)%Q.
Proof.
  intros H. pose proof (pow2_pos c) as Hc.
  apply Qmult_le_compat_r; [|lra].
  rewrite <- Zle_Qle.
  assert (inject_Z g <= x / 2 ^ c)%Q as Hg by (apply Qle_shift_div_l; done).
  apply round_half_even_le in Hg. by rewrite round_half_even_Z in Hg.
Qed.

Lemma pow2_on_grid c e : c <= e -> (2 ^ e == inject_Z (2 ^ (e - c)) * 2 ^ c)%Q.
Proof.
  intros H. rewrite <- pow2_Z by lia. rewrite <- pow2_plus. by replace (e - c + c) with e by lia.
Qed.

Lemma nearest_comp x y : (0 < x)%Q -> (x == y)%Q -> nearest x = nearest y.
Proof.
  intros Hx E. unfold nearest, exponent. rewrite (binade_comp x y Hx E).
  f_equal. f_equal. apply round_half_even_comp. by rewrite E.
Qed.

Lemma nearest_nonneg x : (0 < x)%Q -> (0 <= nearest x)%Q.
Proof.
  intros Hx. unfold nearest. pose proof (pow2_pos (exponent x)) as Hc.
  assert (0 == inject_Z 0 * 2 ^ exponent x)%Q as -> by ring.
  apply on_grid_ge. change (inject_Z 0) with 0%Q. lra.
Qed.

Lemma nearest_le x y : (0 < x)%Q -> (x <= y)%Q -> (nearest x <= nearest y)%Q.
Proof.
  intros Hx Hxy.
  pose proof (binade_le x y Hx Hxy) as He.
  destruct (binade_spec x Hx) as [Hx1 Hx2].
  destruct (binade_spec y ltac:(lra)) as [Hy1 Hy2].
  unfold nearest, exponent.
  set (ex := binade x) in *. set (ey := binade y) in *.
  destruct (Z.eq_dec (Z.max (ex - 52) (-1074)) (Z.max (ey - 52) (-1074))) as [E|E].
  - rewrite E. set (c := Z.max (ey - 52) _). pose proof (pow2_pos c) as Hc.
    apply Qmult_le_compat_r; [|lra]. rewrite <- Zle_Qle. apply round_half_even_le.
    apply Qmult_le_compat_r; [done|]. apply Qinv_le_0_compat. lra.
  - assert (ex < ey) as Hlt by lia.
    assert (Z.max (ey - 52) (-1074) = ey - 52) as Ey by lia. rewrite Ey.
    set (cx := Z.max (ex - 52) _) in *.
    assert (2 ^ (ex + 1) <= 2 ^ ey)%Q as Hp by (apply pow2_le; lia).
    apply Qle_trans with (2 ^ ey)%Q.
    + rewrite (pow2_on_grid cx ey) by lia. apply on_grid_le.
      rewrite <- pow2_on_grid by lia. lra.
    + rewrite (pow2_on_grid (ey - 52) ey) at 1 by lia. apply on_grid_ge.
      by rewrite <- pow2_on_grid by lia.
Qed.

Lemma nearest_on_grid x m :
  (0 < x)%Q -> (x == inject_Z m * 2 ^ exponent x)%Q -> (nearest x == x)%Q.
Proof.
  intros Hx E. unfold nearest. pose proof (pow2_pos (exponent x)) as Hc.
  assert (x / 2 ^ exponent x == inject_Z m)%Q as Hm.
  { rewrite E at 1. field. lra. }
  rewrite (round_half_even_comp _ _ Hm), round_half_even_Z. by rewrite <- E.
Qed.

(** Rounding twice is rounding once. *)
Lemma nearest_idempotent x : (0 < x)%Q -> (0 < nearest x)%Q -> (nearest (nearest x) == nearest x)%Q.
Proof.
  intros Hx Hn.
  destruct (binade_spec x Hx) as [Hx1 Hx2].
  destruct (binade_spec _ Hn) as [Hn1 Hn2].
  set (e := binade x) in *. set (c := exponent x).
  set (e' := binade (nearest x)) in *. set (c' := exponent (nearest x)).
  assert (c = Z.max (e - 52) (-1074)) as Ec by done.
  assert (c' = Z.max (e' - 52) (-1074)) as Ec' by done.
  set (m := round_half_even (x / 2 ^ c)).
  assert (nearest x = inject_Z m * 2 ^ c)%Q as En by done.
  destruct (Z_le_gt_dec c' c) as [Hle|Hgt].
  - apply (nearest_on_grid _ (m * 2 ^ (c - c'))); [done|]. fold c'.
    rewrite En at 1. rewrite inject_Z_mult, <- Qmult_assoc, <- pow2_on_grid by lia. done.
  - assert (nearest x <= 2 ^ Z.max (e + 1) c)%Q as Hu.
    { rewrite En, (pow2_on_grid c (Z.max (e + 1) c)) by lia. apply on_grid_le.
      rewrite <- pow2_on_grid by lia.
      pose proof (pow2_le (e + 1) (Z.max (e + 1) c) ltac:(lia)). lra. }
    assert (e' <= Z.max (e + 1) c) as He'.
    { destruct (Z_le_gt_dec e' (Z.max (e + 1) c)) as [|Hgt']; [done|].
      pose proof (pow2_lt (Z.max (e + 1) c) e' ltac:(lia)). lra. }
    assert (e' = e + 1) as Ee' by lia.
    apply (nearest_on_grid _ (2 ^ 52)); [done|]. fold c'.
    assert (c' = e' - 52) as -> by lia.
    replace 52 with (e' - (e' - 52)) at 1 by lia.
    rewrite <- pow2_on_grid by lia.
    assert (Z.max (e + 1) c = e') as Em by lia. rewrite Em in Hu. lra.
Qed.

Lemma Qred_inject_Z z : Qred (inject_Z z) = inject_Z z.
Proof.
  unfold Qred, inject_Z.
  pose proof (Z.ggcd_gcd z 1) as Hg. pose proof (Z.ggcd_correct_divisors z 1) as Hd.
  destruct (Z.ggcd z 1) as [g [aa bb]]. simpl in *.
  rewrite Z.gcd_1_r in Hg. subst g. destruct Hd as [-> Hb].
  assert (bb = 1) as -> by lia. f_equal. lia.
Qed.

Lemma binary64_comp x y : (x == y)%Q -> binary64 x = binary64 y.
Proof.
  intros E. unfold binary64. rewrite <- E.
  destruct (Qcompare_spec x 0) as [H|H|H]; [done| |].
  - assert (0 < - x)%Q as Hx by lra.
    assert (- x == - y)%Q as E' by by rewrite E.
    by rewrite (nearest_comp _ _ Hx E').
  - by rewrite (nearest_comp _ _ H E).
Qed.

Lemma binary64_0 : binary64 0 = Finite 0.
Proof. reflexivity. Qed.

(** What rounding a number that is not negative gives. *)
Lemma binary64_nonneg x :
  (0 <= x)%Q ->
  binary64 x = Infinite false \/ exists r, binary64 x = Finite r /\ (0 <= r)%Q.
Proof.
  intros Hx. unfold binary64.
  destruct (Qcompare_spec x 0) as [H|H|H]; [right; eexists; split; [done|lra]|lra|].
  destruct (Qle_bool _ _); [by left|]. right. eexists. split; [done|].
  rewrite Qred_correct. by apply nearest_nonneg.
Qed.

Lemma Number_le_Finite a b : Number_le (Finite a) (Finite b) = true <-> (a <= b)%Q.
Proof. simpl. destruct (Qlt_le_dec b a); split; try done; intros; lra. Qed.

Lemma binary64_le x y :
  (0 <= x)%Q -> (x <= y)%Q -> Number_le (binary64 x) (binary64 y) = true.
Proof.
  intros Hx Hxy. unfold binary64.
  destruct (Qcompare_spec x 0) as [H|H|H]; [|lra|].
  - destruct (Qcompare_spec y 0) as [H'|H'|H']; [apply Number_le_Finite; lra|lra|].
    destruct (Qle_bool _ _); [done|]. apply Number_le_Finite.
    rewrite Qred_correct. by apply nearest_nonneg.
  - destruct (Qcompare_spec y 0) as [H'|H'|H']; [lra|lra|].
    pose proof (nearest_le x y H Hxy) as Hn.
    destruct (Qle_bool (2 ^ 1024) (nearest x)) eqn:Ex.
    + apply Qle_bool_iff in Ex.
      assert (Qle_bool (2 ^ 1024) (nearest y) = true) as ->
        by (apply Qle_bool_iff; lra).
      done.
    + destruct (Qle_bool _ (nearest y)); [done|]. apply Number_le_Finite.
      by rewrite !Qred_correct.
Qed.

Lemma binary64_Z z : 0 <= z < 2 ^ 53 -> binary64 (inject_Z z) = Finite (inject_Z z).
Proof.
  intros [Hz Hz']. destruct (Z.eq_dec z 0) as [->|Hne]; [done|].
  assert (0 < z) as Hpos by lia.
  assert (0 < inject_Z z)%Q as Hq by (change 0%Q with (inject_Z 0); rewrite <- Zlt_Qlt; lia).
  unfold binary64. destruct (Qcompare_spec (inject_Z z) 0) as [H|H|H]; [lra|lra|].
  pose proof (Z.log2_spec z Hpos) as [H1 H2]. pose proof (Z.log2_nonneg z) as Hl.
  assert (Z.log2 z < 53) as Hl' by (apply Z.log2_lt_pow2; lia).
  assert (binade (inject_Z z) = Z.log2 z) as Eb.
  { apply binade_unique. rewrite !pow2_Z by lia. rewrite <- Zle_Qle, <- Zlt_Qlt. done. }
  assert (exponent (inject_Z z) = Z.log2 z - 52) as Ee by (unfold exponent; lia).
  assert (nearest (inject_Z z) == inject_Z z)%Q as En.
  { apply (nearest_on_grid _ (z * 2 ^ (52 - Z.log2 z))); [done|].
    rewrite Ee, inject_Z_mult, <- Qmult_assoc, <- pow2_Z, <- pow2_plus by lia.
    replace (52 - Z.log2 z + (Z.log2 z - 52)) with 0 by lia. change (2 ^ 0)%Q with 1%Q. ring. }
  assert (Qle_bool (2 ^ 1024) (nearest (inject_Z z)) = false) as ->.
  { apply not_true_is_false. rewrite Qle_bool_iff, En. apply Qlt_not_le.
    apply Qlt_le_trans with (2 ^ 53)%Q; [|by apply pow2_le].
    rewrite pow2_Z by lia. by rewrite <- Zlt_Qlt. }
  f_equal. rewrite (Qred_complete _ _ En). apply Qred_inject_Z.
Qed.

(** A binary64 number rounds to itself. *)
Lemma binary64_idempotent x r : binary64 x = Finite r -> binary64 r = Finite r.
Proof.
  assert (forall y, (0 < y)%Q -> Qle_bool (2 ^ 1024) (nearest y) = false ->
            binary64 (Qred (nearest y)) = Finite (Qred (nearest y))
            /\ binary64 (Qred (- nearest y)) = Finite (Qred (- nearest y))) as Hpos.
  { intros y H Eo. pose proof (nearest_nonneg y H) as Hn.
    destruct (Qeq_dec (nearest y) 0) as [E0|E0].
    - assert (- nearest y == 0)%Q as E0' by lra.
      rewrite (Qred_complete _ _ E0), (Qred_complete _ _ E0'). done.
    - assert (0 < nearest y)%Q as Hp
        by (apply Qle_lteq in Hn as [?|E]; [done|by symmetry in E]).
      pose proof (nearest_idempotent y H Hp) as Hi.
      unfold binary64. split.
      + destruct (Qcompare_spec (Qred (nearest y)) 0) as [H'|H'|H'];
          rewrite Qred_correct in H'; [lra|lra|].
        assert (nearest (Qred (nearest y)) = nearest (nearest y)) as ->.
        { apply nearest_comp; [by rewrite Qred_correct|apply Qred_correct]. }
        rewrite (Qleb_comp _ _ (reflexivity _) _ _ Hi), Eo.
        f_equal. by apply Qred_complete.
      + destruct (Qcompare_spec (Qred (- nearest y)) 0) as [H'|H'|H'];
          rewrite Qred_correct in H'; [lra| |lra].
        assert (nearest (- Qred (- nearest y)) = nearest (nearest y)) as ->.
        { apply nearest_comp; rewrite Qred_correct; [lra|ring]. }
        rewrite (Qleb_comp _ _ (reflexivity _) _ _ Hi), Eo.
        f_equal. apply Qred_complete. by rewrite Hi. }
  unfold binary64 at 1.
  destruct (Qcompare_spec x 0) as [H|H|H]; [by intros [= <-]| |].
  - destruct (Qle_bool (2 ^ 1024) (nearest (- x))) eqn:Eo; [done|]. intros [= <-].
    apply Hpos; [lra|done].
  - destruct (Qle_bool (2 ^ 1024) (nearest x)) eqn:Eo; [done|]. intros [= <-].
    by apply Hpos.
Qed.

Lemma binary64_is_binary64 q : is_binary64 (binary64 q).
Proof.
  unfold is_binary64. destruct (binary64 q) as [r| |] eqn:E; [|done|done].
  by apply binary64_idempotent in E.
Qed.

Lemma Number_mul_is_binary64 x y : is_binary64 (x * y).
Proof.
  destruct x as [a|[]|], y as [b|[]|]; simpl; try done;
    try apply binary64_is_binary64; by destruct (Q_is_zero _).
Qed.

Lemma Number_div_is_binary64 x y : is_binary64 (x / y).
Proof.
  destruct x as [a|[]|], y as [b|[]|]; simpl; try done.
  destruct (Q_is_zero b); [by destruct (Q_is_zero a)|apply binary64_is_binary64].
Qed.

(** A binary64 number is kept by the product with 1. *)
Lemma Number_mul_1 x :
  is_binary64 x -> (Finite 1 * x)%num = x /\ (x * Finite 1)%num = x.
Proof.
  destruct x as [r|[]|]; simpl; try done. intros Hr.
  assert (1 * r == r)%Q as E1 by ring. assert (r * 1 == r)%Q as E2 by ring.
  by rewrite (binary64_comp _ _ E1), (binary64_comp _ _ E2).
Qed.

(** *** The error of a rounding *)

Lemma round_half_even_error y :
  (y - (1 # 2) <= inject_Z (round_half_even y) <= y + (1 # 2))%Q.
Proof.
  pose proof (Qfloor_le y) as Hf. pose proof (Qlt_floor y) as Hc.
  rewrite inject_Z_plus in Hc. change (inject_Z 1) with 1%Q in Hc.
  unfold round_half_even.
  destruct (Qcompare_spec (y - inject_Z (Qfloor y)) (1 # 2)) as [H|H|H];
    [destruct (Z.even _)| |]; rewrite ?inject_Z_plus; change (inject_Z 1) with 1%Q; lra.
Qed.

Lemma nearest_error x :
  (0 < x)%Q -> -1022 <= binade x ->
  (x * (1 - unit_roundoff) <= nearest x <= x * (1 + unit_roundoff))%Q.
Proof.
  intros Hx He. destruct (binade_spec x Hx) as [H1 _].
  unfold nearest, exponent. rewrite Z.max_l by lia.
  set (e := binade x) in *. pose proof (pow2_pos (e - 52)) as Hc.
  pose proof (round_half_even_error (x / 2 ^ (e - 52))) as [Hlo Hhi].
  set (m := inject_Z (round_half_even _)) in *.
  assert (x / 2 ^ (e - 52) * 2 ^ (e - 52) == x)%Q as Hy by (field; lra).
  assert (2 ^ e == 2 ^ (e - 52) * 2 ^ 52)%Q as Hp.
  { rewrite <- pow2_plus. by replace (e - 52 + 52) with e by lia. }
  change (2 ^ 52)%Q with (4503599627370496 # 1)%Q in Hp.
  unfold unit_roundoff.
  set (y := (x / 2 ^ (e - 52))%Q) in *. set (p := (2 ^ (e - 52))%Q) in *.
  assert (4503599627370496 <= y)%Q as Hy'.
  { apply Qmult_le_r with p; [done|]. rewrite Hy. lra. }
  rewrite <- Hy. split.
  - assert (y * p * (1 - (1 # 9007199254740992)) == (y - y * (1 # 9007199254740992)) * p)%Q
      as -> by ring.
    apply Qmult_le_compat_r; lra.
  - assert (y * p * (1 + (1 # 9007199254740992)) == (y + y * (1 # 9007199254740992)) * p)%Q
      as -> by ring.
    apply Qmult_le_compat_r; lra.
Qed.

(** In the range of the normal numbers a rounding is off by the unit
    roundoff at most, relatively. *)
Lemma binary64_error x :
  (2 ^ (-1022) <= x)%Q -> (x <= 2 ^ 1023)%Q ->
  exists r, binary64 x = Finite r /\ close unit_roundoff r x.
Proof.
  intros Hlo Hhi. pose proof (pow2_pos (-1022)) as Hp.
  assert (0 < x)%Q as Hx by lra.
  assert (-1022 <= binade x) as He.
  { rewrite <- (binade_unique (2 ^ (-1022)) (-1022)).
    - by apply binade_le.
    - split; [lra|]. by apply pow2_lt. }
  pose proof (nearest_error x Hx He) as [H1 H2].
  unfold binary64. destruct (Qcompare_spec x 0) as [H|H|H]; [lra|lra|].
  assert (Qle_bool (2 ^ 1024) (nearest x) = false) as ->.
  { apply not_true_is_false. rewrite Qle_bool_iff. apply Qlt_not_le.
    assert (2 ^ 1024 == 2 * 2 ^ 1023)%Q as -> by (rewrite <- pow2_succ; done).
    unfold unit_roundoff in H2. pose proof (pow2_pos 1023). nra. }
  eexists. split; [done|]. unfold close. by rewrite Qred_correct.
Qed.

Lemma close_refl x : close 0 x x.
Proof. unfold close. lra. Qed.

Lemma close_weaken e e' x y : (0 <= y)%Q -> (e <= e')%Q -> close e x y -> close e' x y.
Proof. unfold close. intros Hy He [H1 H2]. nra. Qed.

Lemma close_add e x y w : (0 <= e)%Q -> (0 <= w)%Q -> close e x y -> close e (x + w) (y + w).
Proof. unfold close. intros He Hw [H1 H2]. nra. Qed.

Lemma close_div e x y c : (0 < c)%Q -> close e x y -> close e (x / c) (y / c).
Proof.
  unfold close. intros Hc [H1 H2].
  assert (0 < / c)%Q as Hi by by apply Qinv_lt_0_compat.
  unfold Qdiv. set (i := (/ c)%Q) in *. nra.
Qed.

Lemma close_mul e1 e2 x1 x2 y1 y2 :
  (0 <= e1 <= 1)%Q -> (0 <= e2 <= 1)%Q -> (0 <= y1)%Q -> (0 <= y2)%Q ->
  close e1 x1 y1 -> close e2 x2 y2 -> close (e1 + 2 * e2) (x1 * x2) (y1 * y2).
Proof.
  unfold close. intros He1 He2 Hy1 Hy2 [H1 H1'] [H2 H2'].
  assert (0 <= y1 * y2)%Q as Hy by nra.
  assert (0 <= y1 * (1 - e1))%Q by nra. assert (0 <= y2 * (1 - e2))%Q by nra.
  assert (1 - (e1 + 2 * e2) <= (1 - e1) * (1 - e2))%Q as Hlo by nra.
  assert ((1 + e1) * (1 + e2) <= 1 + (e1 + 2 * e2))%Q as Hhi by nra.
  split.
  - apply Qle_trans with (y1 * (1 - e1) * (y2 * (1 - e2)))%Q.
    + assert (y1 * (1 - e1) * (y2 * (1 - e2)) == y1 * y2 * ((1 - e1) * (1 - e2)))%Q as ->
        by ring.
      set (Y := (y1 * y2)%Q) in *. rewrite !(Qmult_comm Y).
      by apply Qmult_le_compat_r.
    + apply Qmult_le_compat_nonneg; split; lra.
  - apply Qle_trans with (y1 * (1 + e1) * (y2 * (1 + e2)))%Q.
    + apply Qmult_le_compat_nonneg; split; lra.
    + assert (y1 * (1 + e1) * (y2 * (1 + e2)) == y1 * y2 * ((1 + e1) * (1 + e2)))%Q as ->
        by ring.
      set (Y := (y1 * y2)%Q) in *. rewrite !(Qmult_comm Y).
      by apply Qmult_le_compat_r.
Qed.

(** The quantities of the formula stay far from the ends of the range. *)
Lemma normal_range x :
  (1 # 2000000000000 <= x <= 2000000000000)%Q ->
  (2 ^ (-1022) <= x)%Q /\ (x <= 2 ^ 1023)%Q.
Proof.
  intros [H1 H2].
  pose proof (pow2_le (-1022) (-41) ltac:(lia)) as Hlo.
  pose proof (pow2_le 41 1023 ltac:(lia)) as Hhi.
  change (2 ^ (-41))%Q with (1 # 2199023255552)%Q in Hlo.
  change (2 ^ 41)%Q with (2199023255552 # 1)%Q in Hhi.
  set (a := (2 ^ (-1022))%Q) in *. set (b := (2 ^ 1023)%Q) in *. lra.
Qed.

(** Rounding a value that is close to [y] gives a value close to [y]. *)
Lemma binary64_close e x y :
  (1 # 1000000000000 <= y <= 1000000000000)%Q -> (0 <= e <= 1 # 2)%Q ->
  close e x y ->
  exists r, binary64 x = Finite r /\ close (e + 2 * unit_roundoff) r y.
Proof.
  intros Hy He [H1 H2].
  destruct (normal_range x) as [Hlo Hhi]; [split; nra|].
  destruct (binary64_error x Hlo Hhi) as (r & Er & Hr1 & Hr2).
  exists r. split; [done|]. unfold close, unit_roundoff in *.
  set (u := (1 # 9007199254740992)%Q) in *.
  assert (0 < u)%Q as Hu by reflexivity. assert (u <= 1)%Q as Hu' by discriminate.
  assert (0 <= y)%Q by lra.
  assert (0 <= x)%Q by nra.
  split.
  - apply Qle_trans with (x * (1 - u))%Q; [|done].
    apply Qle_trans with (y * (1 - e) * (1 - u))%Q.
    + assert (y * (1 - e) * (1 - u) == y * ((1 - e) * (1 - u)))%Q as -> by ring.
      assert (1 - (e + 2 * u) <= (1 - e) * (1 - u))%Q by nra.
      rewrite !(Qmult_comm y). by apply Qmult_le_compat_r.
    + apply Qmult_le_compat_r; lra.
  - apply Qle_trans with (x * (1 + u))%Q; [done|].
    apply Qle_trans with (y * (1 + e) * (1 + u))%Q.
    + apply Qmult_le_compat_r; lra.
    + assert (y * (1 + e) * (1 + u) == y * ((1 + e) * (1 + u)))%Q as -> by ring.
      assert ((1 + e) * (1 + u) <= 1 + (e + 2 * u))%Q by nra.
      rewrite !(Qmult_comm y). by apply Qmult_le_compat_r.
Qed.
(** ** Walks with a state *)

Lemma map_accum_fst {S A B} (f : S -> A -> S * B) s l :
  (map_accum f s l).1 = fold_left (fun s a => (f s a).1) l s.
Proof.
  revert s. induction l as [|a l IH]; intros s; simpl; [done|].
  destruct (f s a) as [s1 b] eqn:E. specialize (IH s1).
  destruct (map_accum f s1 l) as [s2 bs]. simpl in *. done.
Qed.

Lemma map_accum_cons {S A B} (f : S -> A -> S * B) s a l :
  map_accum f s (a :: l) =
  ((map_accum f (f s a).1 l).1, (f s a).2 :: (map_accum f (f s a).1 l).2).
Proof.
  simpl. destruct (f s a) as [s1 b]. simpl. by destruct (map_accum f s1 l).
Qed.

Lemma map_accum_app {S A B} (f : S -> A -> S * B) s l1 l2 :
  map_accum f s (l1 ++ l2) =
  ((map_accum f (map_accum f s l1).1 l2).1,
   (map_accum f s l1).2 ++ (map_accum f (map_accum f s l1).1 l2).2).
Proof.
  revert s. induction l1 as [|a l1 IH]; intros s.
  - simpl. by destruct (map_accum f s l2).
  - rewrite <- app_comm_cons, !map_accum_cons, IH. done.
Qed.

Lemma map_accum_length {S A B} (f : S -> A -> S * B) s l :
  length (map_accum f s l).2 = length l.
Proof.
  revert s. induction l as [|a l IH]; intros s; [done|].
  rewrite map_accum_cons. simpl. by rewrite IH.
Qed.

(** *** The operators on numbers that are not negative *)

Lemma Number_le_nonneg x :
  Number_le (Finite 0) x = true ->
  x = Infinite false \/ exists r, x = Finite r /\ (0 <= r)%Q.
Proof.
  destruct x as [r|[]|]; try done; [|by left].
  rewrite Number_le_Finite. right. by exists r.
Qed.

Lemma Number_le_refl x : Number_le (Finite 0) x = true -> Number_le x x = true.
Proof.
  intros [->|(r & -> & _)]%Number_le_nonneg; [done|]. apply Number_le_Finite. lra.
Qed.

Lemma Number_le_trans x y z :
  Number_le x y = true -> Number_le y z = true -> Number_le x z = true.
Proof.
  destruct x as [a|[]|], y as [b|[]|], z as [c|[]|]; try done.
  rewrite !Number_le_Finite. lra.
Qed.

Lemma binary64_not_negative x : (0 <= x)%Q -> Number_le (Finite 0) (binary64 x) = true.
Proof. intros. rewrite <- binary64_0. apply binary64_le; lra. Qed.

Lemma Q_is_zero_false q : (0 < q)%Q -> Q_is_zero q = false.
Proof. unfold Q_is_zero, Qlt. simpl. intros. apply Z.eqb_neq. lia. Qed.

Lemma Q_is_negative_false q : (0 <= q)%Q -> Q_is_negative q = false.
Proof. unfold Q_is_negative, Qle. simpl. intros. apply Z.ltb_ge. lia. Qed.

Lemma Number_add_le x x' y y' :
  Number_le (Finite 0) x = true -> Number_le x x' = true ->
  Number_le (Finite 0) y = true -> Number_le y y' = true ->
  Number_le (Finite 0) (x + y) = true /\ Number_le (x + y) (x' + y') = true.
Proof.
  intros [->|(a & -> & Ha)]%Number_le_nonneg Hx [->|(b & -> & Hb)]%Number_le_nonneg Hy;
    destruct x' as [a'|[]|], y' as [b'|[]|]; try done.
  all: try apply Number_le_Finite in Hx; try apply Number_le_Finite in Hy; simpl.
  all: try (split; [apply binary64_not_negative|]; try lra).
  - apply binary64_le; lra.
  - destruct (binary64_nonneg (a + b) ltac:(lra)) as [->|(r & -> & _)]; done.
  - destruct (binary64_nonneg (a + b) ltac:(lra)) as [->|(r & -> & _)]; done.
  - destruct (binary64_nonneg (a + b) ltac:(lra)) as [->|(r & -> & _)]; done.
Qed.

(** The product by a positive number. *)
Lemma Number_mul_le a a' x x' :
  (0 < a)%Q -> (a <= a')%Q ->
  Number_le (Finite 0) x = true -> Number_le x x' = true ->
  Number_le (Finite 0) (Finite a * x) = true
  /\ Number_le (Finite a * x) (Finite a' * x') = true
  /\ Number_le (Finite 0) (x * Finite a) = true
  /\ Number_le (x * Finite a) (x' * Finite a') = true.
Proof.
  intros Ha Ha' [->|(b & -> & Hb)]%Number_le_nonneg Hx; destruct x' as [b'|[]|]; try done;
    simpl; rewrite ?(Q_is_zero_false a), ?(Q_is_zero_false a'),
             ?(Q_is_negative_false a), ?(Q_is_negative_false a') by lra; try done.
  - apply Number_le_Finite in Hx.
    repeat split; try (apply binary64_not_negative; nra); apply binary64_le; nra.
  - repeat split; try (apply binary64_not_negative; nra).
    + destruct (binary64_nonneg (a * b) ltac:(nra)) as [->|(r & -> & _)]; done.
    + destruct (binary64_nonneg (b * a) ltac:(nra)) as [->|(r & -> & _)]; done.
Qed.

(** The quotient by a positive number. *)
Lemma Number_div_le b x x' :
  (0 < b)%Q ->
  Number_le (Finite 0) x = true -> Number_le x x' = true ->
  Number_le (Finite 0) (x / Finite b) = true
  /\ Number_le (x / Finite b) (x' / Finite b) = true.
Proof.
  intros Hb [->|(a & -> & Ha)]%Number_le_nonneg Hx; destruct x' as [a'|[]|]; try done;
    simpl; rewrite ?(Q_is_zero_false b), ?(Q_is_negative_false b) by lra; try done.
  - apply Number_le_Finite in Hx.
    assert (0 <= a / b)%Q by (apply Qle_shift_div_l; lra).
    split; [by apply binary64_not_negative|]. apply binary64_le; [done|].
    apply Qmult_le_compat_r; [done|]. apply Qinv_le_0_compat. lra.
  - assert (0 <= a / b)%Q by (apply Qle_shift_div_l; lra).
    split; [by apply binary64_not_negative|].
    destruct (binary64_nonneg (a / b) ltac:(done)) as [->|(r & -> & _)]; done.
Qed.

Lemma Math_round_le x x' :
  Number_le (Finite 0) x = true -> Number_le x x' = true ->
  integer_or_infinity (Math_round x) /\ Number_le (Math_round x) (Math_round x') = true.
Proof.
  intros [->|(a & -> & Ha)]%Number_le_nonneg Hx; destruct x' as [a'|[]|]; try done; simpl.
  - split; [by left|done].
  - apply Number_le_Finite in Hx. split.
    + right. exists (round_half_up a). split; [|done].
      change 0 with (Qfloor 0). apply Qfloor_resp_le. lra.
    + apply Number_le_Finite. rewrite <- Zle_Qle. apply Qfloor_resp_le. lra.
  - split; [|done]. right. exists (round_half_up a). split; [|done].
    change 0 with (Qfloor 0). apply Qfloor_resp_le. lra.
Qed.

Lemma Number_le_gt x y : Number_le x y = true -> Number_gt x y = false.
Proof.
  destruct x as [a|[]|], y as [b|[]|]; try done. simpl.
  by destruct (Qlt_le_dec b a).
Qed.


(** The constants of the formula. *)
Lemma binary64_tenth : binary64 (1 / 10) = Finite (3602879701896397 # 36028797018963968).
Proof. vm_compute. reflexivity. Qed.

Lemma binary64_ten_tenths : binary64 (10 / 10) = Finite 1.
Proof. vm_compute. reflexivity. Qed.

Lemma binary64_one_and_a_tenth :
  binary64 (1 + (3602879701896397 # 36028797018963968))
  = Finite (2476979795053773 # 2251799813685248).
Proof. vm_compute. reflexivity. Qed.

Lemma binary64_two : binary64 (1 + 1) = Finite 2.
Proof. vm_compute. reflexivity. Qed.

(** The result of the formula, from its three factors. *)
Lemma product_le a a' m m' x x' :
  (0 < a)%Q -> (a <= a')%Q -> (0 < m)%Q -> (m <= m')%Q ->
  Number_le (Finite 0) x = true -> Number_le x x' = true ->
  integer_or_infinity (Math_round (Finite a * x * Finite m))
  /\ Number_le (Math_round (Finite a * x * Finite m))
               (Math_round (Finite a' * x' * Finite m')) = true.
Proof.
  intros Ha Ha' Hm Hm' Hx Hxx'.
  destruct (Number_mul_le a a' x x' Ha Ha' Hx Hxx') as (H1 & H2 & _).
  destruct (Number_mul_le m m' _ _ Hm Hm' H1 H2) as (_ & _ & H3 & H4).
  by apply Math_round_le.
Qed.

(** ** The aggregator *)

Section Aggregator.
Context {F : Type}.
Implicit Types (categories : list (Category F)) (c : Category F).

Lemma weight_in_range_value c :
  weight_in_range c -> weight c = Finite (weight_value c) /\ (1 <= weight_value c <= 10)%Q.
Proof. intros (q & E & H). unfold weight_value. rewrite E. done. Qed.

Lemma last_personal_relevance_cons c categories :
  last (filter (fun c => is_personal_relevance c = true) (c :: categories)) =
  match last (filter (fun c => is_personal_relevance c = true) categories) with
  | Some c' => Some c'
  | None => if is_personal_relevance c then Some c else None
  end.
Proof.
  rewrite filter_cons. destruct (decide (is_personal_relevance c = true)) as [E|E].
  - rewrite last_cons, E. done.
  - apply not_true_is_false in E. rewrite E. by destruct (last _).
Qed.

(** What the walk of [calculateWeightsAndHours] leaves in [totalWeight] and
    in [relevanceModifier]: the two variables, each on its own. *)
Lemma accumulate_category_state categories tw rm :
  (map_accum accumulate_category (tw, rm) categories).1
  = (fold_left Number_add (map weight categories) tw,
     match last (filter (fun c => is_personal_relevance c = true) categories) with
     | Some c => (Finite 1 + weight c / Finite 10)%num
     | None => rm
     end).
Proof.
  revert tw rm. induction categories as [|c categories IH]; intros tw rm; [done|].
  rewrite map_accum_cons. cbn [accumulate_category fst fold_left map].
  fold (is_personal_relevance c).
  rewrite IH, last_personal_relevance_cons. f_equal.
  destruct (last _); [done|]. by destruct (is_personal_relevance c).
Qed.

(** The code computes the formula, every operation rounding. *)
Lemma totalHours_formula categories daysPerYear :
  totalHours (calculateWeightsAndHours categories daysPerYear)
  = binary64_totalHours categories (ToNumber daysPerYear).
Proof.
  unfold calculateWeightsAndHours.
  pose proof (accumulate_category_state categories (Finite 0) (Finite 1)) as H.
  destruct (map_accum accumulate_category _ categories) as [[tw rm] enriched].
  simpl in H. injection H as -> ->. reflexivity.
Qed.

(** The sum of [n] weights in [1,10] is between [n] and [10 n]: up to 2^32
    terms every bound is a binary64 number. *)
Lemma sum_of_weights_walk categories (k : Z) (s : Q) :
  Forall weight_in_range categories ->
  0 <= k -> k + Z.of_nat (length categories) <= 2 ^ 32 ->
  (inject_Z k <= s <= 10 * inject_Z k)%Q ->
  exists s',
    fold_left Number_add (map weight categories) (Finite s) = Finite s'
    /\ (inject_Z (k + Z.of_nat (length categories)) <= s'
        <= 10 * inject_Z (k + Z.of_nat (length categories)))%Q.
Proof.
  intros H. revert k s. induction H as [|c categories Hc _ IH]; intros k s Hk Hn Hs.
  - exists s. simpl. by rewrite Z.add_0_r.
  - apply weight_in_range_value in Hc as [Ec Hc]. simpl length in *.
    cbn [map fold_left]. rewrite Ec. cbn [Number_add].
    assert (exists s1, binary64 (s + weight_value c) = Finite s1
                       /\ (inject_Z (k + 1) <= s1 <= 10 * inject_Z (k + 1))%Q)
      as (s1 & -> & Hs1).
    { rewrite !inject_Z_plus in *. change (inject_Z 1) with 1%Q.
      pose proof (binary64_le (inject_Z (k + 1)) (s + weight_value c)) as Hlo.
      pose proof (binary64_le (s + weight_value c) (inject_Z (10 * (k + 1)))) as Hhi.
      rewrite binary64_Z in Hlo, Hhi by lia.
      rewrite inject_Z_mult, !inject_Z_plus in *.
      change (inject_Z 1) with 1%Q in *. change (inject_Z 10) with 10%Q in *.
      assert (0 <= inject_Z k)%Q by (change 0%Q with (inject_Z 0); rewrite <- Zle_Qle; lia).
      specialize (Hlo ltac:(lra) ltac:(lra)). specialize (Hhi ltac:(lra) ltac:(lra)).
      destruct (binary64 (s + weight_value c)) as [s1|[]|]; try done.
      apply Number_le_Finite in Hlo, Hhi. exists s1. split; [done|lra]. }
    destruct (IH (k + 1) s1 ltac:(lia) ltac:(lia) Hs1) as (s' & -> & Hs').
    exists s'. split; [done|].
    by replace (k + Z.of_nat (S (length categories)))
      with (k + 1 + Z.of_nat (length categories)) by lia.
Qed.

Lemma binary64_between (lo hi lo' hi' x : Q) :
  binary64 lo = Finite lo' -> binary64 hi = Finite hi' ->
  (0 <= lo)%Q -> (lo <= x <= hi)%Q ->
  exists r, binary64 x = Finite r /\ (lo' <= r <= hi')%Q.
Proof.
  intros Hlo Hhi H0 [H1 H2].
  pose proof (binary64_le lo x H0 H1) as Hl.
  pose proof (binary64_le x hi ltac:(lra) H2) as Hh.
  rewrite Hlo in Hl. rewrite Hhi in Hh.
  destruct (binary64 x) as [r|[]|]; try done.
  apply Number_le_Finite in Hl, Hh. by exists r.
Qed.

Lemma binary64_averageWeight_bounds categories :
  categories <> [] -> Z.of_nat (length categories) <= 2 ^ 32 ->
  Forall weight_in_range categories ->
  exists a, binary64_averageWeight categories = Finite a /\ (1 <= a <= 10)%Q.
Proof.
  intros Hne Hn H.
  destruct (sum_of_weights_walk categories 0 0 H) as (s & Es & Hs); [done|lia|done|].
  unfold binary64_averageWeight, sum_of_weights. rewrite Es. simpl in Hs.
  assert (1 <= inject_Z (Z.of_nat (length categories)))%Q as Hlen.
  { change 1%Q with (inject_Z 1). rewrite <- Zle_Qle. destruct categories; [done|].
    simpl length. lia. }
  unfold of_nat, of_Z. cbn [Number_div]. rewrite Q_is_zero_false by lra.
  set (n := inject_Z _) in *.
  apply (binary64_between 1 10); [done|done|lra|]. split.
  - apply Qle_shift_div_l; lra.
  - apply Qle_shift_div_r; lra.
Qed.

(** The first factor of the formula: the average over 10. *)
Lemma binary64_averageWeight_tenth categories :
  categories <> [] -> Z.of_nat (length categories) <= 2 ^ 32 ->
  Forall weight_in_range categories ->
  exists a, (binary64_averageWeight categories / Finite 10)%num = Finite a
            /\ (1 # 10 <= a <= 1)%Q
            /\ Number_le (Finite 1 / Finite 10) (Finite a) = true.
Proof.
  intros Hne Hn H.
  destruct (binary64_averageWeight_bounds categories Hne Hn H) as (a & -> & Ha).
  cbn [Number_div]. change (Q_is_zero 10) with false. cbv iota.
  destruct (binary64_between (1 / 10) (10 / 10) _ _ (a / 10)
              binary64_tenth binary64_ten_tenths) as (r & -> & Hr).
  - discriminate.
  - unfold Qdiv. change (/ 10)%Q with (1 # 10)%Q. lra.
  - exists r. split; [done|]. split; [lra|].
    change (Finite 1 / Finite 10)%num with (binary64 (1 / 10)). rewrite binary64_tenth.
    apply Number_le_Finite. lra.
Qed.

(** The third factor of the formula. *)
Lemma binary64_relevanceModifier_bounds categories :
  Forall weight_in_range categories ->
  exists m, binary64_relevanceModifier categories = Finite m
            /\ (1 <= m <= 2)%Q
            /\ (Exists (fun c => is_personal_relevance c = true) categories -> (11 # 10 <= m)%Q)
            /\ (Forall (fun c => is_personal_relevance c = false) categories -> m = 1%Q).
Proof.
  intros H. unfold binary64_relevanceModifier.
  destruct (last _) as [c|] eqn:E.
  - apply last_Some_elem_of, list_elem_of_filter in E as [Hpr E].
    rewrite Forall_forall in H. destruct (weight_in_range_value c (H c E)) as [Ec Hc].
    rewrite Ec. cbn [Number_div].
    change (Q_is_zero 10) with false. cbv iota.
    destruct (binary64_between (1 / 10) (10 / 10) _ _ (weight_value c / 10)
                binary64_tenth binary64_ten_tenths) as (r & -> & Hr).
    + discriminate.
    + unfold Qdiv. change (/ 10)%Q with (1 # 10)%Q. lra.
    + cbn [Number_add].
      destruct (binary64_between (1 + (3602879701896397 # 36028797018963968)) (1 + 1) _ _
                  (1 + r) binary64_one_and_a_tenth binary64_two) as (m & -> & Hm).
      * discriminate.
      * lra.
      * exists m. split; [done|]. split; [lra|]. split; [intros _; lra|].
        intros Hno. rewrite Forall_forall in Hno. by rewrite (Hno c E) in Hpr.
  - exists 1%Q. split; [done|]. split; [lra|]. split; [|done].
    intros (c & Hc & Hpr)%Exists_exists. apply last_None in E.
    assert (c ∈ filter (fun c => is_personal_relevance c = true) categories) as Hin
      by by apply list_elem_of_filter.
    rewrite E in Hin. by apply elem_of_nil in Hin.
Qed.

End Aggregator.

(** The hours as the rounded product of three factors: the first in
    [1/10, 1], the third in [1, 2], the second the fifth of the hours
    available. *)
Lemma totalHours_factors {F} (categories : list (Category F)) :
  categories <> [] -> Z.of_nat (length categories) <= 2 ^ 32 ->
  Forall weight_in_range categories ->
  exists a m,
    (binary64_averageWeight categories / Finite 10)%num = Finite a
    /\ binary64_relevanceModifier categories = Finite m
    /\ (1 # 10 <= a <= 1)%Q /\ (1 <= m <= 2)%Q
    /\ Number_le (Finite 1 / Finite 10) (Finite a) = true
    /\ (Exists (fun c => is_personal_relevance c = true) categories -> (11 # 10 <= m)%Q)
    /\ (Forall (fun c => is_personal_relevance c = false) categories -> m = 1%Q)
    /\ forall daysPerYear,
        totalHours (calculateWeightsAndHours categories daysPerYear)
        = Math_round (Finite a * (ToNumber daysPerYear * Finite 24 / Finite 5) * Finite m).
Proof.
  intros Hne Hn H.
  destruct (binary64_averageWeight_tenth categories Hne Hn H) as (a & Ea & Ha & Ha').
  destruct (binary64_relevanceModifier_bounds categories H) as (m & Em & Hm & Hm1 & Hm2).
  exists a, m. repeat split; try done; try lra.
  intros d. rewrite totalHours_formula. unfold binary64_totalHours. by rewrite Ea, Em.
Qed.

(** The fifth of the hours available: not negative, and growing with the
    days. *)
Lemma fifth_le (d d' : Q) :
  (0 <= d)%Q -> (d <= d')%Q ->
  Number_le (Finite 0) (Finite d * Finite 24 / Finite 5) = true
  /\ Number_le (Finite d * Finite 24 / Finite 5) (Finite d' * Finite 24 / Finite 5) = true.
Proof.
  intros Hd Hdd'. apply Number_div_le; [lra| |].
  - apply binary64_not_negative. lra.
  - apply binary64_le; lra.
Qed.

Lemma fifth_is_binary64 (x : number) : is_binary64 (x * Finite 24 / Finite 5).
Proof. apply Number_div_is_binary64. Qed.

Lemma integer_or_infinity_bounded x b :
  integer_or_infinity x -> Number_le x (Finite b) = true ->
  exists h : Z, 0 <= h /\ x = of_Z h.
Proof. intros [->|H]; [done|]. by intros _. Qed.

(** ** The aggregator and the exact formula *)

Lemma close_proper e e' x y y' : (e == e')%Q -> (y == y')%Q -> close e x y -> close e' x y'.
Proof. unfold close. intros He Hy. by rewrite He, Hy. Qed.

Lemma Qfloor_unique (x : Q) (k : Z) : (inject_Z k <= x < inject_Z k + 1)%Q -> Qfloor x = k.
Proof.
  intros [H1 H2]. pose proof (Qfloor_le x) as Hf. pose proof (Qlt_floor x) as Hc.
  assert (inject_Z (Qfloor x) < inject_Z (k + 1))%Q as Ha
    by (rewrite inject_Z_plus; change (inject_Z 1) with 1%Q; lra).
  assert (inject_Z k < inject_Z (Qfloor x + 1))%Q as Hb by lra.
  rewrite <- Zlt_Qlt in Ha, Hb. lia.
Qed.

Section Closeness.
Context {F : Type}.
Implicit Types (categories : list (Category F)).

Lemma sum_weights_bounds categories :
  Forall weight_in_range categories ->
  (inject_Z (Z.of_nat (length categories))
   <= fold_right Qplus 0 (map weight_value categories)
   <= 10 * inject_Z (Z.of_nat (length categories)))%Q.
Proof.
  induction 1 as [|c categories Hc _ IH].
  - simpl. split; discriminate.
  - apply weight_in_range_value in Hc as [_ Hc].
    simpl length. rewrite Nat2Z.inj_succ, <- Z.add_1_r, inject_Z_plus. simpl.
    change (inject_Z 1) with 1%Q. lra.
Qed.

Lemma spec_averageWeight_bounds categories :
  categories <> [] -> Forall weight_in_range categories ->
  (1 <= spec_averageWeight categories <= 10)%Q.
Proof.
  intros Hne H. pose proof (sum_weights_bounds categories H) as [Hlo Hhi].
  assert (0 < inject_Z (Z.of_nat (length categories)))%Q as Hn.
  { unfold Qlt. simpl. destruct categories; [done|]. simpl length. lia. }
  unfold spec_averageWeight. split.
  - apply Qle_shift_div_l; [done|]. lra.
  - apply Qle_shift_div_r; [done|]. lra.
Qed.

Lemma spec_relevanceModifier_bounds categories :
  Forall weight_in_range categories ->
  (1 <= spec_relevanceModifier categories <= 2)%Q.
Proof.
  intros H. unfold spec_relevanceModifier.
  destruct (last _) as [c|] eqn:E; [|lra].
  apply last_Some_elem_of, list_elem_of_filter in E as [_ E].
  rewrite Forall_forall in H. apply H, weight_in_range_value in E as [_ E].
  unfold Qdiv. change (/ 10)%Q with (1 # 10)%Q. lra.
Qed.

(** The rounded sum of [n] weights is the exact sum up to 2 n units of
    roundoff. *)
Lemma sum_of_weights_close categories (k : Z) (s E : Q) :
  Forall weight_in_range categories ->
  0 <= k -> k + Z.of_nat (length categories) <= 2 ^ 20 ->
  (inject_Z k <= E <= 10 * inject_Z k)%Q ->
  close (2 * unit_roundoff * inject_Z k)%Q s E ->
  exists s',
    fold_left Number_add (map weight categories) (Finite s) = Finite s'
    /\ close (2 * unit_roundoff * inject_Z (k + Z.of_nat (length categories)))%Q s'
         (E + fold_right Qplus 0 (map weight_value categories))%Q.
Proof.
  intros H. revert k s E. induction H as [|c categories Hc _ IH]; intros k s E Hk Hn HE Hs.
  - exists s. split; [done|]. simpl. rewrite Z.add_0_r.
    eapply close_proper; [reflexivity| |exact Hs]. ring.
  - apply weight_in_range_value in Hc as [Ec Hc]. simpl length in *.
    cbn [map fold_left fold_right]. rewrite Ec. cbn [Number_add].
    set (w := weight_value c) in *.
    assert (0 <= inject_Z k)%Q as Hk'
      by (change 0%Q with (inject_Z 0); rewrite <- Zle_Qle; lia).
    assert (inject_Z k <= 1048575)%Q as Hk''
      by (change 1048575%Q with (inject_Z 1048575); rewrite <- Zle_Qle; lia).
    destruct (binary64_close (2 * unit_roundoff * inject_Z k)%Q (s + w)%Q (E + w)%Q)
      as (s1 & -> & Hs1).
    + split; lra.
    + unfold unit_roundoff. split; lra.
    + apply close_add; [unfold unit_roundoff; lra|lra|done].
    + destruct (IH (k + 1) s1 (E + w)%Q) as (s' & -> & Hs'); [lia|lia| | |].
      * rewrite inject_Z_plus. change (inject_Z 1) with 1%Q. lra.
      * eapply close_proper; [|reflexivity|exact Hs1].
        rewrite inject_Z_plus. change (inject_Z 1) with 1%Q. ring.
      * exists s'. split; [done|].
        eapply close_proper; [| |exact Hs'].
        -- by replace (k + 1 + Z.of_nat (length categories))
             with (k + Z.of_nat (S (length categories))) by lia.
        -- ring.
Qed.

(** The first factor. *)
Lemma averageWeight_tenth_close categories :
  categories <> [] -> Z.of_nat (length categories) <= 2 ^ 20 ->
  Forall weight_in_range categories ->
  exists a,
    (binary64_averageWeight categories / Finite 10)%num = Finite a
    /\ close (2 * unit_roundoff * (inject_Z (Z.of_nat (length categories)) + 2))%Q a
         (spec_averageWeight categories / 10)%Q.
Proof.
  intros Hne Hn H.
  destruct (sum_of_weights_close categories 0 0%Q 0%Q H) as (s & Es & Hs);
    [done|lia|split; discriminate| |].
  { eapply close_proper; [|reflexivity|apply close_refl]. reflexivity. }
  pose proof (spec_averageWeight_bounds categories Hne H) as Ha.
  unfold binary64_averageWeight, sum_of_weights. rewrite Es.
  rewrite Z.add_0_l in Hs.
  assert (1 <= inject_Z (Z.of_nat (length categories)) <= 1048576)%Q as Hlen.
  { change 1%Q with (inject_Z 1). change 1048576%Q with (inject_Z 1048576).
    rewrite <- !Zle_Qle. destruct categories; [done|]. simpl length in *. lia. }
  unfold of_nat, of_Z. cbn [Number_div]. rewrite Q_is_zero_false by lra.
  unfold spec_averageWeight in *.
  set (n := inject_Z (Z.of_nat (length categories))) in *.
  set (W := fold_right Qplus 0%Q (map weight_value categories)) in *.
  destruct (binary64_close (2 * unit_roundoff * n)%Q (s / n)%Q (W / n)%Q) as (a0 & -> & Ha0).
  - split; lra.
  - unfold unit_roundoff. split; lra.
  - apply close_div; [lra|]. eapply close_proper; [reflexivity| |exact Hs]. ring.
  - cbn [Number_div]. change (Q_is_zero 10) with false. cbv iota.
    destruct (binary64_close (2 * unit_roundoff * n + 2 * unit_roundoff)%Q (a0 / 10)%Q
                (W / n / 10)%Q) as (a & -> & Ha').
    + unfold Qdiv at 1 3. change (/ 10)%Q with (1 # 10)%Q. split; lra.
    + unfold unit_roundoff. split; lra.
    + by apply close_div.
    + exists a. split; [done|]. eapply close_proper; [|reflexivity|exact Ha']. ring.
Qed.

(** The third factor. *)
Lemma relevanceModifier_close categories :
  Forall weight_in_range categories ->
  exists m,
    binary64_relevanceModifier categories = Finite m
    /\ close (4 * unit_roundoff)%Q m (spec_relevanceModifier categories).
Proof.
  intros H. pose proof (spec_relevanceModifier_bounds categories H) as HM. revert HM.
  unfold binary64_relevanceModifier, spec_relevanceModifier.
  destruct (last _) as [c|] eqn:E.
  - intros HM. apply last_Some_elem_of, list_elem_of_filter in E as [_ E].
    rewrite Forall_forall in H. destruct (weight_in_range_value c (H c E)) as [Ec Hc].
    rewrite Ec. cbn [Number_div]. change (Q_is_zero 10) with false. cbv iota.
    set (w := weight_value c) in *.
    assert (1 # 10 <= w / 10 <= 1)%Q as Hw
      by (unfold Qdiv; change (/ 10)%Q with (1 # 10)%Q; lra).
    destruct (binary64_close 0%Q (w / 10)%Q (w / 10)%Q) as (r & -> & Hr).
    + split; lra.
    + split; [lra|discriminate].
    + apply close_refl.
    + cbn [Number_add].
      destruct (binary64_close (2 * unit_roundoff)%Q (1 + r)%Q (1 + w / 10)%Q) as (m & -> & Hm).
      * split; lra.
      * unfold unit_roundoff. split; lra.
      * unfold close, unit_roundoff in *. set (W := (w / 10)%Q) in *. split; nra.
      * exists m. split; [done|]. eapply close_proper; [|reflexivity|exact Hm]. ring.
  - intros _. exists 1%Q. split; [done|]. unfold close, unit_roundoff. split; lra.
Qed.

End Closeness.

(** The second factor. *)
Lemma fifth_close (d : Q) :
  (1 # 1000000 <= d <= 1000000)%Q ->
  exists t, (Finite d * Finite 24 / Finite 5)%num = Finite t
            /\ close (4 * unit_roundoff)%Q t (d * 24 / 5)%Q.
Proof.
  intros Hd. cbn [Number_mul].
  destruct (binary64_close 0%Q (d * 24)%Q (d * 24)%Q) as (t0 & -> & Ht0).
  - split; lra.
  - split; [lra|discriminate].
  - apply close_refl.
  - cbn [Number_div]. change (Q_is_zero 5) with false. cbv iota.
    destruct (binary64_close (0 + 2 * unit_roundoff)%Q (t0 / 5)%Q (d * 24 / 5)%Q) as (t & -> & Ht).
    + unfold Qdiv. change (/ 5)%Q with (1 # 5)%Q. split; lra.
    + unfold unit_roundoff. split; lra.
    + by apply close_div.
    + exists t. split; [done|]. eapply close_proper; [|reflexivity|exact Ht]. ring.
Qed.

(** The product before [Math.round], against the exact product. *)
Lemma product_close {F} (categories : list (Category F)) (d : Q) :
  categories <> [] -> Z.of_nat (length categories) <= 2 ^ 20 ->
  Forall weight_in_range categories ->
  (1 # 1000000 <= d <= 1000000)%Q ->
  exists p,
    totalHours (calculateWeightsAndHours categories (VNum (Finite d))) = of_Z (round_half_up p)
    /\ close (2 * unit_roundoff * (inject_Z (Z.of_nat (length categories)) + 12))%Q p
         (spec_averageWeight categories / 10 * (d * 24 / 5)
          * spec_relevanceModifier categories)%Q.
Proof.
  intros Hne Hn H Hd.
  destruct (averageWeight_tenth_close categories Hne Hn H) as (a & Ea & Ha).
  destruct (relevanceModifier_close categories H) as (m & Em & Hm).
  destruct (fifth_close d Hd) as (t & Et & Ht).
  pose proof (spec_averageWeight_bounds categories Hne H) as HA.
  pose proof (spec_relevanceModifier_bounds categories H) as HM.
  rewrite totalHours_formula. unfold binary64_totalHours. cbn [ToNumber].
  rewrite Ea, Em, Et. cbn [Number_mul].
  assert (1 <= inject_Z (Z.of_nat (length categories)) <= 1048576)%Q as Hlen.
  { change 1%Q with (inject_Z 1). change 1048576%Q with (inject_Z 1048576).
    rewrite <- !Zle_Qle. destruct categories; [done|]. simpl length in *. lia. }
  set (n := inject_Z (Z.of_nat (length categories))) in *.
  assert (1 # 10 <= spec_averageWeight categories / 10 <= 1)%Q as HA'
    by (unfold Qdiv; change (/ 10)%Q with (1 # 10)%Q; lra).
  assert (48 # 10000000 <= d * 24 / 5 <= 4800000)%Q as HT
    by (unfold Qdiv; change (/ 5)%Q with (1 # 5)%Q; lra).
  set (A := (spec_averageWeight categories / 10)%Q) in *.
  set (T := (d * 24 / 5)%Q) in *.
  set (M := spec_relevanceModifier categories) in *.
  assert (close (2 * unit_roundoff * (n + 2) + 2 * (4 * unit_roundoff))%Q (a * t)%Q (A * T)%Q)
    as H1.
  { apply close_mul; [unfold unit_roundoff; split; lra|unfold unit_roundoff; split; lra
                     |lra|lra|exact Ha|exact Ht]. }
  assert (48 # 100000000 <= A * T <= 4800000)%Q as HAT by (split; nra).
  destruct (fun Hy He => binary64_close _ (a * t)%Q (A * T)%Q Hy He H1)
    as (p1 & -> & Hp1); [split; lra|unfold unit_roundoff; split; lra|].
  cbn [Number_mul].
  assert (close (2 * unit_roundoff * (n + 2) + 2 * (4 * unit_roundoff) + 2 * unit_roundoff
                 + 2 * (4 * unit_roundoff))%Q (p1 * m)%Q (A * T * M)%Q) as H2.
  { apply close_mul; [unfold unit_roundoff; split; lra|unfold unit_roundoff; split; lra
                     |lra|lra|exact Hp1|exact Hm]. }
  assert (48 # 100000000 <= A * T * M <= 9600000)%Q as HATM.
  { set (X := (A * T)%Q) in *. split; nra. }
  destruct (fun Hy He => binary64_close _ (p1 * m)%Q (A * T * M)%Q Hy He H2)
    as (p & -> & Hp); [split; lra|unfold unit_roundoff; split; lra|].
  exists p. split; [done|].
  eapply close_proper; [|reflexivity|exact Hp]. ring.
Qed.
(** ** The resolver *)

Lemma fetchRealSources_fulfilled w query :
  fetchRealSources w query = Fulfilled (resolved_sources w query).
Proof.
  unfold fetchRealSources, resolved_sources, fetchRealSources_result.
  destruct (axios_get w _) as [[[[[l|]]|]]|]; reflexivity.
Qed.

Lemma enhanceFact_fulfilled w year f :
  enhanceFact w year f = Fulfilled (enhanced_fact w year f).
Proof. unfold enhanceFact. rewrite fetchRealSources_fulfilled. reflexivity. Qed.

Lemma resolved_sources_uncited w query :
  Forall (fun s => citation s = None) (resolved_sources w query).
Proof.
  unfold resolved_sources.
  destruct (axios_get w _) as [[[[[l|]]|]]|]; try constructor.
  apply Forall_forall. intros s Hs. apply list_elem_of_fmap in Hs as (i & -> & _). done.
Qed.

(** ** The fan-out *)

Lemma Promise_all_fulfilled {A} (l : list A) : Promise_all (map Fulfilled l) = Fulfilled l.
Proof. induction l as [|a l IH]; simpl; [done|]. by rewrite IH. Qed.

Section FanOut.
Variables (w : World) (year : value).
Implicit Types (categories : list (Category string)) (sched : Schedule).

Lemma slots_after_ext seen seen' categories :
  (forall ci fi c f, categories !! ci = Some c -> facts c !! fi = Some f ->
                     seen (ci, fi) = seen' (ci, fi)) ->
  slots_after w year seen categories = slots_after w year seen' categories.
Proof.
  intros H. unfold slots_after. apply imap_ext. intros ci c Hc.
  apply imap_ext. intros fi f Hf. by rewrite (H ci fi c f).
Qed.

Lemma dispatch_slots categories :
  dispatch categories = slots_after w year (fun _ => false) categories.
Proof.
  unfold dispatch, slots_after. rewrite <- imap_const. apply imap_ext. intros ci c _.
  simpl. rewrite <- imap_const. done.
Qed.

Lemma settle_slots seen categories p :
  settle w year categories (slots_after w year seen categories) p
  = slots_after w year (fun q => seen q || bool_decide (q = p)) categories.
Proof.
  destruct p as [ci fi]. unfold settle. simpl.
  destruct (categories !! ci) as [c|] eqn:Hc; simpl.
  2:{ apply slots_after_ext. intros ci' fi' c' f' Hc' _.
      rewrite bool_decide_eq_false_2; [by rewrite orb_false_r|]. congruence. }
  destruct (facts c !! fi) as [f|] eqn:Hf.
  2:{ apply slots_after_ext. intros ci' fi' c' f' Hc' Hf'.
      rewrite bool_decide_eq_false_2; [by rewrite orb_false_r|]. congruence. }
  apply list_eq. intros i. unfold slots_after.
  destruct (decide (ci = i)) as [<-|Hne].
  - rewrite list_lookup_alter_eq, !list_lookup_imap, Hc. simpl. f_equal.
    apply list_eq. intros j.
    destruct (decide (fi = j)) as [<-|Hne].
    + rewrite list_lookup_insert_eq by (rewrite length_imap; by eapply lookup_lt_Some).
      rewrite list_lookup_imap, Hf. simpl. rewrite bool_decide_eq_true_2 by done.
      by rewrite orb_true_r.
    + rewrite list_lookup_insert_ne by done. rewrite !list_lookup_imap.
      destruct (facts c !! j); simpl; [|done].
      rewrite bool_decide_eq_false_2; [by rewrite orb_false_r|]. congruence.
  - rewrite list_lookup_alter_ne by done. rewrite !list_lookup_imap.
    destruct (categories !! i) as [c'|]; simpl; [|done]. f_equal.
    apply imap_ext. intros j f' _.
    rewrite bool_decide_eq_false_2; [by rewrite orb_false_r|]. congruence.
Qed.

Lemma run_schedule sched seen categories :
  fold_left (settle w year categories) sched (slots_after w year seen categories)
  = slots_after w year (fun q => seen q || bool_decide (q ∈ sched)) categories.
Proof.
  revert seen. induction sched as [|p sched IH]; intros seen; simpl.
  - apply slots_after_ext. intros. by rewrite orb_false_r.
  - rewrite settle_slots, IH. apply slots_after_ext. intros ci fi c f _ _. cbv beta.
    rewrite <- orb_assoc. f_equal.
    destruct (decide ((ci, fi) = p)) as [->|Hne].
    + rewrite (bool_decide_eq_true_2 (p = p)) by done. simpl. symmetry.
      apply bool_decide_eq_true_2, list_elem_of_here.
    + rewrite (bool_decide_eq_false_2 _ Hne). simpl.
      apply bool_decide_ext. rewrite elem_of_cons. tauto.
Qed.

(** Once every lookup has settled, the promises hold the results of the
    lookups by place, whatever the order they settled in. *)
Lemma complete_schedule sched categories :
  complete sched categories ->
  fold_left (settle w year categories) sched (dispatch categories)
  = map (fun c => map (enhanceFact w year) (facts c)) categories.
Proof.
  intros H. rewrite dispatch_slots, run_schedule.
  rewrite (slots_after_ext _ (fun _ => true)).
  2:{ intros ci fi c f Hc Hf. simpl. apply bool_decide_eq_true_2. by eapply H. }
  unfold slots_after. rewrite <- imap_const. apply imap_ext. intros ci c _.
  simpl. by rewrite <- imap_const.
Qed.

Lemma enhanceCategory_fulfilled (c : Category string) :
  enhanceCategory c (map (enhanceFact w year) (facts c)) = Fulfilled (enhanced w year c).
Proof.
  unfold enhanceCategory, enhanced.
  rewrite (map_ext _ (fun f => Fulfilled (enhanced_fact w year f)))
    by (intros; apply enhanceFact_fulfilled).
  rewrite <- (map_map (enhanced_fact w year) Fulfilled), Promise_all_fulfilled. reflexivity.
Qed.

Lemma fan_in sched categories :
  complete sched categories ->
  Promise_all (zip_with enhanceCategory categories
                 (fold_left (settle w year categories) sched (dispatch categories)))
  = Fulfilled (map (enhanced w year) categories).
Proof.
  intros H. rewrite complete_schedule by done.
  rewrite <- Promise_all_fulfilled. f_equal. clear H.
  induction categories as [|c cs IH]; simpl; [done|].
  rewrite enhanceCategory_fulfilled. by f_equal.
Qed.
End FanOut.

(** ** The handler, path by path *)

Lemma handle_unfold w sched req :
  handle w sched req =
  match topic_missing req with
  | Fulfilled true => {| calls := []; reply := Some bad_request |}
  | Fulfilled false =>
      match personally_relevant req with
      | Fulfilled relevant =>
          let prompt := prompt_of req relevant in
          match settled (openai_parse w prompt) ≫= first_parsed with
          | Fulfilled response_data =>
              let response_data := Array_sort compare_categories response_data in
              {| calls := CallOpenAI prompt :: search_calls (year req) response_data;
                 reply :=
                   match Promise_all
                           (zip_with enhanceCategory response_data
                              (fold_left (settle w (year req) response_data) sched
                                 (dispatch response_data))) with
                   | Fulfilled enhancedData => Some (respond req response_data enhancedData)
                   | Rejected => Some server_error
                   | Pending => None
                   end |}
          | Rejected => {| calls := [CallOpenAI prompt]; reply := Some server_error |}
          | Pending => {| calls := [CallOpenAI prompt]; reply := None |}
          end
      | Rejected => {| calls := []; reply := Some server_error |}
      | Pending => {| calls := []; reply := None |}
      end
  | Rejected => {| calls := []; reply := Some server_error |}
  | Pending => {| calls := []; reply := None |}
  end.
Proof.
  unfold handle, calculate_weight, try_catch, enhanceData, await, issue, mbind, mret,
    Async_bind, Async_ret.
  destruct (topic_missing req) as [[|]| |]; try reflexivity.
  destruct (personally_relevant req) as [relevant| |]; try reflexivity.
  simpl. destruct (openai_parse w _) as [completion|]; simpl; try reflexivity.
  destruct (first_parsed completion) as [response_data| |]; simpl; try reflexivity.
  destruct (Promise_all _); reflexivity.
Qed.

Lemma trimStart_white_space s : all_white_space s -> trimStart s = EmptyString.
Proof.
  unfold all_white_space. induction s as [|a s IH]; simpl; [done|].
  intros H. apply Forall_cons in H as [-> H]. auto.
Qed.

Lemma trimEnd_nonempty s : trimEnd s = EmptyString -> all_white_space s.
Proof.
  unfold all_white_space. induction s as [|a s IH]; simpl; [constructor|].
  destruct (trimEnd s); [|done].
  destruct (is_white_space a) eqn:E; [|done]. intros _. constructor; auto.
Qed.

Lemma trimStart_nonempty s : all_white_space (trimStart s) -> all_white_space s.
Proof.
  unfold all_white_space. induction s as [|a s IH]; simpl; [done|].
  destruct (is_white_space a) eqn:E; [|done]. intros H. constructor; auto.
Qed.

Lemma trim_empty s : trim s = EmptyString <-> all_white_space s.
Proof.
  unfold trim. split.
  - intros H. by apply trimStart_nonempty, trimEnd_nonempty.
  - intros H. by rewrite trimStart_white_space.
Qed.

Lemma topic_blank_missing req : topic_blank req -> topic_missing req = Fulfilled true.
Proof.
  unfold topic_missing. intros [E|[E|(s & E & H)]]; rewrite E; simpl; [done|done|].
  destruct (String.eqb_spec s ""); simpl; [done|].
  apply trim_empty in H. by rewrite H.
Qed.

Lemma topic_given_accepted req : topic_given req -> topic_missing req = Fulfilled false.
Proof.
  unfold topic_missing. intros (s & E & H). rewrite E. simpl.
  destruct (String.eqb_spec s "") as [->|Hs]; simpl.
  - by destruct H.
  - by destruct (trim s).
Qed.

(** The handler on a request it accepts, when the generation call succeeds
    and every lookup settles. *)
Lemma handle_success w sched req response_data :
  topic_given req ->
  generates w req response_data ->
  complete sched (sorted_data response_data) ->
  exists relevant,
    personally_relevant req = Fulfilled relevant
    /\ handle w sched req =
       {| calls := CallOpenAI (prompt_of req relevant)
                   :: search_calls (year req) (sorted_data response_data);
          reply := Some (respond req (sorted_data response_data)
                           (map (enhanced w (year req)) (sorted_data response_data))) |}.
Proof.
  intros Ht (relevant & completion & Hr & Hc & Hp) Hs.
  exists relevant. split; [done|].
  rewrite handle_unfold, (topic_given_accepted _ Ht), Hr. simpl. rewrite Hc. simpl.
  rewrite Hp. fold (sorted_data response_data). by rewrite fan_in.
Qed.

Lemma respond_status req response_data enhancedData :
  status (respond req response_data enhancedData) = 200%nat.
Proof. unfold respond. by destruct (assign_citations _ _). Qed.

(** A reply with status 200 comes from the path of [handle_success]. *)
Lemma handle_200 w sched req r :
  reply (handle w sched req) = Some r ->
  status r = 200%nat ->
  exists response_data enhancedData,
    topic_missing req = Fulfilled false
    /\ generates w req response_data
    /\ Promise_all
         (zip_with enhanceCategory (sorted_data response_data)
            (fold_left (settle w (year req) (sorted_data response_data)) sched
               (dispatch (sorted_data response_data))))
       = Fulfilled enhancedData
    /\ r = respond req (sorted_data response_data) enhancedData.
Proof.
  rewrite handle_unfold.
  destruct (topic_missing req) as [[|]| |]; simpl; try (intros [= <-]; discriminate);
    try discriminate.
  destruct (personally_relevant req) as [relevant| |] eqn:Hr; simpl;
    try (intros [= <-]; discriminate); try discriminate.
  destruct (openai_parse w _) as [completion|] eqn:Hc; simpl;
    try (intros [= <-]; discriminate).
  destruct (first_parsed completion) as [response_data| |] eqn:Hp; simpl;
    try (intros [= <-]; discriminate); try discriminate.
  fold (sorted_data response_data).
  destruct (Promise_all _) as [enhancedData| |] eqn:Hall;
    try (intros [= <-]; discriminate); try discriminate.
  intros [= <-] _. exists response_data, enhancedData.
  split; [done|]. split; [|done]. by exists relevant, completion.
Qed.

Lemma map_accum_Forall2 {S A B} (f : S -> A -> S * B) (R : A -> B -> Prop) s l :
  (forall s a, R a (f s a).2) -> Forall2 R l (map_accum f s l).2.
Proof.
  intros H. revert s. induction l as [|a l IH]; intros s.
  - constructor.
  - rewrite map_accum_cons. constructor; [apply H|apply IH].
Qed.

(** A walk over containers is the walk over their elements in a row. *)
Lemma map_accum_concat {S B C} (f : S -> B -> S * B) (g : S -> C -> S * C)
    (elems : C -> list B) s cs :
  (forall s c, (g s c).1 = (map_accum f s (elems c)).1
               /\ elems (g s c).2 = (map_accum f s (elems c)).2) ->
  (map_accum g s cs).1 = (map_accum f s (concat (map elems cs))).1
  /\ concat (map elems (map_accum g s cs).2) = (map_accum f s (concat (map elems cs))).2.
Proof.
  intros H. revert s. induction cs as [|c cs IH]; intros s; [done|].
  rewrite map_accum_cons. simpl. rewrite map_accum_app. simpl.
  destruct (H s c) as [E1 E2]. rewrite E1, E2.
  destruct (IH (map_accum f s (elems c)).1) as [E3 E4]. by rewrite E3, E4.
Qed.

(** ** The citation pass *)

Lemma assign_fact_sources r f :
  (assign_fact r f).1 = (map_accum assign r (sources f)).1
  /\ sources (assign_fact r f).2 = (map_accum assign r (sources f)).2.
Proof. unfold assign_fact. by destruct (map_accum assign r (sources f)). Qed.

Lemma assign_category_facts r c :
  (assign_category r c).1 = (map_accum assign_fact r (facts c)).1
  /\ facts (assign_category r c).2 = (map_accum assign_fact r (facts c)).2.
Proof. unfold assign_category. by destruct (map_accum assign_fact r (facts c)). Qed.

(** The pass is [forEach] over the flattened list. *)
Lemma assign_citations_flat r enhancedData :
  (assign_citations r enhancedData).1 = (map_accum assign r (flat_sources enhancedData)).1
  /\ flat_sources (assign_citations r enhancedData).2
     = (map_accum assign r (flat_sources enhancedData)).2.
Proof.
  unfold assign_citations, flat_sources.
  pose proof (map_accum_concat assign_fact assign_category facts r enhancedData
                assign_category_facts) as [E1 E2].
  pose proof (fun s => map_accum_concat assign assign_fact sources s
                         (concat (map facts enhancedData)) assign_fact_sources) as H.
  rewrite E1, E2. apply H.
Qed.

Lemma assign_same_result r s : same_result s (assign r s).2.
Proof. unfold assign. destruct (ToBoolean (link s)); done. Qed.

Lemma assign_fact_same r f : same_fact f (assign_fact r f).2.
Proof.
  split; [unfold assign_fact; by destruct (map_accum _ _ _)|].
  rewrite (proj2 (assign_fact_sources r f)).
  apply map_accum_Forall2. intros. apply assign_same_result.
Qed.

Lemma assign_category_same r c : same_category c (assign_category r c).2.
Proof.
  repeat split; try (unfold assign_category; by destruct (map_accum _ _ _)).
  rewrite (proj2 (assign_category_facts r c)).
  apply map_accum_Forall2. intros. apply assign_fact_same.
Qed.

Lemma assign_citations_same r enhancedData :
  Forall2 same_category enhancedData (assign_citations r enhancedData).2.
Proof. apply map_accum_Forall2. intros. apply assign_category_same. Qed.

Lemma count_linked_cons s l :
  count_linked (s :: l) = ((if ToBoolean (link s) then 1 else 0) + count_linked l)%nat.
Proof.
  unfold count_linked, linked. rewrite filter_cons.
  destruct (decide _) as [E|E]; [by rewrite E|].
  apply not_true_is_false in E. by rewrite E.
Qed.

Lemma count_linked_same l l' :
  Forall2 same_result l l' -> count_linked l' = count_linked l.
Proof.
  induction 1 as [|s s' l l' (_ & E & _) _ IH]; [done|].
  by rewrite !count_linked_cons, E, IH.
Qed.

(** The counter after a walk. *)
Lemma assign_walk_counter r l :
  citationCounter (map_accum assign r l).1 = (citationCounter r + count_linked l)%nat.
Proof.
  revert r. induction l as [|s l IH]; intros r.
  - simpl. unfold count_linked. simpl. lia.
  - rewrite map_accum_cons, count_linked_cons. simpl. rewrite IH.
    unfold assign. destruct (ToBoolean (link s)); simpl; lia.
Qed.

(** The source at a place after a walk: its citation is the counter plus
    the number of sources with a link before it. *)
Lemma assign_walk_lookup r l i s :
  l !! i = Some s ->
  (map_accum assign r l).2 !! i
  = Some (if ToBoolean (link s)
          then with_citation s (bracket (citationCounter r + count_linked (take i l)))
          else s).
Proof.
  revert r i. induction l as [|s0 l IH]; intros r i Hi; [done|].
  rewrite map_accum_cons. destruct i as [|i]; simpl in *.
  - injection Hi as ->. unfold assign, count_linked. simpl.
    destruct (ToBoolean (link s)); simpl; [|done]. by rewrite Nat.add_0_r.
  - rewrite (IH _ _ Hi). rewrite count_linked_cons.
    unfold assign. destruct (ToBoolean (link s0)); simpl; [|done].
    by rewrite Nat.add_succ_r.
Qed.

Lemma append_char_inj a s1 s2 :
  s1 +:+ String a EmptyString = s2 +:+ String a EmptyString -> s1 = s2.
Proof.
  revert s2. induction s1 as [|b s1 IH]; intros [|c s2]; simpl; intros H; try done.
  - injection H as _ H. by destruct s2.
  - injection H as _ H. by destruct s1.
  - injection H as -> H. f_equal. by apply IH.
Qed.

Lemma bracket_inj a b : bracket a = bracket b -> a = b.
Proof.
  unfold bracket. intros H. injection H as H.
  apply append_char_inj in H. by apply (inj pretty) in H.
Qed.

(** ** A fulfilled fan-out *)

Section FanIn.
Variables (w : World) (year : value).

Lemma Promise_all_row (g : nat -> bool) (fs : list string) l :
  Promise_all (imap (fun fi f => if g fi then enhanceFact w year f else Pending) fs)
  = Fulfilled l ->
  l = map (enhanced_fact w year) fs.
Proof.
  revert g l. induction fs as [|f fs IH]; intros g l; simpl.
  - by intros [= <-].
  - rewrite enhanceFact_fulfilled.
    destruct (Promise_all _) as [l'| |] eqn:E; destruct (g 0%nat); try discriminate.
    intros [= <-]. f_equal. by apply (IH (fun fi => g (S fi))).
Qed.

Lemma Promise_all_rows (seen : nat -> nat -> bool) (categories : list (Category string))
    enhancedData :
  Promise_all
    (zip_with enhanceCategory categories
       (imap (fun ci c =>
                imap (fun fi f => if seen ci fi then enhanceFact w year f else Pending)
                     (facts c))
             categories))
  = Fulfilled enhancedData ->
  enhancedData = map (enhanced w year) categories.
Proof.
  revert seen enhancedData. induction categories as [|c cs IH]; intros seen ed; simpl.
  - by intros [= <-].
  - unfold enhanceCategory at 1.
    destruct (Promise_all (imap _ (facts c))) as [fs| |] eqn:Ec; simpl.
    + apply Promise_all_row in Ec as ->.
      destruct (Promise_all (zip_with _ _ _)) as [ed'| |] eqn:E; try discriminate.
      intros [= <-]. f_equal. by apply (IH (fun ci fi => seen (S ci) fi)).
    + done.
    + by destruct (Promise_all (zip_with _ _ _)).
Qed.

(** Whatever the schedule, a fan-out that is fulfilled holds the results of
    the lookups by place. *)
Lemma fan_in_fulfilled sched (categories : list (Category string)) enhancedData :
  Promise_all (zip_with enhanceCategory categories
                 (fold_left (settle w year categories) sched (dispatch categories)))
  = Fulfilled enhancedData ->
  enhancedData = map (enhanced w year) categories.
Proof.
  rewrite (dispatch_slots w year), run_schedule. unfold slots_after.
  apply (Promise_all_rows (fun ci fi => false || bool_decide ((ci, fi) ∈ sched))).
Qed.
End FanIn.

(** ** The reply *)

Lemma respond_body req response_data enhancedData :
  exists description context,
    body (respond req response_data enhancedData)
    = [("weights", FWeights (assign_citations new_registry enhancedData).2);
       ("totalHours",
        FNumber (totalHours (calculateWeightsAndHours
                               (assign_citations new_registry enhancedData).2
                               (daysPerYear req))));
       ("totalHoursDescription", FText description);
       ("analysisContext", FText context)].
Proof.
  unfold respond. destruct (assign_citations new_registry enhancedData). simpl. eauto.
Qed.

Lemma respond_weights req response_data enhancedData :
  weights_of (respond req response_data enhancedData)
  = (assign_citations new_registry enhancedData).2.
Proof.
  unfold weights_of. destruct (respond_body req response_data enhancedData) as (d & c & ->).
  reflexivity.
Qed.

(** A reply with status 200, in full. *)
Lemma handle_200_reply w sched req r :
  reply (handle w sched req) = Some r ->
  status r = 200%nat ->
  exists response_data,
    topic_missing req = Fulfilled false
    /\ generates w req response_data
    /\ r = respond req (sorted_data response_data)
             (map (enhanced w (year req)) (sorted_data response_data)).
Proof.
  intros Hr Hs. destruct (handle_200 w sched req r Hr Hs) as (rd & ed & Ht & Hg & Hall & ->).
  apply fan_in_fulfilled in Hall as ->. eauto.
Qed.

Lemma generates_unique w req d1 d2 : generates w req d1 -> generates w req d2 -> d1 = d2.
Proof.
  intros (r1 & c1 & Hr1 & Hc1 & Hp1) (r2 & c2 & Hr2 & Hc2 & Hp2).
  rewrite Hr1 in Hr2. injection Hr2 as <-. rewrite Hc1 in Hc2. injection Hc2 as <-.
  rewrite Hp1 in Hp2. by injection Hp2.
Qed.

(** The sources of a fan-out carry no citation before the pass. *)
Lemma enhanced_uncited w year (categories : list (Category string)) :
  Forall (fun s => citation s = None) (flat_sources (map (enhanced w year) categories)).
Proof.
  apply List.Forall_forall. intros s Hs. unfold flat_sources in Hs.
  apply in_concat in Hs as (l & Hl & Hs).
  apply in_map_iff in Hl as (ef & <- & Hef).
  apply in_concat in Hef as (fs & Hfs & Hef).
  apply in_map_iff in Hfs as (c' & <- & Hc').
  apply in_map_iff in Hc' as (c & <- & _). simpl in Hef.
  apply in_map_iff in Hef as (f & <- & _). simpl in Hs.
  pose proof (resolved_sources_uncited w (search_query year f)) as H.
  rewrite List.Forall_forall in H. by apply H.
Qed.

(** The citation of the source at a place of a reply's traversal. *)
Lemma cited_lookup enhancedData i s :
  Forall (fun s => citation s = None) (flat_sources enhancedData) ->
  flat_sources (assign_citations new_registry enhancedData).2 !! i = Some s ->
  citation s
  = if ToBoolean (link s)
    then Some (bracket
                 (S (count_linked
                       (take i (flat_sources (assign_citations new_registry enhancedData).2)))))
    else None.
Proof.
  intros Hun Hi.
  assert (Forall2 same_result (flat_sources enhancedData)
            (flat_sources (assign_citations new_registry enhancedData).2)) as Hsame.
  { rewrite (proj2 (assign_citations_flat _ _)).
    apply map_accum_Forall2. intros. apply assign_same_result. }
  rewrite (count_linked_same _ _ (Forall2_take _ _ _ i Hsame)).
  rewrite (proj2 (assign_citations_flat _ _)) in Hi.
  destruct (flat_sources enhancedData !! i) as [s0|] eqn:E.
  - rewrite (assign_walk_lookup _ _ _ _ E) in Hi. injection Hi as <-.
    rewrite Forall_forall in Hun.
    assert (citation s0 = None) as Hc by (apply Hun; by eapply list_elem_of_lookup_2).
    destruct (ToBoolean (link s0)) eqn:El; simpl; rewrite El; done.
  - apply lookup_ge_None in E. apply lookup_lt_Some in Hi.
    rewrite map_accum_length in Hi. lia.
Qed.

(** ** Schedules *)

Lemma positions_lookup {F} (categories : list (Category F)) ci fi c f :
  categories !! ci = Some c -> facts c !! fi = Some f -> (ci, fi) ∈ positions categories.
Proof.
  intros Hc Hf. unfold positions. apply list_elem_of_In, in_concat.
  exists (imap (fun fi _ => (ci, fi)) (facts c)). split; apply list_elem_of_In.
  - apply list_elem_of_lookup. exists ci. by rewrite list_lookup_imap, Hc.
  - apply list_elem_of_lookup. exists fi. by rewrite list_lookup_imap, Hf.
Qed.

Lemma covers_complete {F} sched (categories : list (Category F)) :
  covers sched categories = true -> complete sched categories.
Proof.
  unfold covers. rewrite forallb_forall. intros H ci fi c f Hc Hf.
  specialize (H (ci, fi)). apply bool_decide_eq_true_1 in H; [done|].
  apply list_elem_of_In. by eapply positions_lookup.
Qed.

Lemma positions_complete {F} (categories : list (Category F)) :
  complete (positions categories) categories.
Proof. intros ci fi c f. apply positions_lookup. Qed.

(** ** The display order *)

Section Sorting.
Context {A : Type} (key : A -> Z) (compare : A -> A -> Z).
Hypothesis compare_key : forall a b, compare a b = key a - key b.

Lemma sort_insert_perm x l : sort_insert compare x l ≡ₚ x :: l.
Proof.
  induction l as [|y l IH]; simpl; [done|].
  destruct (compare x y <=? 0); [done|]. rewrite IH. apply Permutation_swap.
Qed.

Lemma Array_sort_perm l : Array_sort compare l ≡ₚ l.
Proof.
  induction l as [|x l IH]; simpl; [done|]. by rewrite sort_insert_perm, IH.
Qed.

Lemma sort_insert_sorted x l :
  StronglySorted (fun a b => key a <= key b) l ->
  StronglySorted (fun a b => key a <= key b) (sort_insert compare x l).
Proof.
  induction 1 as [|y l Hl IH Hy]; simpl.
  - repeat constructor.
  - rewrite compare_key. destruct (Z.leb_spec (key x - key y) 0) as [Hle|Hgt].
    + constructor; [by constructor|]. constructor; [lia|].
      eapply Forall_impl; [exact Hy|]. simpl. intros. lia.
    + constructor; [done|]. rewrite sort_insert_perm. constructor; [lia|done].
Qed.

Lemma Array_sort_sorted l :
  StronglySorted (fun a b => key a <= key b) (Array_sort compare l).
Proof.
  induction l as [|x l IH]; simpl; [constructor|]. by apply sort_insert_sorted.
Qed.
End Sorting.

Lemma sorted_data_perm response_data : sorted_data response_data ≡ₚ response_data.
Proof. apply Array_sort_perm. Qed.

Lemma sorted_data_in_order response_data :
  in_display_order (map category (sorted_data response_data)).
Proof.
  unfold in_display_order.
  apply (StronglySorted_fmap category
           (fun a b => display_index (category a) <= display_index (category b)));
    [done|].
  apply (Array_sort_sorted (fun c => display_index (category c))). done.
Qed.

Lemma display_index_inj a b :
  a ∈ sortOrder -> b ∈ sortOrder -> display_index a = display_index b -> a = b.
Proof.
  unfold sortOrder. intros Ha Hb.
  repeat (apply elem_of_cons in Ha as [->|Ha]);
    repeat (apply elem_of_cons in Hb as [->|Hb]);
    try (by apply elem_of_nil in Ha); try (by apply elem_of_nil in Hb);
    vm_compute; congruence.
Qed.

Lemma StronglySorted_filter {A} (R : A -> A -> Prop) (P : A -> Prop)
    `{forall x, Decision (P x)} l :
  StronglySorted R l -> StronglySorted R (filter P l).
Proof.
  induction 1 as [|x l Hl IH Hx]; [constructor|].
  rewrite filter_cons. destruct (decide (P x)); [|done].
  constructor; [done|]. rewrite Forall_forall in Hx. apply Forall_forall.
  intros y Hy. apply list_elem_of_filter in Hy as [_ Hy]. by apply Hx.
Qed.

(** Distinct names of the display set, once sorted, are the display order
    restricted to them. *)
Lemma display_order_unique (names sorted : list string) :
  NoDup names ->
  Forall (fun n => n ∈ sortOrder) names ->
  sorted ≡ₚ names ->
  in_display_order sorted ->
  sorted = filter (fun n => n ∈ names) sortOrder.
Proof.
  intros Hnd Hin Hperm Hsorted. rewrite Forall_forall in Hin.
  apply (StronglySorted_unique_strong (fun a b => display_index a <= display_index b)).
  - intros x1 x2 H1 H2 H12 H21. apply display_index_inj.
    + apply Hin. by rewrite <- Hperm.
    + by apply list_elem_of_filter in H2 as [_ ?].
    + lia.
  - done.
  - apply StronglySorted_filter. unfold sortOrder. repeat constructor; vm_compute; congruence.
  - rewrite Hperm. apply NoDup_Permutation; [done| |].
    + apply NoDup_filter. unfold sortOrder.
      repeat constructor; rewrite ?elem_of_cons, ?elem_of_nil; intuition discriminate.
    + intros x. rewrite list_elem_of_filter. split; [|by intros [? _]].
      intros Hx. split; auto.
Qed.

Lemma totalHours_NaN {F} (categories : list (Category F)) daysPerYear :
  ToNumber daysPerYear = NaN ->
  totalHours (calculateWeightsAndHours categories daysPerYear) = NaN.
Proof.
  intros H. unfold calculateWeightsAndHours. rewrite H.
  destruct (map_accum accumulate_category _ categories) as [[tw rm] enriched]. simpl.
  by destruct (tw / of_nat (length categories) / Finite 10)%num.
Qed.

(** The calls of a request that reaches the fan-out, whatever the schedule. *)
Lemma handle_calls w sched req response_data :
  topic_given req ->
  generates w req response_data ->
  exists prompt,
    calls (handle w sched req)
    = CallOpenAI prompt :: search_calls (year req) (sorted_data response_data).
Proof.
  intros Ht (relevant & completion & Hr & Hc & Hp).
  exists (prompt_of req relevant).
  rewrite handle_unfold, (topic_given_accepted _ Ht), Hr. simpl. rewrite Hc. simpl.
  by rewrite Hp.
Qed.

(** The resolver gives no more results than it asked for, when the
    provider honours [num]. *)
Lemma resolved_sources_at_most_three w query :
  (forall p response d l,
      axios_get w p = Some response -> data response = Some d -> items d = Some l ->
      (length l <= num p)%nat) ->
  (length (resolved_sources w query) <= 3)%nat.
Proof.
  intros H. unfold resolved_sources.
  destruct (axios_get w _) as [[[[[l|]]|]]|] eqn:E; simpl; try lia.
  rewrite length_map. by apply (H _ _ _ _ E eq_refl eq_refl).
Qed.

Lemma same_category_names l l' :
  Forall2 same_category l l' -> map category l' = map category l.
Proof. induction 1 as [|c c' l l' (E & _) _ IH]; simpl; [done|]. by rewrite E, IH. Qed.

(** The categories of a reply are the sorted ones, by name. *)
Lemma weights_categories w req response_data :
  map category (weights_of (respond req (sorted_data response_data)
                              (map (enhanced w (year req)) (sorted_data response_data))))
  = map category (sorted_data response_data).
Proof.
  rewrite respond_weights, (same_category_names _ _ (assign_citations_same _ _)).
  rewrite map_map. reflexivity.
Qed.

Lemma count_linked_take_lt l i j s :
  (i < j)%nat -> l !! i = Some s -> linked s ->
  (count_linked (take i l) < count_linked (take j l))%nat.
Proof.
  revert i j. induction l as [|s0 l IH]; intros i j Hij Hi Hs; [done|].
  destruct j as [|j]; [lia|]. destruct i as [|i]; simpl in *.
  - injection Hi as ->. rewrite count_linked_cons, Hs. unfold count_linked. simpl. lia.
  - rewrite !count_linked_cons. apply (IH i j) in Hi; [lia|lia|done].
Qed.

(** What a fact of a reply holds: the results of its own lookup. *)
Lemma weights_lookup w req response_data ci fi c f :
  sorted_data response_data !! ci = Some c ->
  facts c !! fi = Some f ->
  exists c' ef,
    weights_of (respond req (sorted_data response_data)
                  (map (enhanced w (year req)) (sorted_data response_data))) !! ci = Some c'
    /\ facts c' !! fi = Some ef
    /\ fact ef = f
    /\ Forall2 same_result (resolved_sources w (search_query (year req) f)) (sources ef).
Proof.
  intros Hc Hf. rewrite respond_weights.
  pose proof (assign_citations_same new_registry
                (map (enhanced w (year req)) (sorted_data response_data))) as H.
  eapply Forall2_lookup_l in H as (c' & Hc' & _ & _ & _ & Hfs);
    [|by rewrite list_lookup_fmap, Hc].
  simpl in Hfs.
  eapply Forall2_lookup_l in Hfs as (ef & Hef & Hfact & Hsrc);
    [|by rewrite list_lookup_fmap, Hf].
  exists c', ef. done.
Qed.

(** ** The registry's export *)

Lemma Map_set_fresh {V} key (v : V) m :
  Forall (fun kv => kv.1 <> key) m -> Map_set key v m = m ++ [(key, v)].
Proof.
  induction 1 as [|[k v'] m Hk _ IH]; simpl; [done|].
  simpl in Hk. destruct (Nat.eqb_spec k key); [done|]. by rewrite IH.
Qed.

(** The keys of [citationMap] after a walk: the ids given, in that order. *)
Lemma assign_walk_keys r l :
  Forall (fun kv => (kv.1 < citationCounter r)%nat) (citationMap r) ->
  map fst (citationMap (map_accum assign r l).1)
  = map fst (citationMap r) ++ seq (citationCounter r) (count_linked l).
Proof.
  revert r. induction l as [|s l IH]; intros r Hr.
  - simpl. unfold count_linked. simpl. by rewrite app_nil_r.
  - rewrite map_accum_cons, count_linked_cons. simpl.
    set (r1 := (assign r s).1).
    destruct (ToBoolean (link s)) eqn:El.
    + assert (r1 = {| citationMap :=
                        citationMap r
                        ++ [(citationCounter r,
                             with_citation s (bracket (citationCounter r)))];
                      citationCounter := S (citationCounter r) |}) as ->.
      { subst r1. unfold assign. rewrite El. simpl. rewrite Map_set_fresh; [done|].
        eapply Forall_impl; [exact Hr|]. simpl. intros. lia. }
      rewrite IH; simpl.
      * rewrite map_app, <- app_assoc. reflexivity.
      * apply Forall_app. split.
        -- eapply Forall_impl; [exact Hr|]. simpl. intros. lia.
        -- repeat constructor.
    + assert (r1 = r) as -> by (subst r1; unfold assign; by rewrite El).
      by apply IH.
Qed.

(** [combinedSources] lists one entry per id, the ids ascending from 1; its
    [source] and [ground_news_link] read properties a search result does
    not have. *)
Lemma combinedSources_ascending enhancedData :
  map combined_citation (combinedSources (assign_citations new_registry enhancedData).1)
  = map bracket (seq 1 (count_linked (flat_sources enhancedData)))
  /\ Forall (fun e => combined_source e = VUndefined /\ combined_ground_news_link e = VUndefined)
       (combinedSources (assign_citations new_registry enhancedData).1).
Proof.
  split.
  - rewrite (proj1 (assign_citations_flat _ _)).
    pose proof (assign_walk_keys new_registry (flat_sources enhancedData)) as H.
    simpl in H. rewrite <- H by constructor.
    unfold combinedSources. rewrite !map_map. apply map_ext. by intros [k v].
  - unfold combinedSources. apply Forall_fmap, Forall_forall. by intros [k v] _.
Qed.

(** * The claims *)

(** C2, amended. For every category sequence and every daysPerYear, the
    aggregator returns
    totalHours = round((averageWeight / 10) × ((daysPerYear × 24) / 5) ×
    relevanceModifier) with every sum, product and quotient rounded to
    binary64: averageWeight is the sum of all the weights (the Personal
    Relevance one included), taken from 0 in the order of the sequence,
    divided by the category count, and relevanceModifier is 1 + w/10 when a
    Personal Relevance category of weight w is present and 1 otherwise. The
    two worked examples of the specification give 29 and 41. With weights
    in [1,10] the rounded average is in [1,10] and the rounded modifier in
    [1,2], as their exact values are. *)
Theorem calculateWeightsAndHours_formula :
  (forall (categories : list (Category EnhancedFact)) (daysPerYear : value),
      let totalWeight := fold_left Number_add (map weight categories) (Finite 0) in
      let averageWeight := (totalWeight / of_nat (length categories))%num in
      let relevanceModifier := binary64_relevanceModifier categories in
      totalHours (calculateWeightsAndHours categories daysPerYear)
      = Math_round ((averageWeight / Finite 10)
                    * ((ToNumber daysPerYear * Finite 24) / Finite 5)
                    * relevanceModifier)%num
      /\ (Forall (fun c => is_personal_relevance c = false) categories ->
          relevanceModifier = Finite 1)
      /\ (forall c, c ∈ categories -> is_personal_relevance c = true ->
          (forall c', c' ∈ categories -> is_personal_relevance c' = true ->
                      weight c' = weight c) ->
          relevanceModifier = (Finite 1 + weight c / Finite 10)%num)
      /\ (categories <> [] -> Z.of_nat (length categories) < 2 ^ 32 ->
          Forall weight_in_range categories ->
          exists a m, averageWeight = Finite a /\ (1 <= a <= 10)%Q
                      /\ relevanceModifier = Finite m /\ (1 <= m <= 2)%Q))
  /\ totalHours (calculateWeightsAndHours example_categories (VNum (Finite 10))) = Finite 29
  /\ totalHours (calculateWeightsAndHours (example_categories ++ [example_personal])
                   (VNum (Finite 10))) = Finite 41.
Proof.
  split; [|split; vm_compute; reflexivity].
  intros categories daysPerYear totalWeight averageWeight relevanceModifier.
  split; [|split; [|split]].
  - apply totalHours_formula.
  - intros Hno. subst relevanceModifier. unfold binary64_relevanceModifier.
    destruct (last _) as [c|] eqn:E; [|done].
    apply last_Some_elem_of, list_elem_of_filter in E as [E Hc].
    rewrite Forall_forall in Hno. rewrite (Hno _ Hc) in E. done.
  - intros c Hc Hpr Hsame. subst relevanceModifier. unfold binary64_relevanceModifier.
    destruct (last _) as [c'|] eqn:E.
    + apply last_Some_elem_of, list_elem_of_filter in E as [E Hc'].
      by rewrite (Hsame c' Hc' E).
    + apply last_None in E.
      assert (c ∈ filter (fun c => is_personal_relevance c = true) categories) as Hin
        by by apply list_elem_of_filter.
      rewrite E in Hin. by apply elem_of_nil in Hin.
  - intros Hne Hn H.
    destruct (binary64_averageWeight_bounds categories Hne ltac:(lia) H) as (a & Ea & Ha).
    destruct (binary64_relevanceModifier_bounds categories H) as (m & Em & Hm & _).
    by exists a, m.
Qed.

Lemma calculateWeightsAndHours_formula_witness :
  binary64_relevanceModifier (example_categories ++ [example_personal])
  = (Finite 1 + Finite 5 / Finite 10)%num
  /\ exists a m,
      (fold_left Number_add (map weight (example_categories ++ [example_personal])) (Finite 0)
       / of_nat (length (example_categories ++ [example_personal])))%num = Finite a
      /\ (1 <= a <= 10)%Q
      /\ binary64_relevanceModifier (example_categories ++ [example_personal]) = Finite m
      /\ (1 <= m <= 2)%Q.
Proof.
  destruct (proj1 calculateWeightsAndHours_formula
              (example_categories ++ [example_personal]) (VStr "10")) as (_ & _ & Hm & Hb).
  split.
  - apply (Hm example_personal).
    + apply elem_of_app. right. apply list_elem_of_here.
    + reflexivity.
    + intros c' Hc' Hpr. unfold example_categories in Hc'. simpl in Hc'.
      repeat (apply elem_of_cons in Hc' as [->|Hc']; [reflexivity || discriminate Hpr|]).
      by apply elem_of_nil in Hc'.
  - apply Hb.
    + discriminate.
    + reflexivity.
    + repeat constructor; eexists; (split; [reflexivity|]); split; discriminate.
Defined.

(** C2 as stated fails where the exact product is a tie that the rounded
    one falls short of: for the four categories of the second worked
    example and 75 days the formula gives round(310.5) = 311, and the code,
    whose product is 310.49999999999994, returns 310. *)
Lemma totalHours_off_the_exact_formula :
  example_categories ++ [example_personal] <> []
  /\ Forall weight_in_range (example_categories ++ [example_personal])
  /\ (spec_averageWeight (example_categories ++ [example_personal]) / 10
      * (75 * 24 / 5)
      * spec_relevanceModifier (example_categories ++ [example_personal]) == 621 # 2)%Q
  /\ spec_totalHours (example_categories ++ [example_personal]) 75 = 311
  /\ totalHours (calculateWeightsAndHours (example_categories ++ [example_personal])
                   (VNum (Finite 75))) = Finite 310
  /\ totalHours (calculateWeightsAndHours (example_categories ++ [example_personal])
                   (VNum (Finite 75))) <> of_Z 311.
Proof.
  split; [discriminate|]. split.
  { repeat constructor; eexists; (split; [reflexivity|]); split; discriminate. }
  split; [reflexivity|]. split; [reflexivity|].
  assert (totalHours (calculateWeightsAndHours (example_categories ++ [example_personal])
                        (VNum (Finite 75))) = Finite 310) as E
    by (vm_compute; reflexivity).
  split; [exact E|]. rewrite E. discriminate.
Qed.

(** C6, amended. For every non-empty category sequence (an array: fewer
    than 2^32 elements) with weights in [1,10] and every daysPerYear > 0,
    the aggregator's totalHours is a non-negative integer or, once
    daysPerYear × 24 is past the binary64 range, Infinity: it is an integer
    for every daysPerYear up to 2^1019; and it does not decrease when
    daysPerYear grows while the categories stay the same. *)
Theorem totalHours_nonnegative_monotone :
  forall (categories : list (Category EnhancedFact)) (d1 d2 : Q),
    categories <> [] ->
    Z.of_nat (length categories) < 2 ^ 32 ->
    Forall weight_in_range categories ->
    (0 < d1)%Q -> (d1 <= d2)%Q ->
    let hours d := totalHours (calculateWeightsAndHours categories (VNum (Finite d))) in
    integer_or_infinity (hours d1)
    /\ integer_or_infinity (hours d2)
    /\ Number_le (hours d1) (hours d2) = true
    /\ ((d2 <= 2 ^ 1019)%Q ->
        exists h1 h2 : Z, hours d1 = of_Z h1 /\ hours d2 = of_Z h2 /\ 0 <= h1 <= h2).
Proof.
  intros categories d1 d2 Hne Hn H Hd1 Hd12 hours. subst hours. cbv beta.
  destruct (totalHours_factors categories Hne ltac:(lia) H)
    as (a & m & _ & _ & Ha & Hm & _ & _ & _ & E).
  rewrite !E. cbn [ToNumber].
  destruct (fifth_le d1 d2 ltac:(lra) Hd12) as [H0 H12].
  destruct (fifth_le d2 d2 ltac:(lra) ltac:(lra)) as [H0' _].
  destruct (product_le a a m m _ _ ltac:(lra) ltac:(lra) ltac:(lra) ltac:(lra) H0 H12)
    as [Hi1 Hle].
  destruct (product_le a a m m _ _ ltac:(lra) ltac:(lra) ltac:(lra) ltac:(lra) H0'
              (Number_le_refl _ H0')) as [Hi2 _].
  split; [done|]. split; [done|]. split; [done|].
  intros Hd2.
  destruct (fifth_le d2 (2 ^ 1019) ltac:(lra) Hd2) as [_ Hmax].
  destruct (product_le a 1 m 2 _ _ ltac:(lra) ltac:(lra) ltac:(lra) ltac:(lra) H0' Hmax)
    as [_ Hle2].
  assert (exists b, Math_round (Finite 1 * (Finite (2 ^ 1019) * Finite 24 / Finite 5) * Finite 2)
                    = Finite b) as (b & Eb) by (vm_compute; eexists; reflexivity).
  rewrite Eb in Hle2.
  destruct (integer_or_infinity_bounded _ b Hi2 Hle2) as (h2 & Hh2 & E2).
  destruct (integer_or_infinity_bounded _ b Hi1 (Number_le_trans _ _ _ Hle Hle2))
    as (h1 & Hh1 & E1).
  exists h1, h2. split; [done|]. split; [done|]. split; [done|].
  rewrite E1, E2 in Hle. apply Number_le_Finite in Hle. by rewrite <- Zle_Qle in Hle.
Qed.

Lemma totalHours_nonnegative_monotone_witness :
  exists h1 h2 : Z,
    totalHours (calculateWeightsAndHours example_categories (VNum (Finite 10))) = of_Z h1
    /\ totalHours (calculateWeightsAndHours example_categories (VNum (Finite 20))) = of_Z h2
    /\ 0 <= h1 <= h2.
Proof.
  apply (totalHours_nonnegative_monotone example_categories 10 20).
  - discriminate.
  - reflexivity.
  - repeat constructor; eexists; (split; [reflexivity|]); split; discriminate.
  - reflexivity.
  - discriminate.
  - vm_compute. discriminate.
Defined.

(** C6 as stated fails on the empty category sequence, where the average is
    0/0, and the integer it promises is lost past the binary64 range: for
    daysPerYear = 2^1023, or 1e308, the product daysPerYear × 24 is
    Infinity. *)
Lemma totalHours_empty_is_NaN :
  Forall weight_in_range (@nil (Category EnhancedFact))
  /\ (0 < 10)%Q
  /\ totalHours (calculateWeightsAndHours (@nil (Category EnhancedFact)) (VNum (Finite 10))) = NaN
  /\ (forall h : Z,
      totalHours (calculateWeightsAndHours (@nil (Category EnhancedFact)) (VNum (Finite 10)))
      <> of_Z h)
  /\ Forall weight_in_range example_categories
  /\ binary64 (2 ^ 1023) = Finite (2 ^ 1023)
  /\ totalHours (calculateWeightsAndHours example_categories (VNum (Finite (2 ^ 1023))))
     = Infinite false
  /\ totalHours (calculateWeightsAndHours example_categories (VStr "1e308")) = Infinite false.
Proof.
  split; [constructor|]. split; [reflexivity|]. split; [vm_compute; reflexivity|].
  split; [discriminate|]. split.
  { repeat constructor; eexists; (split; [reflexivity|]); split; discriminate. }
  repeat split; vm_compute; reflexivity.
Qed.

(** C8. For every request whose topic is missing, empty or made of white
    space only, the handler replies 400 with the body
    {error: "Topic input is required."} and makes no external call: neither
    the generation call nor a search. *)
Theorem blank_topic_rejected :
  forall (w : World) (sched : Schedule) (req : Body),
    topic_blank req ->
    handle w sched req
    = {| calls := [];
         reply := Some {| status := 400;
                          body := [("error", FText [Lit "Topic input is required."])] |} |}.
Proof.
  intros w sched req H. rewrite handle_unfold, (topic_blank_missing req H). reflexivity.
Qed.

Lemma blank_topic_rejected_witness :
  handle sample_world sample_schedule blank_request
  = {| calls := [];
       reply := Some {| status := 400;
                        body := [("error", FText [Lit "Topic input is required."])] |} |}.
Proof.
  apply (blank_topic_rejected sample_world sample_schedule blank_request).
  right. right. exists "   ". split; [reflexivity|]. repeat constructor.
Defined.

(** C10. The handler validates the topic only: for every request with a
    topic, whatever daysPerYear is (missing, not a number), the reply is
    never a 400, the generation call is made once the personal impact is
    read, and the aggregator works on daysPerYear × 24 unguarded, so that a
    200 reply to a request without daysPerYear, or with one that is not a
    number, has NaN for totalHours. *)
Theorem daysPerYear_unchecked :
  forall (w : World) (sched : Schedule) (req : Body),
    topic_given req ->
    (forall r, reply (handle w sched req) = Some r -> status r <> 400%nat)
    /\ (forall relevant, personally_relevant req = Fulfilled relevant ->
        exists rest, calls (handle w sched req) = CallOpenAI (prompt_of req relevant) :: rest)
    /\ (forall r, reply (handle w sched req) = Some r -> status r = 200%nat ->
        get "totalHours" (body r)
        = Some (FNumber (totalHours (calculateWeightsAndHours (weights_of r)
                                       (daysPerYear req)))))
    /\ (forall r, reply (handle w sched req) = Some r -> status r = 200%nat ->
        daysPerYear req = VUndefined \/ ToNumber (daysPerYear req) = NaN ->
        get "totalHours" (body r) = Some (FNumber NaN)).
Proof.
  intros w sched req Ht.
  assert (forall r, reply (handle w sched req) = Some r -> status r = 200%nat ->
            get "totalHours" (body r)
            = Some (FNumber (totalHours (calculateWeightsAndHours (weights_of r)
                                           (daysPerYear req))))) as H200.
  { intros r Hr Hs. destruct (handle_200_reply w sched req r Hr Hs) as (rd & _ & _ & ->).
    rewrite respond_weights.
    destruct (respond_body req (sorted_data rd) (map (enhanced w (year req)) (sorted_data rd)))
      as (d & c & ->). reflexivity. }
  split; [|split; [|split]].
  - intros r. rewrite handle_unfold, (topic_given_accepted req Ht).
    destruct (personally_relevant req); simpl; try (intros [= <-]; discriminate);
      try discriminate.
    destruct (openai_parse w _) as [c|]; simpl; try (intros [= <-]; discriminate).
    destruct (first_parsed c); simpl; try (intros [= <-]; discriminate); try discriminate.
    destruct (Promise_all _); try (intros [= <-]; discriminate); try discriminate.
    intros [= <-]. by rewrite respond_status.
  - intros relevant Hr. rewrite handle_unfold, (topic_given_accepted req Ht), Hr. simpl.
    destruct (openai_parse w _) as [c|]; simpl; eauto.
    destruct (first_parsed c); simpl; eauto.
  - exact H200.
  - intros r Hr Hs Hd. rewrite (H200 r Hr Hs). do 2 f_equal.
    apply totalHours_NaN. destruct Hd as [-> | ->]; reflexivity.
Qed.

Lemma daysPerYear_unchecked_witness :
  exists r,
    reply (handle sample_world sample_schedule sample_request_no_days) = Some r
    /\ status r = 200%nat
    /\ get "totalHours" (body r) = Some (FNumber NaN).
Proof.
  destruct (daysPerYear_unchecked sample_world sample_schedule sample_request_no_days)
    as (_ & _ & _ & H).
  - exists " taxes ". split; [reflexivity|discriminate].
  - eexists. split; [reflexivity|]. split; [reflexivity|].
    apply H; [reflexivity|reflexivity|]. left. reflexivity.
Defined.

(** C3, as the code has it. Every reply with status 200 is the object with
    the keys weights, totalHours, totalHoursDescription and analysisContext,
    in that order: it has no sources field. *)
Theorem reply_without_sources :
  forall (w : World) (sched : Schedule) (req : Body) (r : Reply),
    reply (handle w sched req) = Some r ->
    status r = 200%nat ->
    map fst (body r) = ["weights"; "totalHours"; "totalHoursDescription"; "analysisContext"]
    /\ get "sources" (body r) = None.
Proof.
  intros w sched req r Hr Hs.
  destruct (handle_200_reply w sched req r Hr Hs) as (rd & _ & _ & ->).
  destruct (respond_body req (sorted_data rd) (map (enhanced w (year req)) (sorted_data rd)))
    as (d & c & ->). split; reflexivity.
Qed.

Lemma reply_without_sources_witness :
  exists r,
    reply (handle sample_world sample_schedule sample_request) = Some r
    /\ status r = 200%nat
    /\ map fst (body r) = ["weights"; "totalHours"; "totalHoursDescription"; "analysisContext"]
    /\ get "sources" (body r) = None.
Proof.
  eexists. split; [reflexivity|]. split; [reflexivity|].
  apply (reply_without_sources sample_world sample_schedule sample_request); reflexivity.
Defined.

(** C9, as the code has it. The query of a lookup is the fact, a space and
    the year as a string, whether or not the request has a year: for a
    request without a year every fact is looked up as "<fact> undefined",
    with [num] set to 3. *)
Theorem query_without_year :
  forall (w : World) (sched : Schedule) (req : Body) (response_data : list (Category string)),
    topic_given req ->
    generates w req response_data ->
    year req = VUndefined ->
    exists prompt,
      calls (handle w sched req)
      = CallOpenAI prompt
        :: map (fun fact => CallSearch {| q := [Lit fact; Lit " "; Lit "undefined"]; num := 3 |})
               (concat (map facts (sorted_data response_data)))
    /\ forall fact, literal (search_query (year req) fact) = Some (fact +:+ " undefined").
Proof.
  intros w sched req rd Ht Hg Hy.
  destruct (handle_calls w sched req rd Ht Hg) as (prompt & ->).
  exists prompt. rewrite Hy. split; [reflexivity|].
  intros fact. reflexivity.
Qed.

Lemma query_without_year_witness :
  exists prompt,
    calls (handle sample_world sample_schedule sample_request)
    = CallOpenAI prompt
      :: map (fun fact => CallSearch {| q := [Lit fact; Lit " "; Lit "undefined"]; num := 3 |})
             ["s1"; "s2"; "r1"; "p1"]
    /\ forall fact, literal (search_query VUndefined fact) = Some (fact +:+ " undefined").
Proof.
  apply (query_without_year sample_world sample_schedule sample_request sample_data).
  - exists " taxes ". split; [reflexivity|discriminate].
  - exists false. eexists. repeat split; reflexivity.
  - reflexivity.
Defined.


(** C5. Whatever the order in which the provider returns the categories,
    the weights of the reply list the same categories sorted by their place
    in the display order {Statistical Impact, Social Relevance, Policy
    Impact Potential, Personal Relevance}: for categories of that set, each
    returned once, the weights are the display order restricted to them, and
    exactly the display order when the four are returned. *)
Theorem weights_in_display_order :
  forall (w : World) (sched : Schedule) (req : Body) (response_data : list (Category string)),
    topic_given req ->
    generates w req response_data ->
    complete sched (sorted_data response_data) ->
    exists r,
      reply (handle w sched req) = Some r
      /\ status r = 200%nat
      /\ map category (weights_of r) ≡ₚ map category response_data
      /\ in_display_order (map category (weights_of r))
      /\ (NoDup (map category response_data) ->
          Forall (fun n => n ∈ sortOrder) (map category response_data) ->
          map category (weights_of r)
          = filter (fun n => n ∈ map category response_data) sortOrder)
      /\ (map category response_data ≡ₚ sortOrder ->
          map category (weights_of r) = sortOrder).
Proof.
  intros w sched req rd Ht Hg Hs.
  destruct (handle_success w sched req rd Ht Hg Hs) as (relevant & _ & ->).
  eexists. split; [reflexivity|]. split; [apply respond_status|].
  rewrite weights_categories.
  assert (map category (sorted_data rd) ≡ₚ map category rd) as Hperm
    by by rewrite sorted_data_perm.
  pose proof (sorted_data_in_order rd) as Hord.
  assert (NoDup sortOrder) as Hnd.
  { unfold sortOrder.
    repeat constructor; rewrite ?elem_of_cons, ?elem_of_nil; intuition discriminate. }
  split; [done|]. split; [done|]. split.
  - intros Hnd' Hin. by apply display_order_unique.
  - intros Hall.
    rewrite (display_order_unique sortOrder (map category (sorted_data rd)));
      [reflexivity|done|by apply Forall_forall|by rewrite Hperm|done].
Qed.

Lemma weights_in_display_order_witness :
  exists r,
    reply (handle sample_world sample_schedule' sample_request) = Some r
    /\ status r = 200%nat
    /\ map category (weights_of r)
       = ["Statistical Impact"; "Social Relevance"; "Policy Impact Potential"].
Proof.
  destruct (weights_in_display_order sample_world sample_schedule' sample_request sample_data)
    as (r & Hr & Hs & _ & _ & H & _).
  - exists " taxes ". split; [reflexivity|discriminate].
  - exists false. eexists. repeat split; reflexivity.
  - apply covers_complete. reflexivity.
  - exists r. split; [exact Hr|]. split; [exact Hs|]. rewrite H.
    + reflexivity.
    + repeat constructor; rewrite ?elem_of_cons, ?elem_of_nil; intuition discriminate.
    + repeat constructor; rewrite ?elem_of_cons; auto.
Defined.

(** C7. The resolver never raises: a lookup that fails, by a transport or
    a provider error, gives the empty list. The failure stays with its fact:
    in the reply, which has status 200, every fact holds the results of its
    own lookup, the facts whose lookup failed holding none. *)
Theorem failed_lookup_isolated :
  forall (w : World) (sched : Schedule) (req : Body) (response_data : list (Category string)),
    topic_given req ->
    generates w req response_data ->
    complete sched (sorted_data response_data) ->
    (forall query,
        exists l, fetchRealSources w query = Fulfilled l
                  /\ (axios_get w (fetchRealSources_params query) = None -> l = []))
    /\ exists r,
        reply (handle w sched req) = Some r
        /\ status r = 200%nat
        /\ forall ci fi c f,
            sorted_data response_data !! ci = Some c ->
            facts c !! fi = Some f ->
            exists c' ef,
              weights_of r !! ci = Some c'
              /\ facts c' !! fi = Some ef
              /\ fact ef = f
              /\ Forall2 same_result (resolved_sources w (search_query (year req) f))
                                     (sources ef)
              /\ (axios_get w (fetchRealSources_params (search_query (year req) f)) = None ->
                  sources ef = []).
Proof.
  intros w sched req rd Ht Hg Hs. split.
  - intros query. exists (resolved_sources w query).
    split; [apply fetchRealSources_fulfilled|].
    intros H. unfold resolved_sources. by rewrite H.
  - destruct (handle_success w sched req rd Ht Hg Hs) as (relevant & _ & ->).
    eexists. split; [reflexivity|]. split; [apply respond_status|].
    intros ci fi c f Hc Hf.
    destruct (weights_lookup w req rd ci fi c f Hc Hf) as (c' & ef & Hc' & Hef & Hfact & Hsrc).
    exists c', ef. repeat split; try done.
    intros H. unfold resolved_sources in Hsrc. rewrite H in Hsrc. by inversion Hsrc.
Qed.

Lemma failed_lookup_isolated_witness :
  axios_get sample_world (fetchRealSources_params (search_query VUndefined "s2")) = None
  /\ exists r c' ok failed,
      reply (handle sample_world sample_schedule' sample_request) = Some r
      /\ status r = 200%nat
      /\ weights_of r !! 0%nat = Some c'
      /\ facts c' !! 0%nat = Some ok
      /\ length (sources ok) = 2%nat
      /\ facts c' !! 1%nat = Some failed
      /\ sources failed = [].
Proof.
  split; [reflexivity|].
  destruct (failed_lookup_isolated sample_world sample_schedule' sample_request sample_data)
    as (_ & r & Hr & Hs & H).
  - exists " taxes ". split; [reflexivity|discriminate].
  - exists false. eexists. repeat split; reflexivity.
  - apply covers_complete. reflexivity.
  - destruct (H 0%nat 0%nat _ "s1" eq_refl eq_refl) as (c1 & ok & Hc1 & Hok & _ & Hsame & _).
    destruct (H 0%nat 1%nat _ "s2" eq_refl eq_refl) as (c2 & failed & Hc2 & Hf & _ & _ & Hnone).
    rewrite Hc1 in Hc2. injection Hc2 as <-.
    exists r, c1, ok, failed. repeat split; try assumption.
    + rewrite <- (Forall2_length _ _ _ Hsame). reflexivity.
    + apply Hnone. reflexivity.
Defined.

(** C4. The citation ids are given in one pass over the collected sources,
    after every lookup has settled: a source comes out of its lookup with no
    citation, and for two orders in which the lookups settle the request
    runs the same, calls and reply. In the reply the sources, walked by
    category, then fact, then source, are numbered from 1 in the order they
    are met: a source with a link has the id one above the number of linked
    sources before it, so the ids grow strictly along the walk, and a source
    with no link has no id. *)
Theorem citation_numbering_deterministic :
  forall (w : World) (sched sched' : Schedule) (req : Body)
         (response_data : list (Category string)),
    topic_given req ->
    generates w req response_data ->
    complete sched (sorted_data response_data) ->
    complete sched' (sorted_data response_data) ->
    handle w sched req = handle w sched' req
    /\ (forall query l, fetchRealSources w query = Fulfilled l ->
                        Forall (fun s => citation s = None) l)
    /\ exists r,
        reply (handle w sched req) = Some r
        /\ status r = 200%nat
        /\ Forall2 same_result
             (flat_sources (map (enhanced w (year req)) (sorted_data response_data)))
             (flat_sources (weights_of r))
        /\ (forall i s, flat_sources (weights_of r) !! i = Some s ->
            citation s
            = if ToBoolean (link s)
              then Some (bracket (S (count_linked (take i (flat_sources (weights_of r))))))
              else None)
        /\ (forall i j si sj,
               (i < j)%nat ->
               flat_sources (weights_of r) !! i = Some si ->
               flat_sources (weights_of r) !! j = Some sj ->
               linked si -> linked sj ->
               exists a b, citation si = Some (bracket a) /\ citation sj = Some (bracket b)
                           /\ (1 <= a < b)%nat).
Proof.
  intros w sched sched' req rd Ht Hg Hs Hs'.
  destruct (handle_success w sched req rd Ht Hg Hs) as (relevant & Hr & E).
  destruct (handle_success w sched' req rd Ht Hg Hs') as (relevant' & Hr' & E').
  rewrite Hr in Hr'. injection Hr' as <-.
  split; [by rewrite E, E'|]. split.
  { intros query l. rewrite fetchRealSources_fulfilled. intros [= <-].
    apply resolved_sources_uncited. }
  rewrite E. eexists. split; [reflexivity|]. split; [apply respond_status|].
  rewrite respond_weights.
  set (ed := map (enhanced w (year req)) (sorted_data rd)).
  assert (forall i s, flat_sources (assign_citations new_registry ed).2 !! i = Some s ->
            citation s
            = if ToBoolean (link s)
              then Some (bracket (S (count_linked
                                       (take i (flat_sources
                                                  (assign_citations new_registry ed).2)))))
              else None) as Hcite.
  { intros i s. apply cited_lookup. apply enhanced_uncited. }
  split; [|split; [exact Hcite|]].
  - rewrite (proj2 (assign_citations_flat _ _)).
    apply map_accum_Forall2. intros. apply assign_same_result.
  - intros i j si sj Hij Hi Hj Hli Hlj.
    rewrite (Hcite i si Hi), (Hcite j sj Hj), Hli, Hlj.
    do 2 eexists. split; [reflexivity|]. split; [reflexivity|].
    pose proof (count_linked_take_lt _ i j si Hij Hi Hli). lia.
Qed.

Lemma citation_numbering_deterministic_witness :
  handle sample_world sample_schedule sample_request
  = handle sample_world sample_schedule' sample_request
  /\ exists r,
      reply (handle sample_world sample_schedule sample_request) = Some r
      /\ map citation (flat_sources (weights_of r))
         = [Some "[1]"; Some "[2]"; None; Some "[3]"].
Proof.
  destruct (citation_numbering_deterministic sample_world sample_schedule sample_schedule'
              sample_request sample_data) as (E & _ & r & Hr & _ & _ & _ & _).
  - exists " taxes ". split; [reflexivity|discriminate].
  - exists false. eexists. repeat split; reflexivity.
  - apply covers_complete. reflexivity.
  - apply covers_complete. reflexivity.
  - split; [exact E|]. exists r. split; [exact Hr|].
    injection Hr as <-. reflexivity.
Defined.

(** C1, amended. The citation pass numbers source objects, not links:
    every source with a link takes the value of the counter as its id and
    moves the counter by one, whether or not an earlier source had the same
    link. Of two sources of the walk that share a link, the later one gets
    an id of its own, greater than the earlier one's, and the counter ends
    as many steps up as the walk has sources with a link. *)
Theorem citation_per_source :
  forall (r : Registry) (enhancedData : list (Category EnhancedFact)) (i j : nat)
         (si sj : Source),
    (i < j)%nat ->
    flat_sources enhancedData !! i = Some si ->
    flat_sources enhancedData !! j = Some sj ->
    linked si ->
    link sj = link si ->
    let walk := flat_sources enhancedData in
    let out := assign_citations r enhancedData in
    let a := (citationCounter r + count_linked (take i walk))%nat in
    let b := (citationCounter r + count_linked (take j walk))%nat in
    flat_sources out.2 !! i = Some (with_citation si (bracket a))
    /\ flat_sources out.2 !! j = Some (with_citation sj (bracket b))
    /\ (a < b)%nat
    /\ bracket a <> bracket b
    /\ citationCounter out.1 = (citationCounter r + count_linked walk)%nat.
Proof.
  intros r ed i j si sj Hij Hi Hj Hli Hlink walk out a b.
  destruct (assign_citations_flat r ed) as [E1 E2].
  assert (a < b)%nat as Hab.
  { pose proof (count_linked_take_lt _ i j si Hij Hi Hli). subst a b walk. lia. }
  subst out walk. rewrite E1, E2.
  rewrite (assign_walk_lookup _ _ _ _ Hi), (assign_walk_lookup _ _ _ _ Hj).
  rewrite Hlink, Hli. repeat split; try done.
  - intros Hb. apply bracket_inj in Hb. lia.
  - apply assign_walk_counter.
Qed.

Lemma citation_per_source_witness :
  let page := {| title := VStr "t"; link := VStr "a"; snippet := VStr "s"; citation := None |} in
  let enhancedData :=
    [ {| category := "Statistical Impact"; weight := Finite 8;
         facts := [ {| fact := "s1"; sources := [page] |};
                    {| fact := "s2"; sources := [page] |} ];
         reasoning := "" |} ] in
  let out := assign_citations new_registry enhancedData in
  flat_sources out.2 = [with_citation page "[1]"; with_citation page "[2]"]
  /\ citationCounter out.1 = 3%nat.
Proof.
  intros page enhancedData out.
  destruct (citation_per_source new_registry enhancedData 0 1 page page)
    as (H1 & H2 & _ & _ & H).
  - lia.
  - reflexivity.
  - reflexivity.
  - reflexivity.
  - reflexivity.
  - split; [reflexivity|exact H].
Defined.

(** C1 as stated fails: in the sample the first page found for [s1] is found
    again for [r1], with the same link, and it is cited as [1] and as [3];
    and assigning twice to one source moves the counter twice. *)
Lemma same_link_two_ids :
  (exists r s1 s2,
      reply (handle sample_world sample_schedule sample_request) = Some r
      /\ flat_sources (weights_of r) !! 0%nat = Some s1
      /\ flat_sources (weights_of r) !! 3%nat = Some s2
      /\ link s1 = VStr "a" /\ link s2 = VStr "a"
      /\ citation s1 = Some "[1]" /\ citation s2 = Some "[3]")
  /\ (let page := source_of_item (sample_item (VStr "a")) in
      let first := assign new_registry page in
      let second := assign first.1 page in
      citation first.2 = Some "[1]" /\ citation second.2 = Some "[2]"
      /\ citationCounter first.1 = 2%nat /\ citationCounter second.1 = 3%nat).
Proof.
  split.
  - do 3 eexists. repeat split; reflexivity.
  - repeat split; reflexivity.
Qed.

(** * Further properties of the code *)

(** ** The paths of [POST /calculate-weight] *)

Lemma topic_missing_true_iff req :
  topic_missing req = Fulfilled true
  <-> ToBoolean (topic req) = false \/ exists s, topic req = VStr s /\ all_white_space s.
Proof.
  unfold topic_missing. destruct (ToBoolean (topic req)) eqn:Eb; simpl.
  - split.
    + destruct (topic req) as [| | | |s|]; simpl; try discriminate.
      destruct (trim s) eqn:Et; simpl; [|discriminate].
      intros _. right. exists s. split; [done|]. by apply trim_empty.
    + intros [?|(s & -> & H)]; [discriminate|]. simpl.
      apply trim_empty in H. by rewrite H.
  - split; [by left|done].
Qed.

(** X1. The handler answers 400 exactly when the topic is falsy (absent,
    null, false, 0, NaN, the empty string) or is a string of white space
    only. *)
Theorem bad_request_iff :
  forall (w : World) (sched : Schedule) (req : Body),
    (exists r, reply (handle w sched req) = Some r /\ status r = 400%nat)
    <-> (ToBoolean (topic req) = false
         \/ exists s, topic req = VStr s /\ all_white_space s).
Proof.
  intros w sched req. rewrite <- topic_missing_true_iff, handle_unfold.
  destruct (topic_missing req) as [[|]| |]; simpl.
  - split; [done|]. intros _. eexists. split; reflexivity.
  - split; [|discriminate]. intros (r & Hr & Hs). exfalso.
    destruct (personally_relevant req); simpl in Hr; try (injection Hr as <-); try discriminate.
    destruct (openai_parse w _) as [c|]; simpl in Hr; try (injection Hr as <-);
      try discriminate.
    destruct (first_parsed c); simpl in Hr; try (injection Hr as <-); try discriminate.
    destruct (Promise_all _); try (injection Hr as <-); try discriminate.
    by rewrite respond_status in Hs.
  - split; [|discriminate]. by intros (r & [= <-] & Hs).
  - split; [|discriminate]. by intros (r & Hr & Hs).
Qed.

(** X2. A topic that is truthy without being a string (a number, true, an
    object), or a personal impact of that kind beside a valid topic, is
    answered 500, [trim] not being a function of it, and no external call
    is made. *)
Theorem not_a_string_is_server_error :
  forall (w : World) (sched : Schedule) (req : Body),
    (ToBoolean (topic req) = true /\ (forall s, topic req <> VStr s))
    \/ (topic_given req /\ ToBoolean (personalImpact req) = true
        /\ forall s, personalImpact req <> VStr s) ->
    handle w sched req
    = {| calls := [];
         reply := Some {| status := 500;
                          body := [("error", FText [Lit "Failed to calculate topic weight."])]
                       |} |}.
Proof.
  intros w sched req [[Hb Hs]|(Ht & Hb & Hs)]; rewrite handle_unfold.
  - unfold topic_missing. rewrite Hb. simpl.
    destruct (topic req) as [| | | |s|]; try reflexivity. by destruct (Hs s).
  - rewrite (topic_given_accepted req Ht). unfold personally_relevant. rewrite Hb.
    destruct (personalImpact req) as [| | | |s|]; try reflexivity. by destruct (Hs s).
Qed.

Lemma not_a_string_is_server_error_witness :
  handle sample_world sample_schedule numeric_topic_request
  = {| calls := [];
       reply := Some {| status := 500;
                        body := [("error", FText [Lit "Failed to calculate topic weight."])]
                     |} |}.
Proof.
  apply (not_a_string_is_server_error sample_world sample_schedule numeric_topic_request).
  left. split; [reflexivity|]. intros s. discriminate.
Defined.

(** X3. When the generation call fails, or its completion has no choices,
    no first choice, no message or no parsed payload, the handler answers
    500 after that one call: no search is made. *)
Theorem generation_failure_is_server_error :
  forall (w : World) (sched : Schedule) (req : Body) (relevant : bool),
    topic_given req ->
    personally_relevant req = Fulfilled relevant ->
    (openai_parse w (prompt_of req relevant) = None
     \/ exists completion,
         openai_parse w (prompt_of req relevant) = Some completion
         /\ (choices completion = None
             \/ choices completion = Some []
             \/ exists choice rest,
                 choices completion = Some (choice :: rest)
                 /\ (message choice = None
                     \/ exists m, message choice = Some m /\ parsed m = None))) ->
    handle w sched req
    = {| calls := [CallOpenAI (prompt_of req relevant)];
         reply := Some {| status := 500;
                          body := [("error", FText [Lit "Failed to calculate topic weight."])]
                       |} |}.
Proof.
  intros w sched req relevant Ht Hr H.
  rewrite handle_unfold, (topic_given_accepted req Ht), Hr. simpl.
  destruct H as [->|(c & -> & H)]; [reflexivity|]. simpl. unfold first_parsed.
  destruct H as [->|[->|(choice & rest & -> & H)]]; try reflexivity.
  destruct H as [->|(m & Hm & Hp)]; [reflexivity|].
  rewrite Hm. simpl. by rewrite Hp.
Qed.

Lemma generation_failure_is_server_error_witness :
  handle silent_world sample_schedule sample_request
  = {| calls := [CallOpenAI (prompt_of sample_request false)];
       reply := Some {| status := 500;
                        body := [("error", FText [Lit "Failed to calculate topic weight."])]
                     |} |}.
Proof.
  apply (generation_failure_is_server_error silent_world sample_schedule sample_request false).
  - exists " taxes ". split; [reflexivity|discriminate].
  - reflexivity.
  - left. reflexivity.
Defined.

(** X4. A reply is a 200, a 400 or a 500, and one that is not a 200 carries
    a fixed message and nothing else: no detail of the failure reaches the
    client. *)
Theorem error_replies_are_fixed :
  forall (w : World) (sched : Schedule) (req : Body) (r : Reply),
    reply (handle w sched req) = Some r ->
    status r = 200%nat
    \/ r = {| status := 400; body := [("error", FText [Lit "Topic input is required."])] |}
    \/ r = {| status := 500;
              body := [("error", FText [Lit "Failed to calculate topic weight."])] |}.
Proof.
  intros w sched req r. rewrite handle_unfold.
  destruct (topic_missing req) as [[|]| |]; simpl; try (intros [= <-]; auto); try discriminate.
  destruct (personally_relevant req); simpl; try (intros [= <-]; auto); try discriminate.
  destruct (openai_parse w _) as [c|]; simpl; try (intros [= <-]; auto).
  destruct (first_parsed c); simpl; try (intros [= <-]; auto); try discriminate.
  destruct (Promise_all _); try (intros [= <-]; auto); try discriminate.
  left. apply respond_status.
Qed.

Lemma error_replies_are_fixed_witness :
  status server_error = 200%nat
  \/ server_error
     = {| status := 400; body := [("error", FText [Lit "Topic input is required."])] |}
  \/ server_error
     = {| status := 500; body := [("error", FText [Lit "Failed to calculate topic weight."])] |}.
Proof.
  apply (error_replies_are_fixed silent_world sample_schedule sample_request). reflexivity.
Defined.

(** ** A fan-out that waits *)

Section Waiting.
Variables (w : World) (year : value).

Lemma row_settled (g : nat -> bool) (fs : list string) :
  Promise_all (imap (fun fi f => if g fi then enhanceFact w year f else Pending) fs)
  <> Rejected.
Proof.
  revert g. induction fs as [|f fs IH]; intros g; simpl; [done|].
  rewrite enhanceFact_fulfilled. specialize (IH (fun fi => g (S fi))).
  destruct (Promise_all _); destruct (g 0%nat); done.
Qed.

Lemma row_fulfilled_seen (g : nat -> bool) (fs : list string) l :
  Promise_all (imap (fun fi f => if g fi then enhanceFact w year f else Pending) fs)
  = Fulfilled l ->
  forall fi f, fs !! fi = Some f -> g fi = true.
Proof.
  revert g l. induction fs as [|f0 fs IH]; intros g l; simpl; [done|].
  rewrite enhanceFact_fulfilled.
  destruct (Promise_all _) as [l'| |] eqn:E; destruct (g 0%nat) eqn:Eg; try discriminate.
  intros _ [|fi] f Hf; [done|]. by apply (IH (fun fi => g (S fi)) l' E fi f).
Qed.

Lemma rows_settled (seen : nat -> nat -> bool) (categories : list (Category string)) :
  Promise_all
    (zip_with enhanceCategory categories
       (imap (fun ci c =>
                imap (fun fi f => if seen ci fi then enhanceFact w year f else Pending)
                     (facts c))
             categories))
  <> Rejected.
Proof.
  revert seen. induction categories as [|c cs IH]; intros seen; simpl; [done|].
  specialize (IH (fun ci fi => seen (S ci) fi)).
  pose proof (row_settled (seen 0%nat) (facts c)) as Hrow.
  unfold enhanceCategory at 1. destruct (Promise_all (imap _ (facts c))); simpl; [|done|].
  - by destruct (Promise_all (zip_with _ _ _)).
  - by destruct (Promise_all (zip_with _ _ _)).
Qed.

Lemma rows_fulfilled_seen (seen : nat -> nat -> bool) (categories : list (Category string))
    enhancedData :
  Promise_all
    (zip_with enhanceCategory categories
       (imap (fun ci c =>
                imap (fun fi f => if seen ci fi then enhanceFact w year f else Pending)
                     (facts c))
             categories))
  = Fulfilled enhancedData ->
  forall ci fi c f, categories !! ci = Some c -> facts c !! fi = Some f -> seen ci fi = true.
Proof.
  revert seen enhancedData. induction categories as [|c0 cs IH]; intros seen ed; simpl; [done|].
  unfold enhanceCategory at 1.
  destruct (Promise_all (imap _ (facts c0))) as [fs| |] eqn:Ec; simpl; [|done|].
  - destruct (Promise_all (zip_with _ _ _)) as [ed'| |] eqn:E; try discriminate.
    intros _ [|ci] fi c f Hc Hf.
    + injection Hc as <-. by apply (row_fulfilled_seen _ _ _ Ec fi f).
    + by apply (IH (fun ci fi => seen (S ci) fi) ed' E ci fi c f).
  - by destruct (Promise_all (zip_with _ _ _)).
Qed.

(** A fan-out in which a lookup has not settled is pending. *)
Lemma fan_in_pending sched (categories : list (Category string)) ci fi c f :
  categories !! ci = Some c -> facts c !! fi = Some f -> (ci, fi) ∉ sched ->
  Promise_all (zip_with enhanceCategory categories
                 (fold_left (settle w year categories) sched (dispatch categories)))
  = Pending.
Proof.
  intros Hc Hf Hout. rewrite (dispatch_slots w year), run_schedule. unfold slots_after.
  pose proof (rows_settled (fun ci fi => false || bool_decide ((ci, fi) ∈ sched)) categories)
    as Hs.
  pose proof (rows_fulfilled_seen (fun ci fi => false || bool_decide ((ci, fi) ∈ sched))
                categories) as Hseen.
  destruct (Promise_all _) as [ed| |]; [|done|done].
  specialize (Hseen ed eq_refl ci fi c f Hc Hf). simpl in Hseen.
  apply bool_decide_eq_true_1 in Hseen. done.
Qed.
End Waiting.

(** X5. No time limit bounds a lookup: when one of them never settles, the
    request is never answered, although the generation call and every
    lookup have been made. *)
Theorem unsettled_lookup_no_reply :
  forall (w : World) (sched : Schedule) (req : Body) (response_data : list (Category string))
         (ci fi : nat) (c : Category string) (f : string),
    topic_given req ->
    generates w req response_data ->
    sorted_data response_data !! ci = Some c ->
    facts c !! fi = Some f ->
    (ci, fi) ∉ sched ->
    reply (handle w sched req) = None
    /\ exists prompt,
        calls (handle w sched req)
        = CallOpenAI prompt :: search_calls (year req) (sorted_data response_data).
Proof.
  intros w sched req rd ci fi c f Ht Hg Hc Hf Hout.
  split; [|by apply handle_calls].
  destruct Hg as (relevant & completion & Hr & Hp & Hd).
  rewrite handle_unfold, (topic_given_accepted req Ht), Hr. simpl. rewrite Hp. simpl.
  rewrite Hd. simpl. fold (sorted_data rd).
  by rewrite (fan_in_pending w (year req) sched (sorted_data rd) ci fi c f).
Qed.

Lemma unsettled_lookup_no_reply_witness :
  reply (handle sample_world [(0, 0); (1, 0); (2, 0)]%nat sample_request) = None
  /\ exists prompt,
      calls (handle sample_world [(0, 0); (1, 0); (2, 0)]%nat sample_request)
      = CallOpenAI prompt :: search_calls VUndefined (sorted_data sample_data).
Proof.
  eapply (unsettled_lookup_no_reply sample_world [(0, 0); (1, 0); (2, 0)]%nat sample_request
            sample_data 0 1).
  - exists " taxes ". split; [reflexivity|discriminate].
  - exists false. eexists. repeat split; reflexivity.
  - reflexivity.
  - reflexivity.
  - intros H. repeat (apply elem_of_cons in H as [H|H]; [discriminate H|]).
    by apply elem_of_nil in H.
Defined.

(** X6. The external calls of a request are decided by the request and by
    the answer of the generation call: the results of the searches and the
    order in which they settle change none of them, so no lookup is made
    again after a failure. *)
Theorem calls_ignore_lookups :
  forall (w w' : World) (sched sched' : Schedule) (req : Body),
    (forall p, openai_parse w p = openai_parse w' p) ->
    calls (handle w sched req) = calls (handle w' sched' req).
Proof.
  intros w w' sched sched' req H. rewrite !handle_unfold.
  destruct (topic_missing req) as [[|]| |]; try reflexivity.
  destruct (personally_relevant req) as [relevant| |]; try reflexivity.
  simpl. rewrite <- H.
  destruct (openai_parse w _) as [c|]; simpl; [|reflexivity].
  destruct (first_parsed c); reflexivity.
Qed.

Lemma calls_ignore_lookups_witness :
  calls (handle sample_world sample_schedule sample_request)
  = calls (handle bounded_world [] sample_request).
Proof.
  apply (calls_ignore_lookups sample_world bounded_world sample_schedule [] sample_request).
  intros p. reflexivity.
Defined.

Lemma concat_Permutation {A} (l k : list (list A)) : l ≡ₚ k -> concat l ≡ₚ concat k.
Proof.
  induction 1 as [|x l k _ IH|x y l|l k m _ IH1 _ IH2]; simpl.
  - done.
  - by rewrite IH.
  - rewrite !app_assoc. f_equiv. apply Permutation_app_comm.
  - by rewrite IH1.
Qed.

(** X7. A request that reaches the fan-out makes the generation call, then
    one lookup for each fact the provider returned, with [num] set to 3:
    as many lookups as facts, none twice. *)
Theorem one_lookup_per_fact :
  forall (w : World) (sched : Schedule) (req : Body) (response_data : list (Category string)),
    topic_given req ->
    generates w req response_data ->
    exists prompt lookups,
      calls (handle w sched req) = CallOpenAI prompt :: lookups
      /\ lookups ≡ₚ map (fun f => CallSearch {| q := search_query (year req) f; num := 3 |})
                        (concat (map facts response_data))
      /\ length lookups = length (concat (map facts response_data)).
Proof.
  intros w sched req rd Ht Hg.
  destruct (handle_calls w sched req rd Ht Hg) as (prompt & ->).
  exists prompt, (search_calls (year req) (sorted_data rd)). split; [done|].
  assert (concat (map facts (sorted_data rd)) ≡ₚ concat (map facts rd)) as Hperm.
  { apply concat_Permutation, Permutation_map, sorted_data_perm. }
  unfold search_calls, fetchRealSources_params. split.
  - by apply Permutation_map.
  - rewrite length_map. by apply Permutation_length.
Qed.

Lemma one_lookup_per_fact_witness :
  exists prompt lookups,
    calls (handle sample_world sample_schedule sample_request) = CallOpenAI prompt :: lookups
    /\ lookups ≡ₚ map (fun f => CallSearch {| q := search_query VUndefined f; num := 3 |})
                      ["p1"; "s1"; "s2"; "r1"]
    /\ length lookups = 4%nat.
Proof.
  apply (one_lookup_per_fact sample_world sample_schedule sample_request sample_data).
  - exists " taxes ". split; [reflexivity|discriminate].
  - exists false. eexists. repeat split; reflexivity.
Defined.

(** ** What the reply keeps of the generation answer *)

Lemma same_fact_texts l l' : Forall2 same_fact l l' -> map fact l' = map fact l.
Proof. induction 1 as [|f f' l l' (E & _) _ IH]; simpl; [done|]. by rewrite E, IH. Qed.

Lemma same_category_content l l' :
  Forall2 same_category l l' ->
  map (fun c => (category c, weight c, reasoning c, map fact (facts c))) l'
  = map (fun c => (category c, weight c, reasoning c, map fact (facts c))) l.
Proof.
  induction 1 as [|c c' l l' (E1 & E2 & E3 & Hf) _ IH]; simpl; [done|].
  by rewrite E1, E2, E3, (same_fact_texts _ _ Hf), IH.
Qed.

(** X8. The weights of a 200 reply are the categories the provider
    returned, in the display order, each with the weight, the reasoning and
    the facts it came with, the facts in their order: sourcing and citing
    change none of these. *)
Theorem reply_keeps_generated_content :
  forall (w : World) (sched : Schedule) (req : Body) (response_data : list (Category string))
         (r : Reply),
    generates w req response_data ->
    reply (handle w sched req) = Some r ->
    status r = 200%nat ->
    map (fun c => (category c, weight c, reasoning c, map fact (facts c))) (weights_of r)
    = map (fun c => (category c, weight c, reasoning c, facts c)) (sorted_data response_data).
Proof.
  intros w sched req rd r Hg Hr Hs.
  destruct (handle_200_reply w sched req r Hr Hs) as (rd' & _ & Hg' & ->).
  rewrite (generates_unique w req rd rd' Hg Hg').
  rewrite respond_weights, (same_category_content _ _ (assign_citations_same _ _)).
  rewrite map_map. apply map_ext. intros c. simpl. f_equal.
  rewrite map_map. simpl. apply map_id.
Qed.

Lemma reply_keeps_generated_content_witness :
  exists r,
    reply (handle sample_world sample_schedule' sample_request) = Some r
    /\ map (fun c => (category c, weight c, reasoning c, map fact (facts c))) (weights_of r)
       = [("Statistical Impact", Finite 8, "rs", ["s1"; "s2"]);
          ("Social Relevance", Finite 6, "rr", ["r1"]);
          ("Policy Impact Potential", Finite 4, "rp", ["p1"])].
Proof.
  eexists. split; [reflexivity|].
  apply (reply_keeps_generated_content sample_world sample_schedule' sample_request
           sample_data).
  - exists false. eexists. repeat split; reflexivity.
  - reflexivity.
  - reflexivity.
Defined.

(** X9. When the search provider gives no more items than [num] asks for,
    every fact of a 200 reply carries at most three sources. *)
Theorem at_most_three_sources_per_fact :
  forall (w : World) (sched : Schedule) (req : Body) (r : Reply),
    (forall p response d l,
        axios_get w p = Some response -> data response = Some d -> items d = Some l ->
        (length l <= num p)%nat) ->
    reply (handle w sched req) = Some r ->
    status r = 200%nat ->
    Forall (fun c => Forall (fun f => (length (sources f) <= 3)%nat) (facts c)) (weights_of r).
Proof.
  intros w sched req r Hw Hr Hs.
  destruct (handle_200_reply w sched req r Hr Hs) as (rd & _ & _ & ->).
  rewrite respond_weights.
  eapply Forall2_Forall_r; [apply assign_citations_same|].
  apply Forall_fmap, Forall_forall. intros c _ c' (_ & _ & _ & Hf).
  eapply Forall2_Forall_r; [exact Hf|].
  simpl. apply Forall_fmap, Forall_forall. intros f _ f' (_ & Hsrc).
  rewrite <- (Forall2_length _ _ _ Hsrc). simpl.
  by apply resolved_sources_at_most_three.
Qed.

Lemma at_most_three_sources_per_fact_witness :
  exists r,
    reply (handle bounded_world sample_schedule sample_request) = Some r
    /\ Forall (fun c => Forall (fun f => (length (sources f) <= 3)%nat) (facts c))
              (weights_of r).
Proof.
  eexists. split; [reflexivity|].
  apply (at_most_three_sources_per_fact bounded_world sample_schedule sample_request).
  - intros p response d l H Hd Hl. unfold bounded_world in H. cbn [axios_get] in H.
    destruct (axios_get sample_world p) as [[[[[l'|]]|]]|];
      try discriminate H; injection H as <-; simpl in Hd;
      try discriminate Hd; injection Hd as <-; simpl in Hl;
      try discriminate Hl; injection Hl as <-.
    rewrite length_take. lia.
  - reflexivity.
  - reflexivity.
Defined.

(** ** The sort *)

Section Stability.
Context {A : Type} (key : A -> Z) (compare : A -> A -> Z).
Hypothesis compare_key : forall a b, compare a b = key a - key b.
Context (P : A -> Prop) `{forall a, Decision (P a)}.
Hypothesis P_key : forall a b, P a -> P b -> key a = key b.

Lemma sort_insert_stable x l :
  filter P (sort_insert compare x l) = filter P (x :: l).
Proof.
  induction l as [|y l IH]; simpl; [done|].
  rewrite compare_key. destruct (Z.leb_spec (key x - key y) 0) as [Hle|Hgt]; [done|].
  rewrite (filter_cons _ y), IH, !filter_cons.
  destruct (decide (P x)) as [Hx|Hx], (decide (P y)) as [Hy|Hy]; try done.
  pose proof (P_key x y Hx Hy). lia.
Qed.

Lemma Array_sort_stable l : filter P (Array_sort compare l) = filter P l.
Proof.
  induction l as [|x l IH]; simpl; [done|].
  by rewrite sort_insert_stable, !filter_cons, IH.
Qed.
End Stability.

Lemma filter_none {A} (P : A -> Prop) `{forall a, Decision (P a)} l :
  Forall (fun a => ~ P a) l -> filter P l = [].
Proof. induction 1; [done|]. by rewrite filter_cons_False. Qed.

Lemma filter_all {A} (P : A -> Prop) `{forall a, Decision (P a)} l :
  Forall P l -> filter P l = l.
Proof. induction 1 as [|x l Hx _ IH]; [done|]. by rewrite filter_cons_True, IH. Qed.

(** A list sorted by a key is its elements below a threshold, then the
    others. *)
Lemma sorted_split {A} (key : A -> Z) (t : Z) (l : list A) :
  StronglySorted (fun a b => key a <= key b) l ->
  l = filter (fun a => key a < t) l ++ filter (fun a => ~ key a < t) l.
Proof.
  induction 1 as [|x l Hl IH Hx]; [done|].
  destruct (decide (key x < t)) as [Hlt|Hge].
  - rewrite (filter_cons_True _ x) by done. rewrite (filter_cons_False _ x) by tauto.
    simpl. by rewrite <- IH.
  - rewrite (filter_cons_False _ x) by done. rewrite (filter_cons_True _ x) by done.
    rewrite filter_none, filter_all; [done| |].
    + eapply Forall_impl; [exact Hx|]. simpl. intros. lia.
    + eapply Forall_impl; [exact Hx|]. simpl. intros. lia.
Qed.

Lemma display_index_cases name :
  ((name ∈ sortOrder) /\ 0 <= display_index name)
  \/ ((name ∉ sortOrder) /\ display_index name = -1).
Proof.
  unfold display_index, indexOf, sortOrder. cbn [indexOf_from].
  rewrite !elem_of_cons, elem_of_nil.
  destruct (String.eqb_spec "Statistical Impact" name) as [<-|?];
    [left; split; [auto 10|lia]|].
  destruct (String.eqb_spec "Social Relevance" name) as [<-|?];
    [left; split; [auto 10|lia]|].
  destruct (String.eqb_spec "Policy Impact Potential" name) as [<-|?];
    [left; split; [auto 10|lia]|].
  destruct (String.eqb_spec "Personal Relevance" name) as [<-|?];
    [left; split; [auto 10|lia]|].
  right. split; [|done]. intros [?|[?|[?|[?|[]]]]]; congruence.
Qed.

Lemma display_index_known name : name ∈ sortOrder <-> 0 <= display_index name.
Proof. destruct (display_index_cases name) as [[? ?]|[? ?]]; split; try done; lia. Qed.

Lemma display_index_unknown name : name ∉ sortOrder <-> display_index name < 0.
Proof. rewrite display_index_known. lia. Qed.

(** X10. The sort is stable: the categories returned under one name stay
    in the provider's order, and none is dropped or added. *)
Theorem sort_keeps_order_within_name :
  forall (response_data : list (Category string)) (name : string),
    filter (fun c => category c = name) (sorted_data response_data)
    = filter (fun c => category c = name) response_data.
Proof.
  intros rd name.
  apply (Array_sort_stable (fun c => display_index (category c)) compare_categories);
    [done|]. by intros a b -> ->.
Qed.

(** X11. A category whose name is not in the display order sorts before
    every known one ([indexOf] gives -1): the sorted categories are the
    unknown ones, in the provider's order, followed by the known ones. *)
Theorem unknown_categories_sort_first :
  forall (response_data : list (Category string)),
    sorted_data response_data
    = filter (fun c => category c ∉ sortOrder) response_data
      ++ filter (fun c => category c ∈ sortOrder) (sorted_data response_data).
Proof.
  intros rd.
  rewrite <- (Array_sort_stable (fun c => display_index (category c)) compare_categories
                (ltac:(done)) (fun c => category c ∉ sortOrder)).
  2:{ intros a b Ha Hb.
      destruct (display_index_cases (category a)) as [[? _]|[_ ->]]; [done|].
      destruct (display_index_cases (category b)) as [[? _]|[_ ->]]; done. }
  fold (sorted_data rd).
  rewrite (sorted_split (fun c => display_index (category c)) 0 (sorted_data rd)) at 1.
  2:{ pose proof (Array_sort_sorted (fun c => display_index (category c)) compare_categories
                    (ltac:(done)) rd) as H. exact H. }
  f_equal; apply list_filter_iff; intros c.
  - by rewrite display_index_unknown.
  - rewrite display_index_known. lia.
Qed.

(** ** The aggregator *)

(** X12. For a non-empty category sequence with weights in [1,10] and a
    positive number of days, the hours recommended are a non-negative
    integer or Infinity and lie between a tenth and twice the fifth of the
    hours available, the fifth being daysPerYear × 24 / 5 as the code
    computes it and the bounds rounded as the hours are:
    Math.round(1/10 × fifth) <= totalHours <= Math.round(fifth × 2); and
    without a Personal Relevance category totalHours <= Math.round(fifth). *)
Theorem totalHours_share_of_available :
  forall (categories : list (Category EnhancedFact)) (d : Q),
    categories <> [] ->
    Z.of_nat (length categories) < 2 ^ 32 ->
    Forall weight_in_range categories ->
    (0 < d)%Q ->
    let fifth := (Finite d * Finite 24 / Finite 5)%num in
    let hours := totalHours (calculateWeightsAndHours categories (VNum (Finite d))) in
    integer_or_infinity hours
    /\ Number_le (Math_round (Finite 1 / Finite 10 * fifth)) hours = true
    /\ Number_le hours (Math_round (fifth * Finite 2)) = true
    /\ (Forall (fun c => is_personal_relevance c = false) categories ->
        Number_le hours (Math_round fifth) = true).
Proof.
  intros categories d Hne Hn H Hd fifth hours. subst hours.
  destruct (totalHours_factors categories Hne ltac:(lia) H)
    as (a & m & _ & _ & Ha & Hm & Hlo & _ & Hno & E).
  rewrite E. cbn [ToNumber]. fold fifth.
  destruct (fifth_le d d ltac:(lra) ltac:(lra)) as [H0 _]. fold fifth in H0.
  pose proof (Number_le_refl _ H0) as Hrefl.
  pose proof (fifth_is_binary64 (Finite d)) as Hb. fold fifth in Hb.
  change (Finite 1 / Finite 10)%num with (binary64 (1 / 10)).
  rewrite binary64_tenth.
  change (Finite 1 / Finite 10)%num with (binary64 (1 / 10)) in Hlo.
  rewrite binary64_tenth in Hlo. apply Number_le_Finite in Hlo.
  set (tenth := (3602879701896397 # 36028797018963968)%Q) in *.
  assert (0 < tenth)%Q as Ht by reflexivity.
  destruct (product_le a a m m fifth fifth ltac:(lra) ltac:(lra) ltac:(lra) ltac:(lra)
              H0 Hrefl) as [Hi _].
  split; [done|]. split; [|split].
  - destruct (product_le tenth a 1 m fifth fifth Ht Hlo ltac:(lra) ltac:(lra) H0 Hrefl)
      as [_ Hle].
    by rewrite (proj2 (Number_mul_1 _ (Number_mul_is_binary64 (Finite tenth) fifth))) in Hle.
  - destruct (product_le a 1 m 2 fifth fifth ltac:(lra) ltac:(lra) ltac:(lra) ltac:(lra)
                H0 Hrefl) as [_ Hle].
    by rewrite (proj1 (Number_mul_1 _ Hb)) in Hle.
  - intros Hnone. rewrite (Hno Hnone).
    rewrite (proj2 (Number_mul_1 _ (Number_mul_is_binary64 (Finite a) fifth))).
    destruct (Number_mul_le a 1 fifth fifth ltac:(lra) ltac:(lra) H0 Hrefl)
      as (Hp0 & Hp & _).
    rewrite (proj1 (Number_mul_1 _ Hb)) in Hp.
    by apply Math_round_le.
Qed.

Lemma totalHours_share_of_available_witness :
  Number_le (Math_round (Finite 1 / Finite 10 * (Finite 10 * Finite 24 / Finite 5)))
            (totalHours (calculateWeightsAndHours example_categories (VNum (Finite 10))))
  = true
  /\ Number_le (totalHours (calculateWeightsAndHours example_categories (VNum (Finite 10))))
               (Math_round (Finite 10 * Finite 24 / Finite 5))
     = true.
Proof.
  destruct (totalHours_share_of_available example_categories 10) as (_ & Hlo & _ & Hno).
  - discriminate.
  - reflexivity.
  - repeat constructor; eexists; (split; [reflexivity|]); split; discriminate.
  - reflexivity.
  - split; [exact Hlo|]. apply Hno. repeat constructor.
Defined.

(** The hours depend on the names and the weights only. *)
Lemma totalHours_same_tags {F G} (l : list (Category F)) (l' : list (Category G)) d :
  map (fun c => (category c, weight c)) l = map (fun c => (category c, weight c)) l' ->
  totalHours (calculateWeightsAndHours l d) = totalHours (calculateWeightsAndHours l' d).
Proof.
  intros H.
  assert (length l = length l') as Hlen.
  { apply (f_equal length) in H. by rewrite !length_map in H. }
  assert (forall st, (map_accum accumulate_category st l).1
                     = (map_accum accumulate_category st l').1) as Hst.
  { clear Hlen. revert l' H.
    induction l as [|c l IH]; intros [|c' l'] H st; try done.
    injection H as Hc Hw H. rewrite !map_accum_cons. cbn [fst].
    rewrite <- (IH l' H). f_equal.
    unfold accumulate_category. destruct st as [tw rm]. cbn [fst]. by rewrite Hc, Hw. }
  unfold calculateWeightsAndHours. specialize (Hst (Finite 0, Finite 1)).
  destruct (map_accum accumulate_category _ l) as [[tw rm] e].
  destruct (map_accum accumulate_category _ l') as [[tw' rm'] e'].
  simpl in Hst. injection Hst as -> ->. simpl. by rewrite Hlen.
Qed.

Lemma same_category_tags l l' :
  Forall2 same_category l l' ->
  map (fun c => (category c, weight c)) l' = map (fun c => (category c, weight c)) l.
Proof.
  induction 1 as [|c c' l l' (E1 & E2 & _) _ IH]; simpl; [done|]. by rewrite E1, E2, IH.
Qed.

(** The order of the categories matters to the hours, the sum of the weights
    being rounded at every step: the weights 1.1, 1.2 and 9.2 give 12 hours
    for 6.25 days in this order and 11 in the display order. *)
Lemma hours_depend_on_order :
  totalHours (calculateWeightsAndHours unsorted_weights (VNum (Finite (25 # 4)))) = Finite 12
  /\ totalHours (calculateWeightsAndHours (sorted_data unsorted_weights)
                   (VNum (Finite (25 # 4)))) = Finite 11.
Proof. split; vm_compute; reflexivity. Qed.

(** X13. The hours of a 200 reply are those of the aggregator on the
    categories the provider returned, taken in display order: neither the
    results of the searches nor the citations change the recommendation. *)
Theorem hours_from_generated_weights :
  forall (w : World) (sched : Schedule) (req : Body) (response_data : list (Category string))
         (r : Reply),
    generates w req response_data ->
    reply (handle w sched req) = Some r ->
    status r = 200%nat ->
    get "totalHours" (body r)
    = Some (FNumber (totalHours (calculateWeightsAndHours (sorted_data response_data)
                                   (daysPerYear req)))).
Proof.
  intros w sched req rd r Hg Hr Hs.
  destruct (handle_200_reply w sched req r Hr Hs) as (rd' & _ & Hg' & ->).
  rewrite (generates_unique w req rd rd' Hg Hg').
  destruct (respond_body req (sorted_data rd') (map (enhanced w (year req)) (sorted_data rd')))
    as (d & c & ->). simpl. do 2 f_equal.
  apply totalHours_same_tags.
  rewrite (same_category_tags _ _ (assign_citations_same _ _)).
  rewrite map_map. reflexivity.
Qed.

Lemma hours_from_generated_weights_witness :
  exists r,
    reply (handle sample_world sample_schedule sample_request) = Some r
    /\ get "totalHours" (body r)
       = Some (FNumber (totalHours (calculateWeightsAndHours (sorted_data sample_data)
                                      (VNum (Finite 10))))).
Proof.
  eexists. split; [reflexivity|].
  apply (hours_from_generated_weights sample_world sample_schedule sample_request sample_data).
  - exists false. eexists. repeat split; reflexivity.
  - reflexivity.
  - reflexivity.
Defined.

(** X14. With weights in [1,10], the text that explains the hours names the
    personal relevance modifier exactly when a Personal Relevance category
    is among the categories. *)
Theorem description_names_modifier :
  forall (categories : list (Category EnhancedFact)) (daysPerYear : value),
    Forall weight_in_range categories ->
    Lit " times personal relevance modifier "
      ∈ totalHoursDescription (calculateWeightsAndHours categories daysPerYear)
    <-> Exists (fun c => is_personal_relevance c = true) categories.
Proof.
  intros categories d H. unfold calculateWeightsAndHours.
  pose proof (accumulate_category_state categories (Finite 0) (Finite 1)) as Hst.
  change (match last (filter (fun c => is_personal_relevance c = true) categories) with
          | Some c => (Finite 1 + weight c / Finite 10)%num
          | None => Finite 1
          end) with (binary64_relevanceModifier categories) in Hst.
  destruct (map_accum accumulate_category _ categories) as [[tw rm] enriched].
  cbn [fst] in Hst. injection Hst as -> ->. cbn [totalHoursDescription].
  destruct (binary64_relevanceModifier_bounds categories H) as (m & -> & _ & Hpr & Hno).
  destruct (last (filter (fun c => is_personal_relevance c = true) categories))
    as [c|] eqn:E.
  - apply last_Some_elem_of, list_elem_of_filter in E as [Ec Hc].
    assert (Exists (fun c => is_personal_relevance c = true) categories) as Hex
      by (apply Exists_exists; eauto).
    assert (Number_gt (Finite m) (Finite 1) = true) as ->.
    { simpl. destruct (Qlt_le_dec 1 m) as [?|Hle]; [done|]. specialize (Hpr Hex). lra. }
    split; [done|].
    intros _. rewrite !elem_of_app, !elem_of_cons. auto 10.
  - apply last_None in E.
    assert (~ Exists (fun c => is_personal_relevance c = true) categories) as Hnex.
    { intros (c & Hc & Hc')%Exists_exists.
      assert (c ∈ filter (fun c => is_personal_relevance c = true) categories) as Hin
        by by apply list_elem_of_filter.
      rewrite E in Hin. by apply elem_of_nil in Hin. }
    rewrite Hno.
    2:{ apply Forall_forall. intros c Hc. apply not_true_is_false. intros Hc'.
        apply Hnex, Exists_exists. eauto. }
    replace (Number_gt (Finite 1) (Finite 1)) with false by reflexivity.
    split; [|done].
    rewrite !elem_of_app, !elem_of_cons, !elem_of_nil.
    intros [[?|[?|[?|[?|[]]]]]|[[?|[]]|[?|[?|[?|[?|[?|[]]]]]]]]; discriminate.
Qed.

Lemma description_names_modifier_witness :
  Lit " times personal relevance modifier "
    ∈ totalHoursDescription
        (calculateWeightsAndHours (example_categories ++ [example_personal]) (VNum (Finite 10)))
  /\ Lit " times personal relevance modifier "
       ∉ totalHoursDescription (calculateWeightsAndHours example_categories (VNum (Finite 10))).
Proof.
  split.
  - apply (description_names_modifier (example_categories ++ [example_personal])).
    + repeat constructor; eexists; (split; [reflexivity|]); split; discriminate.
    + apply Exists_app. right. constructor. reflexivity.
  - intros Hin.
    apply (description_names_modifier example_categories) in Hin.
    + repeat (apply Exists_cons in Hin as [Hin|Hin]; [discriminate Hin|]).
      by apply Exists_nil in Hin.
    + repeat constructor; eexists; (split; [reflexivity|]); split; discriminate.
Defined.

(** ** The registry *)

Lemma assign_walk_registry r l :
  Forall (fun kv => (kv.1 < citationCounter r)%nat) (citationMap r) ->
  citationMap (map_accum assign r l).1
  = citationMap r
    ++ zip (seq (citationCounter r) (count_linked l)) (filter linked (map_accum assign r l).2).
Proof.
  revert r. induction l as [|s l IH]; intros r Hr.
  - simpl. unfold count_linked. simpl. by rewrite app_nil_r.
  - rewrite map_accum_cons, count_linked_cons. cbn [fst snd].
    destruct (ToBoolean (link s)) eqn:El.
    + assert (assign r s
              = ({| citationMap :=
                      citationMap r
                      ++ [(citationCounter r, with_citation s (bracket (citationCounter r)))];
                    citationCounter := S (citationCounter r) |},
                 with_citation s (bracket (citationCounter r)))) as ->.
      { unfold assign. rewrite El. simpl. rewrite Map_set_fresh; [done|].
        eapply Forall_impl; [exact Hr|]. simpl. intros. lia. }
      cbn [fst snd]. rewrite IH; cbn [citationMap citationCounter].
      * rewrite filter_cons_True by exact El. simpl. by rewrite <- app_assoc.
      * apply Forall_app. split.
        -- eapply Forall_impl; [exact Hr|]. simpl. intros. lia.
        -- repeat constructor.
    + assert (assign r s = (r, s)) as -> by (unfold assign; by rewrite El).
      cbn [fst snd]. rewrite IH by done.
      rewrite filter_cons_False; [done|]. unfold linked. by rewrite El.
Qed.

Lemma assign_walk_entries r l :
  Forall (fun kv => citation kv.2 = Some (bracket kv.1) /\ linked kv.2)
         (zip (seq (citationCounter r) (count_linked l))
              (filter linked (map_accum assign r l).2)).
Proof.
  revert r. induction l as [|s l IH]; intros r.
  - simpl. unfold count_linked. simpl. constructor.
  - rewrite map_accum_cons, count_linked_cons. cbn [snd].
    specialize (IH (assign r s).1). revert IH.
    unfold assign. destruct (ToBoolean (link s)) eqn:El; cbn [fst snd citationCounter].
    + intros IH. rewrite filter_cons_True by exact El. simpl. by constructor.
    + intros IH. rewrite filter_cons_False; [done|]. unfold linked. by rewrite El.
Qed.

(** X15. After the citation pass the registry holds, under the ids 1, 2,
    ... in that order, the sources of the reply that have a link, in the
    order of the walk and as the reply shows them: the entry of id k carries
    the citation [k]. *)
Theorem registry_matches_reply :
  forall (enhancedData : list (Category EnhancedFact)),
    let out := assign_citations new_registry enhancedData in
    citationMap out.1
    = zip (seq 1 (count_linked (flat_sources enhancedData)))
          (filter linked (flat_sources out.2))
    /\ Forall (fun kv => citation kv.2 = Some (bracket kv.1) /\ linked kv.2) (citationMap out.1).
Proof.
  intros ed out. subst out.
  destruct (assign_citations_flat new_registry ed) as [E1 E2]. rewrite E1, E2.
  pose proof (assign_walk_registry new_registry (flat_sources ed)) as H.
  simpl in H. specialize (H ltac:(constructor)). split; [exact H|].
  rewrite H. apply (assign_walk_entries new_registry).
Qed.

(** ** The generation request *)

Lemma personally_relevant_cases req relevant :
  personally_relevant req = Fulfilled relevant ->
  (relevant = true /\ exists s, personalImpact req = VStr s /\ ~ all_white_space s)
  \/ (relevant = false
      /\ (ToBoolean (personalImpact req) = false
          \/ exists s, personalImpact req = VStr s /\ all_white_space s)).
Proof.
  unfold personally_relevant. destruct (ToBoolean (personalImpact req)) eqn:Eb.
  - destruct (personalImpact req) as [| | | |s|]; simpl; try discriminate.
    intros [= <-]. destruct (String.eqb_spec (trim s) "") as [Et|Et]; simpl.
    + right. split; [done|]. right. exists s. split; [done|]. by apply trim_empty.
    + left. split; [done|]. exists s. split; [done|]. by rewrite <- trim_empty.
  - intros [= <-]. right. split; [done|]. by left.
Qed.

(** X16. The generation call asks for the Personal Relevance category
    exactly when the personal impact of the request is a string with more
    than white space in it; otherwise it asks for the three other
    categories only. *)
Theorem personal_relevance_requested :
  forall (w : World) (sched : Schedule) (req : Body) (prompt : Prompt) (rest : list Call),
    calls (handle w sched req) = CallOpenAI prompt :: rest ->
    (system_categories prompt
     = "Statistical Impact, Social Relevance, Policy Impact Potential, and Personal Relevance"
     /\ exists s, personalImpact req = VStr s /\ ~ all_white_space s)
    \/ (system_categories prompt
        = "Statistical Impact, Social Relevance, and Policy Impact Potential"
        /\ (ToBoolean (personalImpact req) = false
            \/ exists s, personalImpact req = VStr s /\ all_white_space s)).
Proof.
  intros w sched req prompt rest Hc.
  assert (exists relevant,
             personally_relevant req = Fulfilled relevant
             /\ prompt_of req relevant = prompt) as (relevant & Hr & <-).
  { rewrite handle_unfold in Hc.
    destruct (topic_missing req) as [[|]| |]; try discriminate.
    destruct (personally_relevant req) as [relevant| |] eqn:Hr; try discriminate.
    exists relevant. split; [done|]. simpl in Hc.
    destruct (openai_parse w _) as [c|]; simpl in Hc; [|by injection Hc].
    destruct (first_parsed c); simpl in Hc; by injection Hc. }
  destruct (personally_relevant_cases req relevant Hr) as [[-> H]|[-> H]];
    [left|right]; (split; [reflexivity|exact H]).
Qed.

Lemma personal_relevance_requested_witness :
  exists prompt,
    calls (handle sample_world sample_schedule sample_request)
    = CallOpenAI prompt :: search_calls VUndefined (sorted_data sample_data)
    /\ system_categories prompt
       = "Statistical Impact, Social Relevance, and Policy Impact Potential".
Proof.
  eexists. split; [reflexivity|].
  destruct (personal_relevance_requested sample_world sample_schedule sample_request
              _ _ eq_refl) as [[E _]|[E _]]; [discriminate E|exact E].
Defined.

(** ** [POST /chat] *)

(** X17. The chat handler answers 400 exactly when the conversation is not
    an array or the analysis context is falsy; an empty array is a valid
    conversation. A request answered 400 makes no completion call. *)
Theorem chat_bad_request_iff :
  forall (create : list ChatMessage -> option ChatAnswer) (req : ChatBody),
    (chat_status (chat_response (chat create req)) = 400%nat
     <-> ((forall turns, conversation req <> TurnArray turns)
          \/ ToBoolean (analysisContext req) = false))
    /\ (chat_status (chat_response (chat create req)) = 400%nat ->
        chat create req
        = {| chat_calls := [];
             chat_response :=
               {| chat_status := 400;
                  chat_body :=
                    [("error", VStr "Invalid conversation history or analysis context.")]
               |} |}).
Proof.
  intros create [conv ctx]. unfold chat. cbn [conversation analysisContext].
  destruct conv as [v|turns]; cbn [Conversation_truthy Array_isArray spread].
  - rewrite orb_true_r. simpl. split; [|done]. split; [|done]. intros _. by left.
  - destruct (ToBoolean ctx) eqn:Eb; simpl.
    + assert (chat_status
                match settled (create (chat_messages ctx turns)) ≫= first_content with
                | Fulfilled content =>
                    {| chat_status := 200;
                       chat_body := [("reply", if ToBoolean content then content
                                               else VStr apology)] |}
                | _ => {| chat_status := 500;
                          chat_body := [("error", VStr "Failed to process the chat.")] |}
                end <> 400%nat) as Hne
        by (destruct (settled _ ≫= first_content); discriminate).
      split; [|done]. split; [done|]. intros [H|H]; [|done]. by destruct (H turns).
    + split; [|done]. split; [|done]. intros _. by right.
Qed.

(** X18. The reply of a 200 chat response is never empty: when the
    completion has no first choice, no message or no content, the reply is
    the fixed apology. *)
Theorem chat_reply_never_empty :
  forall (create : list ChatMessage -> option ChatAnswer) (req : ChatBody),
    chat_status (chat_response (chat create req)) = 200%nat ->
    exists v, chat_body (chat_response (chat create req)) = [("reply", v)]
              /\ ToBoolean v = true
              /\ (forall messages completion,
                     chat_calls (chat create req) = [messages] ->
                     create messages = Some completion ->
                     first_content completion = Fulfilled VUndefined ->
                     v = VStr apology).
Proof.
  intros create req. unfold chat.
  destruct (_ || _); [discriminate|].
  destruct (spread (conversation req)) as [turns| |]; simpl; try discriminate.
  destruct (create _) as [completion|] eqn:Ec; simpl; [|discriminate].
  destruct (first_content completion) as [content| |] eqn:Ef; simpl; try discriminate.
  intros _. eexists. split; [reflexivity|]. split.
  - by destruct (ToBoolean content) eqn:Eb.
  - simpl. intros messages completion0 Hm. injection Hm as <-.
    rewrite Ec. intros Hc0. injection Hc0 as <-. rewrite Ef.
    intros Hf. injection Hf as ->. reflexivity.
Qed.

Lemma chat_reply_never_empty_witness :
  chat_body (chat_response (chat (answering (VStr "")) sample_chat))
  = [("reply", VStr apology)]
  /\ chat_body (chat_response (chat (answering (VStr "because")) sample_chat))
     = [("reply", VStr "because")].
Proof.
  split.
  - destruct (chat_reply_never_empty (answering (VStr "")) sample_chat eq_refl)
      as (v & E & _ & _). rewrite E. simpl in E. injection E as <-. reflexivity.
  - reflexivity.
Defined.

(** X19. A valid chat request makes one completion call, whose messages are
    the system message written around the analysis context followed by the
    conversation as it came, in its order; the response is a 500 with a
    fixed message exactly when that call fails or its completion has no
    choices. *)
Theorem chat_forwards_conversation :
  forall (create : list ChatMessage -> option ChatAnswer) (turns : list ChatTurn)
         (context : value),
    ToBoolean context = true ->
    let req := {| conversation := TurnArray turns; analysisContext := context |} in
    let messages :=
      SystemMessage ([Lit "You are discussing the topic based on the following analysis: "]
                     ++ ToString context)
      :: map Forwarded turns in
    chat_calls (chat create req) = [messages]
    /\ (chat_status (chat_response (chat create req)) = 500%nat
        <-> (create messages = None
             \/ exists completion,
                 create messages = Some completion /\ chat_choices completion = None))
    /\ (chat_status (chat_response (chat create req)) = 500%nat ->
        chat_body (chat_response (chat create req))
        = [("error", VStr "Failed to process the chat.")]).
Proof.
  intros create turns context Hc req messages. subst req. unfold chat.
  cbn [conversation analysisContext Conversation_truthy Array_isArray spread].
  rewrite Hc. simpl. change (chat_messages context turns) with messages.
  split; [reflexivity|].
  destruct (create messages) as [completion|]; simpl.
  - unfold first_content. destruct (chat_choices completion) as [choices|] eqn:Ech; simpl.
    + split; [|discriminate]. split; [discriminate|].
      intros [?|(c & [= <-] & ?)]; congruence.
    + split; [|done]. split; [|done]. intros _. right. eauto.
  - split; [|done]. split; [|done]. intros _. by left.
Qed.

Lemma chat_forwards_conversation_witness :
  chat_calls (chat (answering (VStr "because")) sample_chat)
  = [[SystemMessage [Lit "You are discussing the topic based on the following analysis: ";
                     Lit "summary"];
      Forwarded {| role := VStr "user"; content := VStr "why?" |}]].
Proof.
  destruct (chat_forwards_conversation (answering (VStr "because"))
              [ {| role := VStr "user"; content := VStr "why?" |} ] (VStr "summary") eq_refl)
    as (E & _ & _).
  exact E.
Defined.

(** ** When the answer is a 200 *)

Lemma topic_missing_false_given req : topic_missing req = Fulfilled false -> topic_given req.
Proof.
  unfold topic_missing, topic_given. destruct (ToBoolean (topic req)); simpl; [|discriminate].
  destruct (topic req) as [| | | |s|]; simpl; try discriminate.
  destruct (trim s) eqn:Et; simpl; [discriminate|]. intros _. exists s. by rewrite Et.
Qed.

(** X20. The handler answers 200 exactly when the topic is a string that is
    not blank, the personal impact can be read, the generation call gives a
    parsed payload and every lookup of the fan-out settles, whether it
    succeeds or fails. *)
Theorem success_iff :
  forall (w : World) (sched : Schedule) (req : Body),
    (exists r, reply (handle w sched req) = Some r /\ status r = 200%nat)
    <-> (topic_given req
         /\ exists response_data,
             generates w req response_data /\ complete sched (sorted_data response_data)).
Proof.
  intros w sched req. split.
  - intros (r & Hr & Hs).
    destruct (handle_200 w sched req r Hr Hs) as (rd & ed & Ht & Hg & Hall & _).
    split; [by apply topic_missing_false_given|]. exists rd. split; [done|].
    intros ci fi c f Hc Hf.
    rewrite (dispatch_slots w (year req)), run_schedule in Hall. unfold slots_after in Hall.
    pose proof (rows_fulfilled_seen w (year req)
                  (fun ci fi => false || bool_decide ((ci, fi) ∈ sched))
                  (sorted_data rd) ed Hall ci fi c f Hc Hf) as Hseen.
    simpl in Hseen. by apply bool_decide_eq_true_1 in Hseen.
  - intros (Ht & rd & Hg & Hs).
    destruct (handle_success w sched req rd Ht Hg Hs) as (relevant & _ & ->).
    eexists. split; [reflexivity|apply respond_status].
Qed.

(** ** Weights and hours *)

Section AggregatorMonotone.
Context {F : Type}.
Implicit Types l : list (Category F).

Lemma relevance_last_raised l l' :
  Forall2 raised l l' ->
  match last (filter (fun c => is_personal_relevance c = true) l),
        last (filter (fun c => is_personal_relevance c = true) l') with
  | Some c, Some c' => (weight_value c <= weight_value c')%Q
  | None, None => True
  | _, _ => False
  end.
Proof.
  induction 1 as [|c c' l l' [Hn Hw] _ IH]; [done|].
  rewrite !last_personal_relevance_cons.
  assert (is_personal_relevance c' = is_personal_relevance c) as ->
    by (unfold is_personal_relevance; by rewrite Hn).
  destruct (last (filter _ l)), (last (filter _ l')); try done.
  by destruct (is_personal_relevance c).
Qed.

Lemma binary64_relevanceModifier_raised l l' :
  Forall weight_in_range l -> Forall weight_in_range l' -> Forall2 raised l l' ->
  Number_le (binary64_relevanceModifier l) (binary64_relevanceModifier l') = true.
Proof.
  intros H H' Hr. apply relevance_last_raised in Hr. unfold binary64_relevanceModifier.
  destruct (last (filter _ l)) as [c|] eqn:E, (last (filter _ l')) as [c'|] eqn:E';
    try done.
  apply last_Some_elem_of, list_elem_of_filter in E as [_ E].
  apply last_Some_elem_of, list_elem_of_filter in E' as [_ E'].
  rewrite Forall_forall in H, H'.
  destruct (weight_in_range_value c (H c E)) as [-> Hc].
  destruct (weight_in_range_value c' (H' c' E')) as [-> Hc'].
  destruct (Number_div_le 10 (Finite (weight_value c)) (Finite (weight_value c')))
    as [Hd0 Hd]; [done|apply Number_le_Finite; lra|by apply Number_le_Finite|].
  by apply (Number_add_le (Finite 1) (Finite 1)).
Qed.

Lemma sum_of_weights_raised l l' x x' :
  Forall weight_in_range l -> Forall weight_in_range l' -> Forall2 raised l l' ->
  Number_le (Finite 0) x = true -> Number_le x x' = true ->
  Number_le (Finite 0) (fold_left Number_add (map weight l) x) = true
  /\ Number_le (fold_left Number_add (map weight l) x)
               (fold_left Number_add (map weight l') x') = true.
Proof.
  intros H H' Hr. revert x x' H H'.
  induction Hr as [|c c' l l' [_ Hw] _ IH]; intros x x' H H' Hx Hxx'; [done|].
  apply Forall_cons in H as [Hc H]. apply Forall_cons in H' as [Hc' H'].
  apply weight_in_range_value in Hc as [Ec Hc], Hc' as [Ec' Hc'].
  cbn [map fold_left]. rewrite Ec, Ec'.
  destruct (Number_add_le x x' (Finite (weight_value c)) (Finite (weight_value c')))
    as [Hs0 Hs]; try done; try (apply Number_le_Finite; lra).
  by apply IH.
Qed.

Lemma binary64_averageWeight_raised l l' :
  l <> [] ->
  Forall weight_in_range l -> Forall weight_in_range l' -> Forall2 raised l l' ->
  Number_le (binary64_averageWeight l / Finite 10) (binary64_averageWeight l' / Finite 10)
  = true.
Proof.
  intros Hne H H' Hr.
  destruct (sum_of_weights_raised l l' (Finite 0) (Finite 0) H H' Hr) as [Hs0 Hs]; [done..|].
  unfold binary64_averageWeight, sum_of_weights.
  rewrite <- (Forall2_length _ _ _ Hr).
  assert (0 < inject_Z (Z.of_nat (length l)))%Q as Hlen.
  { change 0%Q with (inject_Z 0). rewrite <- Zlt_Qlt. destruct l; [done|]. simpl length. lia. }
  destruct (Number_div_le _ _ _ Hlen Hs0 Hs) as [Ha0 Ha].
  by apply Number_div_le.
Qed.

End AggregatorMonotone.

(** X21. Raising weights never lowers the recommendation: when two
    non-empty category sequences carry the same names in the same order,
    all weights are in [1,10] and no weight of the second is below the
    weight at the same place in the first, the aggregator's totalHours for
    the second is at least that for the first, for any positive
    daysPerYear; each is a non-negative integer or Infinity. *)
Theorem totalHours_monotone_in_weights :
  forall (categories categories' : list (Category EnhancedFact)) (d : Q),
    categories <> [] ->
    Z.of_nat (length categories) < 2 ^ 32 ->
    Forall weight_in_range categories ->
    Forall weight_in_range categories' ->
    Forall2 (fun c c' => category c = category c'
                         /\ (weight_value c <= weight_value c')%Q) categories categories' ->
    (0 < d)%Q ->
    let hours := totalHours (calculateWeightsAndHours categories (VNum (Finite d))) in
    let hours' := totalHours (calculateWeightsAndHours categories' (VNum (Finite d))) in
    integer_or_infinity hours /\ integer_or_infinity hours'
    /\ Number_le hours hours' = true.
Proof.
  intros categories categories' d Hne Hn H H' Hr Hd hours hours'. subst hours hours'.
  assert (categories' <> []) as Hne'.
  { intros ->. apply Forall2_nil_inv_r in Hr. done. }
  pose proof (Forall2_length _ _ _ Hr) as Hlen.
  pose proof (binary64_averageWeight_raised categories categories' Hne H H' Hr) as Ha.
  pose proof (binary64_relevanceModifier_raised categories categories' H H' Hr) as Hm.
  destruct (totalHours_factors categories Hne ltac:(lia) H)
    as (a & m & Ea & Em & Hab & Hmb & _ & _ & _ & E).
  destruct (totalHours_factors categories' Hne' ltac:(lia) H')
    as (a' & m' & Ea' & Em' & Hab' & Hmb' & _ & _ & _ & E').
  rewrite Ea, Ea' in Ha. rewrite Em, Em' in Hm. apply Number_le_Finite in Ha, Hm.
  rewrite E, E'. cbn [ToNumber].
  destruct (fifth_le d d ltac:(lra) ltac:(lra)) as [H0 _].
  pose proof (Number_le_refl _ H0) as Hrefl.
  destruct (product_le a a' m m' _ _ ltac:(lra) Ha ltac:(lra) Hm H0 Hrefl) as [Hi Hle].
  destruct (product_le a' a' m' m' _ _ ltac:(lra) ltac:(lra) ltac:(lra) ltac:(lra) H0 Hrefl)
    as [Hi' _].
  done.
Qed.

Lemma totalHours_monotone_in_weights_witness :
  Number_le
    (totalHours (calculateWeightsAndHours example_categories (VNum (Finite 30))))
    (totalHours (calculateWeightsAndHours
                   (map (fun c => with_weight c (Finite 10)) example_categories)
                   (VNum (Finite 30))))
  = true.
Proof.
  apply (totalHours_monotone_in_weights example_categories
           (map (fun c => with_weight c (Finite 10)) example_categories) 30%Q).
  - discriminate.
  - reflexivity.
  - unfold example_categories.
    repeat (apply Forall_cons; split;
            [eexists; split; [reflexivity|split; discriminate]|]).
    apply Forall_nil_2.
  - unfold example_categories. simpl.
    repeat (apply Forall_cons; split;
            [eexists; split; [reflexivity|split; discriminate]|]).
    apply Forall_nil_2.
  - unfold example_categories. simpl.
    repeat (apply Forall2_cons; split; [split; [reflexivity|discriminate]|]).
    apply Forall2_nil_2.
  - reflexivity.
Defined.

(** ** The combined list *)

(** X22. The list [combinedSources] the handler builds after the citation
    pass, and does not send, has one entry per source of the reply that has
    a link, the entries carry the citations [1], [2], ... in that order, and
    the [source] and [ground_news_link] of every entry are undefined, since
    a search result has no such properties. *)
Theorem combinedSources_one_per_linked_source :
  forall (enhancedData : list (Category EnhancedFact)),
    let out := assign_citations new_registry enhancedData in
    length (combinedSources out.1) = count_linked (flat_sources out.2)
    /\ map combined_citation (combinedSources out.1)
       = map bracket (seq 1 (count_linked (flat_sources out.2)))
    /\ Forall (fun e => combined_source e = VUndefined
                        /\ combined_ground_news_link e = VUndefined)
         (combinedSources out.1).
Proof.
  intros ed out. subst out.
  assert (count_linked (flat_sources (assign_citations new_registry ed).2)
          = count_linked (flat_sources ed)) as ->.
  { rewrite (proj2 (assign_citations_flat _ _)). apply count_linked_same.
    apply map_accum_Forall2. intros. apply assign_same_result. }
  destruct (combinedSources_ascending ed) as [E H].
  split; [|by split].
  rewrite <- (length_map combined_citation), E, length_map. apply length_seq.
Qed.

(** ** The hours against the exact formula *)

(** X23. For a non-empty sequence of at most 2^20 categories with weights
    in [1,10] and a daysPerYear between a millionth and a million, the
    rounding of the operations moves the product of the formula by less than
    a four-hundredth: totalHours is an integer within one of the formula
    evaluated exactly, and it is that value whenever the exact product is
    not within a hundredth of a tie, that is within 49/100 of an integer. *)
Theorem totalHours_within_one :
  forall (categories : list (Category EnhancedFact)) (d : Q),
    categories <> [] ->
    Z.of_nat (length categories) <= 2 ^ 20 ->
    Forall weight_in_range categories ->
    (1 # 1000000 <= d <= 1000000)%Q ->
    exists h : Z,
      totalHours (calculateWeightsAndHours categories (VNum (Finite d))) = of_Z h
      /\ spec_totalHours categories d - 1 <= h <= spec_totalHours categories d + 1
      /\ forall k : Z,
          (inject_Z k - (49 # 100)
           <= spec_averageWeight categories / 10 * (d * 24 / 5)
              * spec_relevanceModifier categories
           <= inject_Z k + (49 # 100))%Q ->
          h = k /\ spec_totalHours categories d = k.
Proof.
  intros categories d Hne Hn H Hd.
  destruct (product_close categories d Hne Hn H Hd) as (p & E & Hp).
  exists (round_half_up p). split; [exact E|].
  pose proof (spec_averageWeight_bounds categories Hne H) as HA.
  pose proof (spec_relevanceModifier_bounds categories H) as HM.
  assert (1 <= inject_Z (Z.of_nat (length categories)) <= 1048576)%Q as Hlen.
  { change 1%Q with (inject_Z 1). change 1048576%Q with (inject_Z 1048576).
    rewrite <- !Zle_Qle. destruct categories; [done|]. simpl length in *. lia. }
  unfold spec_totalHours.
  assert (0 <= spec_averageWeight categories / 10 * (d * 24 / 5) <= 4800000)%Q as HAT.
  { unfold Qdiv. change (/ 10)%Q with (1 # 10)%Q. change (/ 5)%Q with (1 # 5)%Q. split; nra. }
  set (X := (spec_averageWeight categories / 10 * (d * 24 / 5))%Q) in *.
  assert (0 <= X * spec_relevanceModifier categories <= 9600000)%Q as HP by (split; nra).
  set (P := (X * spec_relevanceModifier categories)%Q) in *.
  set (n := inject_Z (Z.of_nat (length categories))) in *.
  assert (P - (1 # 400) <= p <= P + (1 # 400))%Q as Herr.
  { unfold close, unit_roundoff in Hp. destruct Hp as [Hp1 Hp2].
    set (e := (2 * (1 # 9007199254740992) * (n + 12))%Q) in *.
    assert (0 <= e <= 1 # 4000000000)%Q as He by (subst e; split; lra).
    split; nra. }
  unfold round_half_up.
  pose proof (Qfloor_le (p + (1 # 2))) as Hf1. pose proof (Qlt_floor (p + (1 # 2))) as Hf2.
  pose proof (Qfloor_le (P + (1 # 2))) as Hg1. pose proof (Qlt_floor (P + (1 # 2))) as Hg2.
  rewrite inject_Z_plus in Hf2, Hg2. change (inject_Z 1) with 1%Q in Hf2, Hg2.
  split.
  - assert (inject_Z (Qfloor (P + (1 # 2))) < inject_Z (Qfloor (p + (1 # 2)) + 2))%Q as Ha
      by (rewrite inject_Z_plus; change (inject_Z 2) with 2%Q; lra).
    assert (inject_Z (Qfloor (p + (1 # 2))) < inject_Z (Qfloor (P + (1 # 2)) + 2))%Q as Hb
      by (rewrite inject_Z_plus; change (inject_Z 2) with 2%Q; lra).
    rewrite <- Zlt_Qlt in Ha, Hb. lia.
  - intros k Hk. split; apply Qfloor_unique; lra.
Qed.

Lemma totalHours_within_one_witness :
  exists h : Z,
    totalHours (calculateWeightsAndHours (example_categories ++ [example_personal])
                  (VNum (Finite 75))) = of_Z h
    /\ spec_totalHours (example_categories ++ [example_personal]) 75 - 1 <= h
       <= spec_totalHours (example_categories ++ [example_personal]) 75 + 1.
Proof.
  destruct (totalHours_within_one (example_categories ++ [example_personal]) 75)
    as (h & E & Hh & _).
  - discriminate.
  - vm_compute. discriminate.
  - repeat constructor; eexists; (split; [reflexivity|]); split; discriminate.
  - split; discriminate.
  - exists h. split; [exact E|exact Hh].
Defined.
